(** * stx-supply-schedule: the unlocked-supply series and its CSV report

    A shallow embedding of the [run] routine of [src/index.ts] (and of the two
    earlier/later variants of the same routine kept in the repository), with
    the properties stated about it.

    Conventions.
    - JavaScript [number] values that hold block heights and epoch seconds are
      integers far below 2^53; they are modelled by [Z].
    - [bigint] is [Z].
    - A thrown exception is the left injection of [result]; nothing is caught
      and resumed anywhere in the program ([catch] only logs and rethrows).
    - [totals] is a JavaScript array that grows by [push]: a [list] extended
      at its end.
    - The store does not change while a run lasts: a query is a function of
      its parameters.  Failures of the connection and of the file system are
      left out.  A query the server rejects is an exception like any other:
      the earlier program casts amounts to PostgreSQL's [bigint], which
      rejects what 64 bits do not hold; src/index.ts and the second program
      cast to [numeric], which holds every integer. *)

From Stdlib Require Import ZArith List String Ascii Lia DecimalString Bool.
From Stdlib Require Import Sorted.
From Stdlib Require Decimal DecimalFacts DecimalPos DecimalN DecimalZ.
From stdpp Require Import base list.
From Equations Require Import Equations.

Local Open Scope Z_scope.

(* ===================================================================== *)
(** ** Exceptions *)
(* ===================================================================== *)

(** Where an [undefined] array element is dereferenced. *)
Inductive access_site : Type :=
| PreviousEntry   (* totals[totals.length - 1].queried_micro_stx, in the loop *)
| FirstEntry      (* totals[0].block_height, first sanity check *)
| CheckedEntry    (* totals[i], totals[i - 1] in the sanity loop *)
| PrunedEntry     (* totals[i], totals[i - 1] in the pruning loop *)
| LastEntry.      (* totals[totals.length - 1].total_calculated *)

Inductive error : Type :=
| TypeError_BigInt_null                (* BigInt(null): empty aggregate *)
| TypeError_undefined (site : access_site)
| RangeError_invalid_time              (* toISOString of an invalid Date *)
| AssertionError (message : string)
| DatabaseError_bigint_out_of_range.   (* PostgreSQL 22003, from client.query *)

Definition result (A : Type) : Type := (error + A)%type.

Definition ret {A} (a : A) : result A := inr a.
Definition throw {A} (e : error) : result A := inl e.
Definition bind {A B} (c : result A) (k : A -> result B) : result B :=
  match c with
  | inl e => inl e
  | inr a => k a
  end.

Notation "'let*' x ':=' c 'in' k" := (bind c (fun x => k))
  (at level 10, x name, c at level 100, k at level 200).

(** [assert(cond, message)] *)
Definition assert (cond : bool) (message : string) : result unit :=
  if cond then ret tt else throw (AssertionError message).

(** [assert.strictEqual(actual, expected, message)] on strings *)
Definition assert_strictEqual (actual expected message : string) : result unit :=
  assert (String.eqb actual expected) message.

(** [a[i]] followed by a property read: [undefined.p] throws. *)
Definition element {A} (site : access_site) (a : list A) (i : nat) : result A :=
  match a !! i with
  | Some x => ret x
  | None => throw (TypeError_undefined site)
  end.

(** [f] over the elements in order, stopping at the first exception. *)
Fixpoint traverse {A B} (f : A -> result B) (l : list A) : result (list B) :=
  match l with
  | [] => ret []
  | x :: rest =>
      let* y := f x in
      let* ys := traverse f rest in
      ret (y :: ys)
  end.

(** [BigInt(v)] of an aggregate column: SQL NULL arrives as [null]. *)
Definition BigInt (v : option Z) : result Z :=
  match v with
  | Some z => ret z
  | None => throw TypeError_BigInt_null
  end.

(* ===================================================================== *)
(** ** The JavaScript string primitives the program uses *)
(* ===================================================================== *)

Module JS.

Local Open Scope string_scope.
Local Open Scope Z_scope.

Definition length (s : string) : Z := Z.of_nat (String.length s).

(** [bigint.toString()] and [number.toString()] of an integer. *)
Definition toString (z : Z) : string := NilZero.string_of_int (Z.to_int z).

(** Relative index of [slice]: negative counts from the end. *)
Definition relative_index (len i : Z) : Z :=
  if i <? 0 then Z.max (len + i) 0 else Z.min i len.

(** [s.slice(start, end)]; [end_ = None] is an omitted [end]. *)
Definition slice (s : string) (start : Z) (end_ : option Z) : string :=
  let len := length s in
  let from := relative_index len start in
  let to := match end_ with
            | Some e => relative_index len e
            | None => len
            end in
  if to <=? from then ""
  else substring (Z.to_nat from) (Z.to_nat (to - from)) s.

(** The first [k] characters of [fill] repeated; [cur] is what is left of
    the current copy. *)
Fixpoint repeat_fill (k : nat) (cur fill : string) : string :=
  match k with
  | O => ""
  | S k' =>
      match cur with
      | String c rest => String c (repeat_fill k' rest fill)
      | EmptyString =>
          match fill with
          | String c rest => String c (repeat_fill k' rest fill)
          | EmptyString => ""
          end
      end
  end.

(** [s.padStart(targetLength, fill)] *)
Definition padStart (s : string) (targetLength : Z) (fill : string) : string :=
  let len := length s in
  if targetLength <=? len then s
  else repeat_fill (Z.to_nat (targetLength - len)) fill fill ++ s.

Definition is_digit (c : ascii) : bool :=
  let n := N_of_ascii c in ((48 <=? n) && (n <=? 57))%N.

(** [\w] *)
Definition is_word (c : ascii) : bool :=
  let n := N_of_ascii c in
  (is_digit c || ((65 <=? n) && (n <=? 90)) || ((97 <=? n) && (n <=? 122))
   || (n =? 95))%N.

Definition is_word_at (c : option ascii) : bool :=
  match c with
  | Some c => is_word c
  | None => false
  end.

Definition first_char (s : string) : option ascii :=
  match s with
  | String c _ => Some c
  | EmptyString => None
  end.

(** Length of the longest prefix of digits. *)
Fixpoint digit_run (s : string) : nat :=
  match s with
  | String c rest => if is_digit c then S (digit_run rest) else O
  | EmptyString => O
  end.

(** [(?=(\d{3})+(?!\d))]: some positive multiple of three digits follows
    and no digit comes after them, that is, the run of digits that starts
    here has a positive length divisible by three. *)
Definition lookahead_groups (s : string) : bool :=
  let r := digit_run s in
  (negb (r =? 0) && (r mod 3 =? 0))%nat.

(** [\B]: the characters on both sides are of the same class. *)
Definition not_word_boundary (prev next : option ascii) : bool :=
  eqb (is_word_at prev) (is_word_at next).

(** [s.replace(/\B(?=(\d{3})+(?!\d))/g, ',')]: the pattern is empty-width,
    so a comma is inserted at every position where it matches. *)
Fixpoint replace_groups_from (prev : option ascii) (s : string) : string :=
  let here :=
    if not_word_boundary prev (first_char s) && lookahead_groups s
    then "," else "" in
  match s with
  | String c rest => here ++ String c (replace_groups_from (Some c) rest)
  | EmptyString => here
  end.

Definition replace_groups (s : string) : string := replace_groups_from None s.

(** *** [Date] *)

(** Civil date (year, month, day) of a day number counted from
    1970-01-01, proleptic Gregorian calendar. *)
Definition civil_from_days (days : Z) : Z * Z * Z :=
  let z := days + 719468 in
  let era := z / 146097 in
  let doe := z - era * 146097 in
  let yoe := (doe - doe / 1460 + doe / 36524 - doe / 146096) / 365 in
  let doy := doe - (365 * yoe + yoe / 4 - yoe / 100) in
  let mp := (5 * doy + 2) / 153 in
  let d := doy - (153 * mp + 2) / 5 + 1 in
  let m := if mp <? 10 then mp + 3 else mp - 9 in
  let y := yoe + era * 400 in
  (if m <=? 2 then y + 1 else y, m, d).

Definition digits (width : Z) (n : Z) : string :=
  padStart (toString n) width "0".

Definition year_string (y : Z) : string :=
  if (0 <=? y) && (y <=? 9999) then digits 4 y
  else (if y <? 0 then "-" else "+") ++ digits 6 (Z.abs y).

(** [new Date(ms).toISOString()]: a time value beyond 8.64e15 ms is an
    invalid Date, on which [toISOString] throws a RangeError. *)
Definition toISOString (ms : Z) : result string :=
  if 8640000000000000 <? Z.abs ms then throw RangeError_invalid_time
  else
    let day := ms / 86400000 in
    let t := ms mod 86400000 in
    let '(y, m, d) := civil_from_days day in
    ret (year_string y ++ "-" ++ digits 2 m ++ "-" ++ digits 2 d ++ "T"
         ++ digits 2 (t / 3600000) ++ ":" ++ digits 2 (t / 60000 mod 60)
         ++ ":" ++ digits 2 (t / 1000 mod 60) ++ "."
         ++ digits 3 (t mod 1000) ++ "Z").

(** [Math.round(n / d)] for an integer [n] and a positive integer [d]:
    nearest integer, halves rounded up. *)
Definition Math_round_div (n d : Z) : Z := (2 * n + d) / (2 * d).

(** [a.slice(-1)[0]]: the last element, [undefined] on an empty array. *)
Definition last_element (a : list Z) : option Z := last a.

(** [Math.max(x, y) + k] on numbers where [undefined] coerces to NaN;
    [None] stands for NaN. *)
Definition Math_max_plus (x y : option Z) (k : Z) : option Z :=
  match x, y with
  | Some x, Some y => Some (Z.max x y + k)
  | _, _ => None
  end.

(** [a.includes(x)] on an array of integers. *)
Definition includes (a : list Z) (x : Z) : bool := existsb (Z.eqb x) a.

(** [i < bound] where the bound may be NaN: every comparison with NaN is
    false. *)
Definition lt_number (i : Z) (bound : option Z) : bool :=
  match bound with
  | Some b => i <? b
  | None => false
  end.

End JS.

(* ===================================================================== *)
(** ** Data model *)
(* ===================================================================== *)

(** One element of [totals]. *)
Record BlockTotal : Type := mkBlockTotal {
  block_height : Z;
  queried_micro_stx : Z;
  vested_micro_stx : Z;
  total_calculated : Z;
  date_time : string
}.

(** One element of [vestingResults]. *)
Record VestingResult : Type := mkVestingResult {
  vesting_block_height : Z;
  micro_stx : Z
}.

(** The database client, seen through the five queries of [src/index.ts].
    An aggregate over no rows is SQL NULL, here [None]. *)
Record Client : Type := mkClient {
  (* SELECT MAX(block_id) as block_id FROM accounts *)
  STX_LATEST_BLOCK_HEIGHT_QUERY : Z;
  (* SUM(vesting_value) per block_id, ascending *)
  STX_VESTED_BY_BLOCK_QUERY : list VestingResult;
  (* distinct lock_transfer_block_id, ascending *)
  LOCK_TRANSFER_BLOCK_IDS_QUERY : list Z;
  (* net balance as of block $1 *)
  STX_TOTAL_AT_BLOCK_QUERY : Z -> option Z;
  (* vested with block_id <= $1 AND block_id > $2 *)
  STX_TOTAL_VESTED_BY_BLOCK_QUERY : Z -> Z -> option Z
}.

Definition CRLF : string :=
  String (ascii_of_nat 13) (String (ascii_of_nat 10) EmptyString).

Definition inspect {A} (a : A) : {b | a = b} := exist _ a eq_refl.

(** [totals[totals.length - 1]] *)
Definition previous (totals : list BlockTotal) : option BlockTotal :=
  totals !! (length totals - 1)%nat.

(* ===================================================================== *)
(** ** The accumulating loop *)
(* ===================================================================== *)

(** [for (let blockHeight = ...; blockHeight < lastBlockHeight;
          blockHeight++) { body }], the shape shared by every variant of
    [run]; the body pushes onto [totals] or throws. *)
Section ForLoop.

Variable lastBlockHeight : option Z.
Variable body : Z -> list BlockTotal -> result (list BlockTotal).

(** Iterations left before [blockHeight < lastBlockHeight] fails. *)
Definition iterations_left (blockHeight : Z) : nat :=
  match lastBlockHeight with
  | Some l => Z.to_nat (l - blockHeight)
  | None => O
  end.

Equations? for_loop (blockHeight : Z) (totals : list BlockTotal)
    : result (list BlockTotal) by wf (iterations_left blockHeight) lt :=
  for_loop blockHeight totals with
      inspect (JS.lt_number blockHeight lastBlockHeight) := {
    | exist _ true continue with body blockHeight totals := {
        | inl e => inl e
        | inr totals' => for_loop (blockHeight + 1) totals' }
    | exist _ false _ => inr totals }.
Proof.
  unfold iterations_left, JS.lt_number in *.
  destruct lastBlockHeight; [lia | discriminate].
Qed.

End ForLoop.

(* ===================================================================== *)
(** ** [run] of src/index.ts *)
(* ===================================================================== *)

Section Run.

Variable client : Client.
(** The value [Date.now()] returns, in milliseconds. *)
Variable now : Z.

Definition currentBlockHeight : Z := STX_LATEST_BLOCK_HEIGHT_QUERY client.

Definition currentDate : Z := JS.Math_round_div now 1000.

Definition vestingResults : list VestingResult :=
  STX_VESTED_BY_BLOCK_QUERY client.

Definition vestingBlockHeights : list Z :=
  map vesting_block_height vestingResults.

Definition lockTransferBlockHeights : list Z :=
  LOCK_TRANSFER_BLOCK_IDS_QUERY client.

(** [Math.max(lockTransferBlockHeights.slice(-1)[0],
              vestingBlockHeights.slice(-1)[0]) + 5] *)
Definition lastBlockHeight : option Z :=
  JS.Math_max_plus (JS.last_element lockTransferBlockHeights)
                   (JS.last_element vestingBlockHeights) 5.

(** The body of the accumulating loop, lines 65 to 92: the entry for
    [blockHeight] is built from the queries and from the last element of
    [totals], and pushed. *)
Definition loop_body (blockHeight : Z) (totals : list BlockTotal)
  : result (list BlockTotal) :=
  let blockTimePassed := (blockHeight - currentBlockHeight) * 10 * 60 in
  let* blockTimestamp :=
    JS.toISOString ((currentDate + blockTimePassed) * 1000) in
  let* vested :=
    (if JS.includes vestingBlockHeights blockHeight
     then BigInt (STX_TOTAL_VESTED_BY_BLOCK_QUERY client blockHeight
                    currentBlockHeight)
     else ret (match previous totals with
               | Some p => vested_micro_stx p
               | None => 0
               end)) in
  let* queried :=
    (if JS.includes lockTransferBlockHeights blockHeight
        || (blockHeight =? currentBlockHeight)
     then BigInt (STX_TOTAL_AT_BLOCK_QUERY client blockHeight)
     else match previous totals with
          | Some p => ret (queried_micro_stx p)
          | None => throw (TypeError_undefined PreviousEntry)
          end) in
  ret (totals ++ [ {| block_height := blockHeight;
                      queried_micro_stx := queried;
                      vested_micro_stx := vested;
                      total_calculated := queried + vested;
                      date_time := blockTimestamp |} ]).

(** Lines 63 to 93: the series before the sanity checks. *)
Definition accumulate : result (list BlockTotal) :=
  for_loop lastBlockHeight loop_body currentBlockHeight [].

(** The body of the sanity loop at index [i]. *)
Definition check_pair (totals : list BlockTotal) (i : nat) : result unit :=
  let* cur := element CheckedEntry totals i in
  let* prev := element CheckedEntry totals (i - 1) in
  let* _ := assert (block_height cur =? block_height prev + 1)
              "unordered blocks!" in
  assert (total_calculated prev <=? total_calculated cur)
    "total balance should always increase!".

(** [for (let i = ...; i < totals.length; i++)], with [n] the number of
    indices from [i] up to [totals.length - 1]. *)
Fixpoint check_pairs (totals : list BlockTotal) (n i : nat) : result unit :=
  match n with
  | O => ret tt
  | S n' =>
      let* _ := check_pair totals i in
      check_pairs totals n' (S i)
  end.

(** Lines 96 to 105. *)
Definition sanity_checks (totals : list BlockTotal) : result unit :=
  let* first := element FirstEntry totals 0 in
  let* _ := assert (block_height first =? currentBlockHeight)
              "unexpected initial block height" in
  check_pairs totals (length totals - 1) 1.

End Run.

(** [totals.splice(i, 1)] for an index inside the array. *)
Definition splice1 (totals : list BlockTotal) (i : nat) : list BlockTotal :=
  take i totals ++ drop (S i) totals.

(** Lines 108 to 112: [for (let i = totals.length - 1; i > 0; i--)]. *)
Fixpoint prune_loop (i : nat) (totals : list BlockTotal)
  : result (list BlockTotal) :=
  match i with
  | O => ret totals
  | S j =>
      let* cur := element PrunedEntry totals (S j) in
      let* prev := element PrunedEntry totals j in
      prune_loop j (if total_calculated cur =? total_calculated prev
                    then splice1 totals (S j)
                    else totals)
  end.

Definition prune (totals : list BlockTotal) : result (list BlockTotal) :=
  prune_loop (length totals - 1) totals.

(** Lines 114 to 116: the last total in whole STX with separators. *)
Definition finalSupply (totals : list BlockTotal) : result string :=
  let* lastEntry := element LastEntry totals (length totals - 1) in
  ret (JS.replace_groups
         (JS.slice (JS.toString (total_calculated lastEntry)) 0 (Some (-6)))).

(** Lines 124 to 127: one line of supply.csv. *)
Definition csv_line (entry : BlockTotal) : string :=
  let stxInt := JS.slice (JS.toString (total_calculated entry)) 0 (Some (-6)) in
  let stxFrac := JS.slice (JS.toString (total_calculated entry)) (-6) None in
  let stxStr := (stxInt ++ "." ++ stxFrac)%string in
  (JS.toString (block_height entry) ++ "," ++
   JS.toString (total_calculated entry) ++ "," ++ stxStr ++ "," ++
   date_time entry ++ CRLF)%string.

(** Lines 121 to 129: what the successive [writeSync] calls leave in
    supply.csv. *)
Definition write_csv (totals : list BlockTotal) : string :=
  fold_left (fun file entry => (file ++ csv_line entry)%string) totals
    ("block_height,unlocked_micro_stx,unlocked_stx,estimated_time" ++ CRLF)%string.

(** [run]: the content of supply.csv on normal completion, the uncaught
    exception otherwise.  The file is opened only after every check has
    passed. *)
Definition run (client : Client) (now : Z) : result string :=
  let* totals := accumulate client now in
  let* _ := sanity_checks client totals in
  let* totals := prune totals in
  let* supply := finalSupply totals in
  let* _ := assert_strictEqual supply "1,352,464,598"
              "incorrect final unlocked balance" in
  ret (write_csv totals).

(* ===================================================================== *)
(** ** The ledger behind the client *)
(* ===================================================================== *)

(** The two tables the queries read and the queries themselves, so that
    concrete clients are answers of a concrete ledger. *)
Module Ledger.

Record Account : Type := mkAccount {
    address : string;
    type : string;
    credit_value : Z;
    debit_value : Z;
    lock_transfer_block_id : Z;
    block_id : Z;
    vtxindex : Z
  }.

Record Vesting : Type := mkVesting {
    vesting_address : string;
    vesting_type : string;
    vesting_value : Z;
    vesting_block_id : Z
  }.

Record Database : Type := mkDatabase {
    accounts : list Account;
    account_vesting : list Vesting
  }.

Definition is_STACKS (t : string) : bool := String.eqb t "STACKS".

(** SUM: NULL over no rows. *)
Definition SUM (values : list Z) : option Z :=
  match values with
  | [] => None
  | _ => Some (fold_right Z.add 0 values)
  end.

(** MAX: NULL over no rows. *)
Definition MAX (values : list Z) : option Z :=
  match values with
  | [] => None
  | v :: rest => Some (fold_right Z.max v rest)
  end.

Fixpoint insert_distinct (x : Z) (sorted : list Z) : list Z :=
  match sorted with
  | [] => [x]
  | y :: rest =>
      if x <? y then x :: sorted
      else if x =? y then sorted
      else y :: insert_distinct x rest
  end.

(** SELECT DISTINCT ... ORDER BY ... ASC on one integer column. *)
Definition distinct_ascending (values : list Z) : list Z :=
  fold_right insert_distinct [] values.

(** ORDER BY block_id DESC, vtxindex DESC: does [a] come before [b]? *)
Definition newer (a b : Account) : bool :=
  (block_id b <? block_id a)
  || ((block_id a =? block_id b) && (vtxindex b <? vtxindex a)).

(** DISTINCT ON (address): keeps, per address, the first row in the
    order above. *)
Fixpoint distinct_on_address (rows : list Account) (kept : list Account)
  : list Account :=
  match rows with
  | [] => kept
  | r :: rest =>
      distinct_on_address rest
        (if existsb (fun k => String.eqb (address k) (address r)) kept
         then map (fun k => if String.eqb (address k) (address r) && newer r k
                            then r else k) kept
         else kept ++ [r])
  end.

Definition STX_TOTAL_AT_BLOCK_QUERY (db : Database) (height : Z) : option Z :=
  let rows := filter (fun r => is_STACKS (type r)
                               && (lock_transfer_block_id r <=? height)
                               && (block_id r <=? height)) (accounts db) in
  SUM (map (fun r => credit_value r - debit_value r)
         (distinct_on_address rows [])).

Definition STX_LATEST_BLOCK_HEIGHT_QUERY (db : Database) : option Z :=
  MAX (map block_id (accounts db)).

Definition STX_VESTED_BY_BLOCK_QUERY (db : Database) : list VestingResult :=
  let rows := filter (fun v => is_STACKS (vesting_type v)) (account_vesting db) in
  map (fun b => {| vesting_block_height := b;
                   micro_stx :=
                     fold_right Z.add 0
                       (map vesting_value
                          (filter (fun v => vesting_block_id v =? b) rows)) |})
    (distinct_ascending (map vesting_block_id rows)).

Definition STX_TOTAL_VESTED_BY_BLOCK_QUERY (db : Database) (height floor : Z)
  : option Z :=
  SUM (map vesting_value
         (filter (fun v => is_STACKS (vesting_type v)
                           && (vesting_block_id v <=? height)
                           && (floor <? vesting_block_id v))
            (account_vesting db))).

Definition LOCK_TRANSFER_BLOCK_IDS_QUERY (db : Database) : list Z :=
  distinct_ascending (map lock_transfer_block_id (accounts db)).

(** The client of [src/index.ts] connected to [db]; the ledger is taken
    to hold at least one account row, so that the latest block height is
    a number. *)
Definition connect (db : Database) : option Client :=
  match STX_LATEST_BLOCK_HEIGHT_QUERY db with
  | Some height =>
      Some (mkClient height
              (STX_VESTED_BY_BLOCK_QUERY db)
              (LOCK_TRANSFER_BLOCK_IDS_QUERY db)
              (STX_TOTAL_AT_BLOCK_QUERY db)
              (STX_TOTAL_VESTED_BY_BLOCK_QUERY db))
  | None => None
  end.

End Ledger.

(* ===================================================================== *)
(** ** The earlier [run] (first program of src/unnamed/part_000) *)
(* ===================================================================== *)

Module Legacy.

(** The four queries of that program: the rows the three queries sent
    before the loop have returned, and the query sent from the loop, which
    the server answers or rejects.  The entries carry no [date_time]; the
    field is left empty here. *)
Record Client : Type := mkClient {
  (* rows[0].val: MAX(block_id); rows[1].val: the supply at that height *)
  STX_LATEST_TOTAL_TXS_QUERY : Z * option Z;
  STX_VESTED_BY_BLOCK_QUERY : list VestingResult;
  LOCK_TRANSFER_BLOCK_IDS_QUERY : list Z;
  STX_TOTAL_TXS_AT_BLOCK_QUERY : Z -> result (option Z)
}.

Section Run.

Variable client : Client.

Definition initBlockHeight : Z := fst (STX_LATEST_TOTAL_TXS_QUERY client).

Definition vestingResults : list VestingResult :=
  STX_VESTED_BY_BLOCK_QUERY client.

Definition vestingBlockHeights : list Z :=
  map vesting_block_height vestingResults.

Definition lockTransferBlockHeights : list Z :=
  LOCK_TRANSFER_BLOCK_IDS_QUERY client.

Definition lastBlockHeight : option Z :=
  JS.Math_max_plus (JS.last_element lockTransferBlockHeights)
                   (JS.last_element vestingBlockHeights) 5.

(** Lines 79 to 95.  The first [if] has no [else] before the second
    [if]: whatever it stored is overwritten by one of the two branches
    that follow. *)
Definition loop_body (initStxSupply : Z) (blockHeight : Z)
    (totals : list BlockTotal) : result (list BlockTotal) :=
  let vested0 := match previous totals with
                 | Some p => vested_micro_stx p
                 | None => 0
                 end in
  let vested :=
    match find (fun r => vesting_block_height r =? blockHeight)
            vestingResults with
    | Some vestingBlock => vested0 + micro_stx vestingBlock
    | None => vested0
    end in
  let* queried0 :=
    (if JS.includes lockTransferBlockHeights blockHeight
     then let* val := STX_TOTAL_TXS_AT_BLOCK_QUERY client blockHeight in
          BigInt val
     else ret 0) in
  let* queried :=
    (if blockHeight =? initBlockHeight
     then ret initStxSupply
     else match previous totals with
          | Some p => ret (queried_micro_stx p)
          | None => throw (TypeError_undefined PreviousEntry)
          end) in
  ret (totals ++ [ {| block_height := blockHeight;
                      queried_micro_stx := queried;
                      vested_micro_stx := vested;
                      total_calculated := queried + vested;
                      date_time := EmptyString |} ]).

(** Lines 57 to 96. *)
Definition accumulate : result (list BlockTotal) :=
  let* initStxSupply := BigInt (snd (STX_LATEST_TOTAL_TXS_QUERY client)) in
  for_loop lastBlockHeight (loop_body initStxSupply) initBlockHeight [].

(** Lines 99 to 108, the same checks as in src/index.ts. *)
Definition sanity_checks (totals : list BlockTotal) : result unit :=
  let* first := element FirstEntry totals 0 in
  let* _ := assert (block_height first =? initBlockHeight)
              "unexpected initial block height" in
  check_pairs totals (length totals - 1) 1.

Definition csv_line (entry : BlockTotal) : string :=
  let stxInt := JS.slice (JS.toString (total_calculated entry)) 0 (Some (-6)) in
  let stxFrac := JS.slice (JS.toString (total_calculated entry)) (-6) None in
  let stxStr := (stxInt ++ "." ++ stxFrac)%string in
  (JS.toString (block_height entry) ++ "," ++
   JS.toString (total_calculated entry) ++ "," ++ stxStr ++ "," ++
   JS.toString (vested_micro_stx entry) ++ CRLF)%string.

Definition write_csv (totals : list BlockTotal) : string :=
  fold_left (fun file entry => (file ++ csv_line entry)%string) totals
    ("block_height,unlocked_micro_stx,unlocked_stx,vested" ++ CRLF)%string.

Definition run : result string :=
  let* totals := accumulate in
  let* _ := sanity_checks totals in
  ret (write_csv totals).

End Run.

(** [address !~ '(-|_)' AND length(address) BETWEEN 33 AND 34] *)
Fixpoint has_dash_or_underscore (s : string) : bool :=
  match s with
  | String c rest =>
      (N_of_ascii c =? 45)%N || (N_of_ascii c =? 95)%N
      || has_dash_or_underscore rest
  | EmptyString => false
  end.

Definition plain_address (a : string) : bool :=
  negb (has_dash_or_underscore a)
  && (33 <=? JS.length a) && (JS.length a <=? 34).

(** PostgreSQL's [bigint]: 64 bits, signed. *)
Definition in_bigint (v : Z) : bool :=
  (-9223372036854775808 <=? v) && (v <=? 9223372036854775807).

(** [CAST(v AS bigint)]: a value out of range is rejected. *)
Definition CAST_AS_bigint (v : Z) : result Z :=
  if in_bigint v then ret v else throw DatabaseError_bigint_out_of_range.

(** [CAST(credit_value AS bigint) - CAST(debit_value AS bigint)]: the
    difference of two [bigint] is a [bigint], rejected out of range as
    well. *)
Definition net_value (r : Ledger.Account) : result Z :=
  let* credit := CAST_AS_bigint (Ledger.credit_value r) in
  let* debit := CAST_AS_bigint (Ledger.debit_value r) in
  if in_bigint (credit - debit) then ret (credit - debit)
  else throw DatabaseError_bigint_out_of_range.

(** Lines 5 to 18.  The casts are applied to the rows [DISTINCT ON] has
    kept; [SUM] of [bigint] is a [numeric] and does not overflow. *)
Definition ledger_STX_TOTAL_TXS_AT_BLOCK_QUERY (db : Ledger.Database)
    (height : Z) : result (option Z) :=
  let rows := filter (fun r => Ledger.is_STACKS (Ledger.type r)
                               && plain_address (Ledger.address r)
                               && (Ledger.lock_transfer_block_id r <=? height))
                (Ledger.accounts db) in
  let* values := traverse net_value (Ledger.distinct_on_address rows []) in
  ret (Ledger.SUM values).

(** Lines 21 to 38: [MAX(block_id)], and the query above at that height.
    Over no account row the height is NULL, no row has its
    [lock_transfer_block_id] below NULL, and the sum is NULL too. *)
Definition ledger_STX_LATEST_TOTAL_TXS_QUERY (db : Ledger.Database)
  : result (option Z * option Z) :=
  match Ledger.STX_LATEST_BLOCK_HEIGHT_QUERY db with
  | Some height =>
      let* val := ledger_STX_TOTAL_TXS_AT_BLOCK_QUERY db height in
      ret (Some height, val)
  | None => ret (None, None)
  end.

(** Lines 40 to 46: the grouped vesting query of src/index.ts with
    [CAST(vesting_value as bigint)] in place of [::numeric]. *)
Definition ledger_STX_VESTED_BY_BLOCK_QUERY (db : Ledger.Database)
  : result (list VestingResult) :=
  let rows := filter (fun v => Ledger.is_STACKS (Ledger.vesting_type v))
                (Ledger.account_vesting db) in
  traverse
    (fun b =>
       let* values :=
         traverse (fun v => CAST_AS_bigint (Ledger.vesting_value v))
           (filter (fun v => Ledger.vesting_block_id v =? b) rows) in
       ret {| vesting_block_height := b;
              micro_stx := fold_right Z.add 0 values |})
    (Ledger.distinct_ascending (map Ledger.vesting_block_id rows)).

(** The client of the earlier program connected to [db], once the queries
    of lines 57 and 62 have returned; the ledger is taken to hold at least
    one account row, so that the latest block height is a number. *)
Definition connect (db : Ledger.Database) : option Client :=
  match ledger_STX_LATEST_TOTAL_TXS_QUERY db,
        ledger_STX_VESTED_BY_BLOCK_QUERY db with
  | inr (Some height, val), inr vestingResults =>
      Some (mkClient (height, val) vestingResults
              (Ledger.LOCK_TRANSFER_BLOCK_IDS_QUERY db)
              (ledger_STX_TOTAL_TXS_AT_BLOCK_QUERY db))
  | _, _ => None
  end.

(** Lines 53 to 122 on a ledger, from the first query on.  [parseInt] of
    a NULL height is NaN, under which the loop does not run; the supply
    is NULL with it, so that [BigInt] has thrown before. *)
Definition main (db : Ledger.Database) : result string :=
  let* initSupplyRes := ledger_STX_LATEST_TOTAL_TXS_QUERY db in
  let* initStxSupply := BigInt (snd initSupplyRes) in
  let* vestingResults := ledger_STX_VESTED_BY_BLOCK_QUERY db in
  match fst initSupplyRes with
  | Some initBlockHeight =>
      run (mkClient (initBlockHeight, snd initSupplyRes) vestingResults
             (Ledger.LOCK_TRANSFER_BLOCK_IDS_QUERY db)
             (ledger_STX_TOTAL_TXS_AT_BLOCK_QUERY db))
  | None => throw (TypeError_undefined FirstEntry)
  end.

End Legacy.

(* ===================================================================== *)
(** ** The placeholder-account [run] (second program of part_000) *)
(* ===================================================================== *)

Module Placeholder.

Definition microStxToStx (microStx : string) : string :=
  let padded := JS.padStart microStx 7 "0" in
  let stxInt := JS.slice padded 0 (Some (-6)) in
  let stxFrac := JS.slice padded (-6) None in
  (stxInt ++ "." ++ stxFrac)%string.

Definition microStxToReadable (microStx : string) : string :=
  JS.replace_groups (JS.slice (JS.padStart microStx 7 "0") 0 (Some (-6))).

(** Lines 305 to 311, with [totalPlaceholderBalance] as computed at
    lines 227 to 230. *)
Definition final_checks (totalPlaceholderBalance : Z)
    (totals : list BlockTotal) : result unit :=
  let placeholderBalance :=
    microStxToReadable (JS.toString totalPlaceholderBalance) in
  let* _ := assert_strictEqual placeholderBalance "4,392,964"
              "incorrect placeholder balance" in
  let* lastEntry := element LastEntry totals (length totals - 1) in
  let finalSupply :=
    microStxToReadable (JS.toString (total_calculated lastEntry)) in
  assert_strictEqual finalSupply "1,352,464,598"
    "incorrect final unlocked balance".

(** Lines 316 to 319. *)
Definition csv_line (entry : BlockTotal) : string :=
  let stxStr := microStxToStx (JS.toString (total_calculated entry)) in
  (JS.toString (block_height entry) ++ "," ++
   JS.toString (total_calculated entry) ++ "," ++ stxStr ++ "," ++
   date_time entry ++ CRLF)%string.

Definition write_csv (totals : list BlockTotal) : string :=
  fold_left (fun file entry => (file ++ csv_line entry)%string) totals
    ("block_height,unlocked_micro_stx,unlocked_stx,estimated_time" ++ CRLF)%string.

(** Lines 214 to 320 as far as supply.csv is concerned: the loop, the
    sanity checks and the pruning are those of src/index.ts, line for
    line. *)
Definition run_supply (client : Client) (now : Z)
    (totalPlaceholderBalance : Z) : result string :=
  let* totals := accumulate client now in
  let* _ := sanity_checks client totals in
  let* totals := prune totals in
  let* _ := final_checks totalPlaceholderBalance totals in
  ret (write_csv totals).

End Placeholder.

(* ===================================================================== *)
(** ** The placeholder balances (second program of part_000) *)
(* ===================================================================== *)

Module Placeholders.

(** A row of [placeholderAccounts] or [placeholderVesting], with its
    amount as [BigInt] reads it. *)
Record Row : Type := mkRow {
  address : string;
  amount : Z;
  block_height : Z
}.

(** [values.reduce((a, b) => a + b)]: no initial value is given, and
    [None] stands for the TypeError thrown on an empty array. *)
Definition reduce_add (values : list Z) : option Z :=
  match values with
  | [] => None
  | first :: rest => Some (fold_left Z.add rest first)
  end.

(** Lines 227 to 230. *)
Definition totalPlaceholderBalance (placeholderAccounts placeholderVesting
    : list Row) : option Z :=
  reduce_add (map amount (placeholderAccounts ++ placeholderVesting)).

(** A [Map<string, bigint>]: its entries in insertion order. *)
Definition Map : Type := list (string * Z).

(** [m.get(key)] *)
Fixpoint Map_get (m : Map) (key : string) : option Z :=
  match m with
  | [] => None
  | (k, v) :: rest => if String.eqb k key then Some v else Map_get rest key
  end.

(** [m.set(key, value)]: a key already present keeps its place. *)
Fixpoint Map_set (m : Map) (key : string) (value : Z) : Map :=
  match m with
  | [] => [(key, value)]
  | (k, v) :: rest =>
      if String.eqb k key then (k, value) :: rest
      else (k, v) :: Map_set rest key value
  end.

(** Lines 232 to 236. *)
Definition placeholderMap (placeholderAccounts placeholderVesting : list Row)
  : Map :=
  fold_left
    (fun m r =>
       Map_set m (address r) (default 0 (Map_get m (address r)) + amount r))
    (placeholderAccounts ++ placeholderVesting) [].

End Placeholders.

(* ===================================================================== *)
(** ** The vocabulary of the statements *)
(* ===================================================================== *)

(** The entry before index [i]. *)
Definition preceding (totals : list BlockTotal) (i : nat) : option BlockTotal :=
  match i with
  | O => None
  | S j => totals !! j
  end.

(** How the entry [e] pushed after [prev] got its fields. *)
Record entry_follows (client : Client) (prev : option BlockTotal)
    (e : BlockTotal) : Prop := {
  follows_total :
    total_calculated e = queried_micro_stx e + vested_micro_stx e;
  follows_vested_query :
    JS.includes (vestingBlockHeights client) (block_height e) = true ->
    STX_TOTAL_VESTED_BY_BLOCK_QUERY client (block_height e)
      (currentBlockHeight client) = Some (vested_micro_stx e);
  follows_vested_reuse :
    JS.includes (vestingBlockHeights client) (block_height e) = false ->
    vested_micro_stx e = match prev with
                         | Some p => vested_micro_stx p
                         | None => 0
                         end;
  follows_queried_query :
    JS.includes (lockTransferBlockHeights client) (block_height e)
    || (block_height e =? currentBlockHeight client) = true ->
    STX_TOTAL_AT_BLOCK_QUERY client (block_height e)
    = Some (queried_micro_stx e);
  follows_queried_reuse :
    JS.includes (lockTransferBlockHeights client) (block_height e)
    || (block_height e =? currentBlockHeight client) = false ->
    exists p, prev = Some p /\ queried_micro_stx e = queried_micro_stx p
}.

(** The series built so far: consecutive heights from the current one,
    each entry made from the one before it. *)
Definition series_ok (client : Client) (totals : list BlockTotal) : Prop :=
  forall i e,
    totals !! i = Some e ->
    block_height e = currentBlockHeight client + Z.of_nat i
    /\ entry_follows client (preceding totals i) e.

Definition loop_invariant (client : Client) (blockHeight : Z)
    (totals : list BlockTotal) : Prop :=
  blockHeight = currentBlockHeight client + Z.of_nat (length totals)
  /\ series_ok client totals.

(** What the checks of lines 96 to 105 ask of a series seeded at [start]. *)
Definition valid_series (start : Z) (totals : list BlockTotal) : Prop :=
  (exists first, totals !! 0%nat = Some first /\ block_height first = start)
  /\ forall i a b,
       totals !! i = Some a -> totals !! (S i) = Some b ->
       block_height b = block_height a + 1
       /\ total_calculated a <= total_calculated b.

(** The forward scan of the design notes, after their words: an entry is
    retained only if its total differs from the total of the entry retained
    before it; the first entry has none before it. *)
Fixpoint forward_scan_from (retained : BlockTotal) (rest : list BlockTotal)
  : list BlockTotal :=
  match rest with
  | [] => []
  | e :: rest' =>
      if total_calculated e =? total_calculated retained
      then forward_scan_from retained rest'
      else e :: forward_scan_from e rest'
  end.

Definition forward_scan (totals : list BlockTotal) : list BlockTotal :=
  match totals with
  | [] => []
  | first :: rest => first :: forward_scan_from first rest
  end.

(** The total of the last entry of [first :: rest]. *)
Definition last_total (first : BlockTotal) (rest : list BlockTotal) : Z :=
  total_calculated (default first (last rest)).

(** No two neighbours with the same total. *)
Fixpoint no_repeat (totals : list BlockTotal) : Prop :=
  match totals with
  | a :: (b :: _) as rest =>
      total_calculated a <> total_calculated b /\ no_repeat rest
  | _ => True
  end.

(** What the final assertion expects. *)
Definition expected_supply : string := "1,352,464,598".

(** Neighbour by neighbour, the heights go up and the totals do not go
    down. *)
Fixpoint rising (totals : list BlockTotal) : Prop :=
  match totals with
  | a :: (b :: _) as rest =>
      block_height a < block_height b
      /\ total_calculated a <= total_calculated b
      /\ rising rest
  | _ => True
  end.

(** Neighbour by neighbour, the heights and the totals go up. *)
Fixpoint strictly_rising (totals : list BlockTotal) : Prop :=
  match totals with
  | a :: (b :: _) as rest =>
      block_height a < block_height b
      /\ total_calculated a < total_calculated b
      /\ strictly_rising rest
  | _ => True
  end.

(** The sum of the amounts of the rows of one address. *)
Definition amount_of (key : string) (rows : list Placeholders.Row) : Z :=
  fold_right Z.add 0
    (map Placeholders.amount
       (List.filter (fun r => String.eqb (Placeholders.address r) key) rows)).

(** Is there a row of that address? *)
Definition has_address (key : string) (rows : list Placeholders.Row) : bool :=
  existsb (fun r => String.eqb (Placeholders.address r) key) rows.

(** The sum of the values of a map. *)
Definition Map_total (m : Placeholders.Map) : Z :=
  fold_right Z.add 0 (map snd m).

(** What the earlier program adds to the vested amount at a height: the
    amount of the first vesting result of that height, if there is one. *)
Definition released (results : list VestingResult) (height : Z) : Z :=
  match find (fun r => vesting_block_height r =? height) results with
  | Some vestingBlock => micro_stx vestingBlock
  | None => 0
  end.

(** What it has added from [start] to [start + count], both included. *)
Fixpoint released_through (results : list VestingResult) (start : Z)
    (count : nat) : Z :=
  match count with
  | O => released results start
  | S count' =>
      released_through results start count'
      + released results (start + Z.of_nat count)
  end.

(** The character of a digit. *)
Definition digit_char (r : Z) : string :=
  String (ascii_of_nat (48 + Z.to_nat r)) EmptyString.

(** The one-digit decimal number of a digit. *)
Definition digit_uint (r : N) : Decimal.uint :=
  match r with
  | 0 => Decimal.D0 Decimal.Nil | 1 => Decimal.D1 Decimal.Nil
  | 2 => Decimal.D2 Decimal.Nil | 3 => Decimal.D3 Decimal.Nil
  | 4 => Decimal.D4 Decimal.Nil | 5 => Decimal.D5 Decimal.Nil
  | 6 => Decimal.D6 Decimal.Nil | 7 => Decimal.D7 Decimal.Nil
  | 8 => Decimal.D8 Decimal.Nil | _ => Decimal.D9 Decimal.Nil
  end%N.

(** [m] zeros. *)
Fixpoint zeros (m : nat) : string :=
  match m with
  | O => EmptyString
  | S m' => String "0" (zeros m')
  end.

(** A string with its commas taken out. *)
Fixpoint without_commas (s : string) : string :=
  match s with
  | EmptyString => EmptyString
  | String c rest =>
      if Ascii.eqb c "," then without_commas rest
      else String c (without_commas rest)
  end.

(* ===================================================================== *)
(** ** A small ledger to run the programs on *)
(* ===================================================================== *)

Module Scenario.

(** Account A holds 500 micro-STX that unlock at block 100, the latest
    block of the ledger; account B holds 1352464597499500 micro-STX,
    recorded at block 90, that unlock at block 103; 500000 micro-STX vest
    at block 105. *)
Definition ledger : Ledger.Database :=
  {| Ledger.accounts :=
       [ Ledger.mkAccount "1FzTxL9Mxnm2fdmnQEArfhzJHevwbvcH6d" "STACKS"
           500 0 100 100 0;
         Ledger.mkAccount "1A1zP1eP5QGefi2DMPTfTL5SLmv7DivfNa" "STACKS"
           1352464597499500 0 103 90 0 ];
     Ledger.account_vesting :=
       [ Ledger.mkVesting "1A1zP1eP5QGefi2DMPTfTL5SLmv7DivfNa" "STACKS"
           500000 105 ] |}.

(** The same ledger with one micro-STX less in B: the final total falls
    short of 1352464598 STX. *)
Definition short_ledger : Ledger.Database :=
  {| Ledger.accounts :=
       [ Ledger.mkAccount "1FzTxL9Mxnm2fdmnQEArfhzJHevwbvcH6d" "STACKS"
           500 0 100 100 0;
         Ledger.mkAccount "1A1zP1eP5QGefi2DMPTfTL5SLmv7DivfNa" "STACKS"
           1352464597499499 0 103 90 0 ];
     Ledger.account_vesting :=
       [ Ledger.mkVesting "1A1zP1eP5QGefi2DMPTfTL5SLmv7DivfNa" "STACKS"
           500000 105 ] |}.

Definition no_client : Client :=
  mkClient 0 [] [] (fun _ => None) (fun _ _ => None).

Definition client : Client := default no_client (Ledger.connect ledger).

Definition short_client : Client :=
  default no_client (Ledger.connect short_ledger).

Definition legacy_client : Legacy.Client :=
  default (Legacy.mkClient (0, None) [] [] (fun _ => ret None))
    (Legacy.connect ledger).

(** 2020-09-13T12:26:40.123Z, and half a second later. *)
Definition now : Z := 1600000000123.

Definition entry (height queried vested : Z) (time : string) : BlockTotal :=
  {| block_height := height;
     queried_micro_stx := queried;
     vested_micro_stx := vested;
     total_calculated := queried + vested;
     date_time := time |}.

(** What the loop of src/index.ts builds on [ledger] at [now]. *)
Definition series : list BlockTotal :=
  [ entry 100 500 0 "2020-09-13T12:26:40.000Z";
    entry 101 500 0 "2020-09-13T12:36:40.000Z";
    entry 102 500 0 "2020-09-13T12:46:40.000Z";
    entry 103 1352464597500000 0 "2020-09-13T12:56:40.000Z";
    entry 104 1352464597500000 0 "2020-09-13T13:06:40.000Z";
    entry 105 1352464597500000 500000 "2020-09-13T13:16:40.000Z";
    entry 106 1352464597500000 500000 "2020-09-13T13:26:40.000Z";
    entry 107 1352464597500000 500000 "2020-09-13T13:36:40.000Z";
    entry 108 1352464597500000 500000 "2020-09-13T13:46:40.000Z";
    entry 109 1352464597500000 500000 "2020-09-13T13:56:40.000Z" ].

(** What is left of it after pruning. *)
Definition pruned : list BlockTotal :=
  [ entry 100 500 0 "2020-09-13T12:26:40.000Z";
    entry 103 1352464597500000 0 "2020-09-13T12:56:40.000Z";
    entry 105 1352464597500000 500000 "2020-09-13T13:16:40.000Z" ].

End Scenario.

(** A ledger on which the checks fail: the second account, unlocked at block 102,
    is in debt. *)
Definition shrinking_ledger : Ledger.Database :=
  {| Ledger.accounts :=
       [ Ledger.mkAccount "1FzTxL9Mxnm2fdmnQEArfhzJHevwbvcH6d" "STACKS"
           1000 0 100 100 0;
         Ledger.mkAccount "1A1zP1eP5QGefi2DMPTfTL5SLmv7DivfNa" "STACKS"
           0 400 102 95 0 ];
     Ledger.account_vesting :=
       [ Ledger.mkVesting "1A1zP1eP5QGefi2DMPTfTL5SLmv7DivfNa" "STACKS"
           500000 105 ] |}.

(** A ledger whose latest block, 100, is also a vesting height. *)
Definition vesting_now_ledger : Ledger.Database :=
  {| Ledger.accounts :=
       [ Ledger.mkAccount "1FzTxL9Mxnm2fdmnQEArfhzJHevwbvcH6d" "STACKS"
           1352464598000000 0 100 100 0 ];
     Ledger.account_vesting :=
       [ Ledger.mkVesting "1A1zP1eP5QGefi2DMPTfTL5SLmv7DivfNa" "STACKS"
           500000 100 ] |}.

Definition vesting_now_client : Client :=
  default Scenario.no_client (Ledger.connect vesting_now_ledger).

(** A ledger whose first total is above one STX: account A holds
    1352464597000000 micro-STX that unlock at block 100, the latest block;
    account B holds 500000 micro-STX that unlock at block 103; 500000
    micro-STX vest at block 105. *)
Definition funded_ledger : Ledger.Database :=
  {| Ledger.accounts :=
       [ Ledger.mkAccount "1FzTxL9Mxnm2fdmnQEArfhzJHevwbvcH6d" "STACKS"
           1352464597000000 0 100 100 0;
         Ledger.mkAccount "1A1zP1eP5QGefi2DMPTfTL5SLmv7DivfNa" "STACKS"
           500000 0 103 90 0 ];
     Ledger.account_vesting :=
       [ Ledger.mkVesting "1A1zP1eP5QGefi2DMPTfTL5SLmv7DivfNa" "STACKS"
           500000 105 ] |}.

Definition funded_client : Client :=
  default Scenario.no_client (Ledger.connect funded_ledger).

(** The scenario ledger with a third account, of 2^63 micro-STX, that
    unlocks at block 103. *)
Definition overflow_ledger : Ledger.Database :=
  {| Ledger.accounts :=
       Ledger.accounts Scenario.ledger
       ++ [ Ledger.mkAccount "1BvBMSEYstWetqTFn5Au4m4GFg7xJaNVN2" "STACKS"
              9223372036854775808 0 103 95 0 ];
     Ledger.account_vesting := Ledger.account_vesting Scenario.ledger |}.

(** An account row one of whose casts PostgreSQL rejects. *)
Definition rejected_account (r : Ledger.Account) : bool :=
  Ledger.is_STACKS (Ledger.type r) && Legacy.plain_address (Ledger.address r)
  && negb (Legacy.in_bigint (Ledger.credit_value r)
           && Legacy.in_bigint (Ledger.debit_value r)
           && Legacy.in_bigint (Ledger.credit_value r - Ledger.debit_value r)).

(** A vesting row whose cast PostgreSQL rejects. *)
Definition rejected_vesting (v : Ledger.Vesting) : bool :=
  Ledger.is_STACKS (Ledger.vesting_type v)
  && negb (Legacy.in_bigint (Ledger.vesting_value v)).

(** Reads the fields of a record that is written out. *)
Ltac read_fields :=
  cbn [block_height queried_micro_stx vested_micro_stx total_calculated
       date_time] in *.

(* ===================================================================== *)
(** ** Reasoning about the loop *)
(* ===================================================================== *)

Section ForLoopFacts.

Variable lastBlockHeight : option Z.
Variable body : Z -> list BlockTotal -> result (list BlockTotal).

(** One turn of the loop. *)
Lemma for_loop_turn (blockHeight : Z) (totals : list BlockTotal) :
  for_loop lastBlockHeight body blockHeight totals =
  if JS.lt_number blockHeight lastBlockHeight
  then bind (body blockHeight totals)
            (for_loop lastBlockHeight body (blockHeight + 1))
  else ret totals.
Proof.
  funelim (for_loop lastBlockHeight body blockHeight totals).
  all: clear Heqcall;
    match goal with H : {| pr1 := _; pr2 := _ |} = _ |- _ => clear H end.
  - rewrite e. reflexivity.
  - rewrite continue, Heq. reflexivity.
  - rewrite continue, Heq. reflexivity.
Qed.

(** Invariant rule: [I] holds when an iteration starts, [Q] is what is
    known of the outcome, normal or exceptional. *)
Lemma for_loop_rule (I : Z -> list BlockTotal -> Prop)
    (Q : result (list BlockTotal) -> Prop) :
  (forall bh totals,
      I bh totals -> JS.lt_number bh lastBlockHeight = false ->
      Q (inr totals)) ->
  (forall bh totals e,
      I bh totals -> JS.lt_number bh lastBlockHeight = true ->
      body bh totals = inl e -> Q (inl e)) ->
  (forall bh totals totals',
      I bh totals -> JS.lt_number bh lastBlockHeight = true ->
      body bh totals = inr totals' -> I (bh + 1) totals') ->
  forall bh totals,
    I bh totals -> Q (for_loop lastBlockHeight body bh totals).
Proof.
  intros Hexit Hthrow Hstep bh totals.
  remember (iterations_left lastBlockHeight bh) as n eqn:Hn.
  revert bh totals Hn.
  induction n as [n IH] using lt_wf_ind.
  intros bh totals Hn HI.
  rewrite for_loop_turn.
  destruct (JS.lt_number bh lastBlockHeight) eqn:Hlt.
  - destruct (body bh totals) as [e | totals'] eqn:Hbody; simpl.
    + eapply Hthrow; eauto.
    + eapply (IH (iterations_left lastBlockHeight (bh + 1))); eauto.
      subst n. unfold iterations_left, JS.lt_number in *.
      destruct lastBlockHeight; [lia | discriminate].
  - eapply Hexit; eauto.
Qed.

End ForLoopFacts.

(* ===================================================================== *)
(** ** What each entry of the series is made of *)
(* ===================================================================== *)

Lemma includes_In (a : list Z) (x : Z) : JS.includes a x = true <-> In x a.
Proof.
  unfold JS.includes. rewrite existsb_exists. split.
  - intros (y & Hy & Heq). apply Z.eqb_eq in Heq. now subst.
  - intros H. exists x. split; [assumption | apply Z.eqb_refl].
Qed.

Lemma includes_not_In (a : list Z) (x : Z) :
  JS.includes a x = false <-> ~ In x a.
Proof.
  rewrite <- includes_In. destruct (JS.includes a x); split; congruence.
Qed.

Lemma previous_preceding (totals : list BlockTotal) :
  previous totals = preceding totals (length totals).
Proof.
  unfold previous. destruct totals as [| t totals]; [reflexivity |].
  simpl length. simpl preceding. f_equal. lia.
Qed.

Lemma previous_push (totals : list BlockTotal) (e : BlockTotal) :
  previous (totals ++ [e]) = Some e.
Proof.
  rewrite previous_preceding, length_app. simpl length.
  replace (length totals + 1)%nat with (S (length totals)) by lia.
  simpl. rewrite lookup_app_r by lia. now rewrite Nat.sub_diag.
Qed.

Lemma preceding_push (totals : list BlockTotal) (e : BlockTotal) (i : nat) :
  (i <= length totals)%nat ->
  preceding (totals ++ [e]) i = preceding totals i.
Proof.
  destruct i as [| j]; [reflexivity |]. simpl. intros H.
  apply lookup_app_l. lia.
Qed.

Section RunFacts.

Variable client : Client.
Variable now : Z.

Lemma BigInt_inr (v : option Z) (z : Z) : BigInt v = inr z -> v = Some z.
Proof. unfold BigInt, ret, throw. destruct v; congruence. Qed.

(** A completed iteration pushes exactly one entry, for [blockHeight]. *)
Lemma loop_body_pushes (blockHeight : Z) (totals totals' : list BlockTotal) :
  loop_body client now blockHeight totals = inr totals' ->
  exists e, totals' = totals ++ [e]
            /\ block_height e = blockHeight
            /\ entry_follows client (previous totals) e.
Proof.
  unfold loop_body. intros H.
  destruct (JS.toISOString _) as [? | stamp]; [discriminate |].
  cbn [bind ret throw] in H.
  destruct (JS.includes (vestingBlockHeights client) blockHeight) eqn:Hv;
    destruct (JS.includes (lockTransferBlockHeights client) blockHeight
              || (blockHeight =? currentBlockHeight client)) eqn:Hq;
    cbn [bind ret throw] in H.
  - destruct (BigInt (STX_TOTAL_VESTED_BY_BLOCK_QUERY _ _ _)) as [? | v] eqn:Ev;
      [discriminate |].
    cbn [bind ret throw] in H.
    destruct (BigInt (STX_TOTAL_AT_BLOCK_QUERY _ _)) as [? | q] eqn:Eq;
      [discriminate |].
    cbn [bind ret throw] in H. injection H as <-. eexists. split; [reflexivity |].
    split; [reflexivity |].
    apply BigInt_inr in Ev, Eq.
    constructor; read_fields; rewrite ?Hv, ?Hq; try congruence.
  - destruct (BigInt (STX_TOTAL_VESTED_BY_BLOCK_QUERY _ _ _)) as [? | v] eqn:Ev;
      [discriminate |].
    cbn [bind ret throw] in H.
    destruct (previous totals) as [p |] eqn:Ep; [| discriminate].
    cbn [bind ret throw] in H. injection H as <-. eexists. split; [reflexivity |].
    split; [reflexivity |].
    apply BigInt_inr in Ev.
    constructor; read_fields; rewrite ?Hv, ?Hq; try congruence.
    intros _. now exists p.
  - destruct (BigInt (STX_TOTAL_AT_BLOCK_QUERY _ _)) as [? | q] eqn:Eq;
      [discriminate |].
    cbn [bind ret throw] in H. injection H as <-. eexists. split; [reflexivity |].
    split; [reflexivity |].
    apply BigInt_inr in Eq.
    constructor; read_fields; rewrite ?Hv, ?Hq; try congruence.
  - destruct (previous totals) as [p |] eqn:Ep; [| discriminate].
    cbn [bind ret throw] in H. injection H as <-. eexists. split; [reflexivity |].
    split; [reflexivity |].
    constructor; read_fields; rewrite ?Hv, ?Hq; try congruence.
    intros _. now exists p.
Qed.

Lemma loop_invariant_start : loop_invariant client (currentBlockHeight client) [].
Proof.
  split; [simpl; lia |]. intros i e H. destruct i; discriminate.
Qed.

Lemma loop_invariant_step (blockHeight : Z) (totals totals' : list BlockTotal) :
  loop_invariant client blockHeight totals ->
  loop_body client now blockHeight totals = inr totals' ->
  loop_invariant client (blockHeight + 1) totals'.
Proof.
  intros [Hbh Hok] Hbody.
  destruct (loop_body_pushes _ _ _ Hbody) as (e & -> & Heb & Hfol).
  split.
  - rewrite length_app. simpl. lia.
  - intros i x Hx.
    destruct (Nat.lt_ge_cases i (length totals)) as [Hlt | Hge].
    + rewrite lookup_app_l in Hx by assumption.
      rewrite preceding_push by lia. now apply Hok.
    + assert (i = length totals) as ->.
      { apply lookup_lt_Some in Hx. rewrite length_app in Hx.
        simpl in Hx. lia. }
      rewrite lookup_app_r, Nat.sub_diag in Hx by lia.
      injection Hx as <-.
      rewrite preceding_push by lia.
      rewrite <- previous_preceding. split; [lia | assumption].
Qed.

(** Every series the loop returns is well formed, and the loop stopped
    because the bound was reached. *)
Lemma accumulate_series (totals : list BlockTotal) :
  accumulate client now = inr totals ->
  series_ok client totals
  /\ JS.lt_number
       (currentBlockHeight client + Z.of_nat (length totals))
       (lastBlockHeight client) = false.
Proof.
  unfold accumulate.
  pose proof (for_loop_rule (lastBlockHeight client) (loop_body client now)
    (loop_invariant client)
    (fun r => forall totals, r = inr totals ->
       series_ok client totals
       /\ JS.lt_number
            (currentBlockHeight client + Z.of_nat (length totals))
            (lastBlockHeight client) = false)) as Hrule.
  intros H. eapply Hrule; eauto using loop_invariant_start.
  - intros bh t [Hbh Hok] Hlt t' [= <-]. split; [assumption |].
    now rewrite <- Hbh.
  - intros bh t e _ _ _ t' [=].
  - intros bh t t' HI _. now apply loop_invariant_step.
Qed.

End RunFacts.

(** The scenario, run. *)
Lemma client_connected :
  Ledger.connect Scenario.ledger = Some Scenario.client.
Proof. reflexivity. Qed.

Lemma legacy_client_connected :
  Legacy.connect Scenario.ledger = Some Scenario.legacy_client.
Proof. reflexivity. Qed.

Lemma accumulate_series_at_now :
  accumulate Scenario.client Scenario.now = inr Scenario.series.
Proof. vm_compute. reflexivity. Qed.

Lemma prune_series : prune Scenario.series = inr Scenario.pruned.
Proof. vm_compute. reflexivity. Qed.

(* ===================================================================== *)
(** ** Carry-forward and fresh queries in src/index.ts *)
(* ===================================================================== *)

(** C1. In the series the loop of src/index.ts returns, an entry whose
    block height is neither a vesting height nor a lock-transfer height nor
    the current (initial) height has an entry right before it, one block
    lower, and repeats its vested amount, its queried amount and its
    total. *)
Theorem carry_forward_total (client : Client) (now : Z)
    (totals : list BlockTotal) (i : nat) (e : BlockTotal) :
  accumulate client now = inr totals ->
  totals !! i = Some e ->
  ~ In (block_height e) (vestingBlockHeights client) ->
  ~ In (block_height e) (lockTransferBlockHeights client) ->
  block_height e <> currentBlockHeight client ->
  exists j prev,
    i = S j
    /\ totals !! j = Some prev
    /\ block_height e = block_height prev + 1
    /\ vested_micro_stx e = vested_micro_stx prev
    /\ queried_micro_stx e = queried_micro_stx prev
    /\ total_calculated e = total_calculated prev.
Proof.
  intros Hacc He Hvest Hlock Hcur.
  destruct (accumulate_series _ _ _ Hacc) as [Hok _].
  destruct (Hok _ _ He) as [Hheight Hfol].
  apply includes_not_In in Hvest, Hlock.
  apply Z.eqb_neq in Hcur.
  destruct (follows_queried_reuse _ _ _ Hfol) as (prev & Hprev & Hq).
  { rewrite Hlock, Hcur. reflexivity. }
  pose proof (follows_vested_reuse _ _ _ Hfol Hvest) as Hv.
  rewrite Hprev in Hv.
  destruct i as [| j]; [discriminate |]. simpl in Hprev.
  destruct (Hok _ _ Hprev) as [Hheight' Hfol'].
  exists j, prev. repeat split; try assumption.
  - lia.
  - rewrite (follows_total _ _ _ Hfol), (follows_total _ _ _ Hfol'). lia.
Qed.

Lemma carry_forward_total_witness :
  exists j prev,
    1%nat = S j
    /\ Scenario.series !! j = Some prev
    /\ block_height (Scenario.entry 101 500 0 "2020-09-13T12:36:40.000Z")
       = block_height prev + 1
    /\ vested_micro_stx (Scenario.entry 101 500 0 "2020-09-13T12:36:40.000Z")
       = vested_micro_stx prev
    /\ queried_micro_stx (Scenario.entry 101 500 0 "2020-09-13T12:36:40.000Z")
       = queried_micro_stx prev
    /\ total_calculated (Scenario.entry 101 500 0 "2020-09-13T12:36:40.000Z")
       = total_calculated prev.
Proof.
  apply (carry_forward_total Scenario.client Scenario.now).
  - vm_compute. reflexivity.
  - reflexivity.
  - vm_compute. intros [H | []]. discriminate H.
  - vm_compute. intros [H | [H | []]]; discriminate H.
  - vm_compute. discriminate.
Defined.

(** In src/index.ts the balance queried at a lock-transfer height, or at
    the first step, is the one the entry keeps. *)
Lemma fresh_query_kept (client : Client) (now : Z)
    (totals : list BlockTotal) (i : nat) (e : BlockTotal) :
  accumulate client now = inr totals ->
  totals !! i = Some e ->
  In (block_height e) (lockTransferBlockHeights client) \/ i = O ->
  STX_TOTAL_AT_BLOCK_QUERY client (block_height e)
  = Some (queried_micro_stx e).
Proof.
  intros Hacc He Hcase.
  destruct (accumulate_series _ _ _ Hacc) as [Hok _].
  destruct (Hok _ _ He) as [Hheight Hfol].
  apply (follows_queried_query _ _ _ Hfol).
  destruct Hcase as [Hin | ->].
  - apply includes_In in Hin. rewrite Hin. reflexivity.
  - replace (block_height e =? currentBlockHeight client) with true.
    + apply orb_true_r.
    + symmetry. apply Z.eqb_eq. lia.
Qed.

(** The only place where the body reads [totals[totals.length - 1]]
    unguarded is the reuse of the queried amount. *)
Lemma loop_body_previous_read (client : Client) (now : Z) (blockHeight : Z)
    (totals : list BlockTotal) :
  blockHeight = currentBlockHeight client \/ previous totals <> None ->
  loop_body client now blockHeight totals
  <> inl (TypeError_undefined PreviousEntry).
Proof.
  intros Hcase. unfold loop_body.
  destruct (JS.toISOString _) as [err | stamp] eqn:Et.
  { unfold JS.toISOString in Et.
    destruct (_ <? _); [| destruct (JS.civil_from_days _) as [[? ?] ?]];
      unfold throw, ret in Et; cbn [bind]; congruence. }
  cbn [bind].
  destruct (JS.includes (vestingBlockHeights client) blockHeight).
  - destruct (STX_TOTAL_VESTED_BY_BLOCK_QUERY _ _ _); cbn [BigInt bind throw ret];
      [| discriminate].
    destruct (JS.includes (lockTransferBlockHeights client) blockHeight
              || (blockHeight =? currentBlockHeight client)) eqn:Hq.
    + destruct (STX_TOTAL_AT_BLOCK_QUERY _ _); cbn [BigInt bind throw ret];
        discriminate.
    + destruct (previous totals); cbn [bind throw ret]; [discriminate |].
      destruct Hcase as [-> | Hp]; [| congruence].
      rewrite Z.eqb_refl, orb_true_r in Hq. discriminate.
  - cbn [bind ret].
    destruct (JS.includes (lockTransferBlockHeights client) blockHeight
              || (blockHeight =? currentBlockHeight client)) eqn:Hq.
    + destruct (STX_TOTAL_AT_BLOCK_QUERY _ _); cbn [BigInt bind throw ret];
        discriminate.
    + destruct (previous totals) eqn:Ep; cbn [bind throw ret]; [discriminate |].
      destruct Hcase as [-> | Hp]; [| congruence].
      rewrite Z.eqb_refl, orb_true_r in Hq. discriminate.
Qed.

(** C10. The first iteration runs at the current height, where the body
    never reads the previous entry unguarded and keeps the balance it
    queries; an iteration that completes leaves [totals] non-empty with its
    last element defined; on a non-empty [totals] the unguarded read finds
    an entry; so the loop as a whole never throws on
    [totals[totals.length - 1]] being undefined. *)
Theorem previous_entry_defined (client : Client) (now : Z) :
  (forall totals,
      loop_body client now (currentBlockHeight client) totals
      <> inl (TypeError_undefined PreviousEntry))
  /\ (forall totals totals',
         loop_body client now (currentBlockHeight client) totals = inr totals' ->
         exists e, totals' = totals ++ [e]
                   /\ STX_TOTAL_AT_BLOCK_QUERY client (currentBlockHeight client)
                      = Some (queried_micro_stx e))
  /\ (forall blockHeight totals totals',
         loop_body client now blockHeight totals = inr totals' ->
         totals' <> [] /\ exists p, previous totals' = Some p)
  /\ (forall blockHeight totals p,
         previous totals = Some p ->
         loop_body client now blockHeight totals
         <> inl (TypeError_undefined PreviousEntry))
  /\ accumulate client now <> inl (TypeError_undefined PreviousEntry).
Proof.
  split; [| split; [| split; [| split]]].
  - intros totals. apply loop_body_previous_read. now left.
  - intros totals totals' Hbody.
    destruct (loop_body_pushes _ _ _ _ _ Hbody) as (e & -> & He & Hfol).
    exists e. split; [reflexivity |]. rewrite <- He.
    apply (follows_queried_query _ _ _ Hfol).
    rewrite He, Z.eqb_refl. apply orb_true_r.
  - intros blockHeight totals totals' Hbody.
    destruct (loop_body_pushes _ _ _ _ _ Hbody) as (e & -> & _).
    split.
    + intros Hnil. now apply app_nil in Hnil as [_ Hnil].
    + exists e. apply previous_push.
  - intros blockHeight totals p Hp. apply loop_body_previous_read.
    right. congruence.
  - unfold accumulate.
    apply (for_loop_rule (lastBlockHeight client) (loop_body client now)
             (fun bh totals =>
                bh = currentBlockHeight client \/ previous totals <> None)
             (fun r => r <> inl (TypeError_undefined PreviousEntry))).
    + discriminate.
    + intros bh totals e HI _ Hbody [= ->].
      now apply (loop_body_previous_read client now bh totals HI).
    + intros bh totals totals' _ _ Hbody. right.
      destruct (loop_body_pushes _ _ _ _ _ Hbody) as (e & -> & _).
      rewrite previous_push. discriminate.
    + now left.
Qed.

(* ===================================================================== *)
(** ** The heights the loop visits *)
(* ===================================================================== *)

(** The loop of src/index.ts runs as many times as there are heights from
    the current one up to, not including, [lastBlockHeight]. *)
Lemma accumulate_length (client : Client) (now : Z) (totals : list BlockTotal) :
  accumulate client now = inr totals ->
  length totals = iterations_left (lastBlockHeight client)
                    (currentBlockHeight client).
Proof.
  unfold accumulate.
  apply (for_loop_rule (lastBlockHeight client) (loop_body client now)
           (fun bh t =>
              bh = currentBlockHeight client + Z.of_nat (length t)
              /\ (length t = O
                  \/ exists bound, lastBlockHeight client = Some bound
                                   /\ bh <= bound))
           (fun r => r = inr totals ->
              length totals = iterations_left (lastBlockHeight client)
                                (currentBlockHeight client))).
  - intros bh t [Hbh Hcase] Hlt [= <-].
    unfold iterations_left, JS.lt_number in *.
    destruct (lastBlockHeight client) as [bound |].
    + apply Z.ltb_ge in Hlt.
      destruct Hcase as [H0 | (b & [= <-] & Hle)]; lia.
    + destruct Hcase as [H0 | (b & Hb & _)]; [assumption | discriminate].
  - discriminate.
  - intros bh t t' [Hbh _] Hlt Hbody.
    destruct (loop_body_pushes _ _ _ _ _ Hbody) as (e & -> & _).
    rewrite length_app. simpl length. split; [lia |]. right.
    unfold JS.lt_number in Hlt.
    destruct (lastBlockHeight client) as [bound |]; [| discriminate].
    exists bound. apply Z.ltb_lt in Hlt. split; [reflexivity | lia].
  - split; [simpl; lia | now left].
Qed.

(** C5, as the code has it.  The entries of the returned series are the
    heights from the current one upwards, each one more than the one
    before; the loop bound, max(last lock-transfer height, last vesting
    height) + 5, is exclusive, so there are bound - current entries (none
    when a list of heights is empty) and the last height visited is
    max(...) + 4. *)
Theorem visited_heights (client : Client) (now : Z) (totals : list BlockTotal) :
  accumulate client now = inr totals ->
  (forall i e, totals !! i = Some e ->
               block_height e = currentBlockHeight client + Z.of_nat i)
  /\ (forall i a b, totals !! i = Some a -> totals !! (S i) = Some b ->
                    block_height b = block_height a + 1)
  /\ (forall lockLast vestLast,
         last (lockTransferBlockHeights client) = Some lockLast ->
         last (vestingBlockHeights client) = Some vestLast ->
         length totals
         = Z.to_nat (Z.max lockLast vestLast + 5 - currentBlockHeight client)
         /\ forall e, last totals = Some e ->
                      block_height e = Z.max lockLast vestLast + 4)
  /\ (last (lockTransferBlockHeights client) = None
      \/ last (vestingBlockHeights client) = None -> totals = []).
Proof.
  intros Hacc.
  destruct (accumulate_series _ _ _ Hacc) as [Hok _].
  pose proof (accumulate_length _ _ _ Hacc) as Hlen.
  unfold iterations_left, lastBlockHeight, JS.Math_max_plus, JS.last_element
    in Hlen.
  split; [| split; [| split]].
  - intros i e He. now apply Hok.
  - intros i a b Ha Hb. apply Hok in Ha as [Ha _]. apply Hok in Hb as [Hb _].
    lia.
  - intros lockLast vestLast Hlock Hvest. rewrite Hlock, Hvest in Hlen.
    split; [assumption |]. intros e He.
    rewrite last_lookup in He.
    pose proof (lookup_lt_Some _ _ _ He) as Hlt.
    apply Hok in He as [He _]. lia.
  - intros Hnone. apply length_zero_iff_nil. rewrite Hlen.
    destruct Hnone as [-> | Hv]; [reflexivity |]. rewrite Hv.
    now destruct (last (lockTransferBlockHeights client)).
Qed.

Lemma visited_heights_witness :
  (forall i e, Scenario.series !! i = Some e ->
               block_height e
               = currentBlockHeight Scenario.client + Z.of_nat i)
  /\ (forall i a b, Scenario.series !! i = Some a ->
                    Scenario.series !! (S i) = Some b ->
                    block_height b = block_height a + 1)
  /\ (forall lockLast vestLast,
         last (lockTransferBlockHeights Scenario.client) = Some lockLast ->
         last (vestingBlockHeights Scenario.client) = Some vestLast ->
         length Scenario.series
         = Z.to_nat (Z.max lockLast vestLast + 5
                     - currentBlockHeight Scenario.client)
         /\ forall e, last Scenario.series = Some e ->
                      block_height e = Z.max lockLast vestLast + 4)
  /\ (last (lockTransferBlockHeights Scenario.client) = None
      \/ last (vestingBlockHeights Scenario.client) = None ->
      Scenario.series = []).
Proof.
  apply (visited_heights Scenario.client Scenario.now).
  vm_compute. reflexivity.
Defined.

(** C5 as stated fails: on the scenario ledger the last lock-transfer
    height is 103 and the last vesting height is 105, and the last height
    visited is 109, not 110. *)
Lemma terminal_height_counterexample :
  accumulate Scenario.client Scenario.now = inr Scenario.series
  /\ last (lockTransferBlockHeights Scenario.client) = Some 103
  /\ last (vestingBlockHeights Scenario.client) = Some 105
  /\ block_height <$> last Scenario.series = Some 109
  /\ 109 <> Z.max 103 105 + 5.
Proof.
  repeat split; try (vm_compute; reflexivity). vm_compute. discriminate.
Qed.

(* ===================================================================== *)
(** ** The sanity checks *)
(* ===================================================================== *)

Lemma assert_inr (cond : bool) (message : string) :
  assert cond message = inr tt <-> cond = true.
Proof. unfold assert, ret, throw. destruct cond; split; congruence. Qed.

Lemma check_pair_inr (totals : list BlockTotal) (j : nat) :
  check_pair totals (S j) = inr tt <->
  exists a b, totals !! j = Some a /\ totals !! (S j) = Some b
              /\ block_height b = block_height a + 1
              /\ total_calculated a <= total_calculated b.
Proof.
  unfold check_pair, element. replace (S j - 1)%nat with j by lia.
  destruct (totals !! S j) as [b |]; cbn [bind ret throw].
  - destruct (totals !! j) as [a |]; cbn [bind ret throw].
    + destruct (block_height b =? block_height a + 1) eqn:Hh; cbn [assert bind ret throw].
      * rewrite assert_inr, Z.leb_le. apply Z.eqb_eq in Hh. split.
        -- intros Hle. now exists a, b.
        -- intros (a' & b' & [= <-] & [= <-] & _ & Hle). assumption.
      * apply Z.eqb_neq in Hh. split; [discriminate |].
        intros (a' & b' & [= <-] & [= <-] & Heq & _). contradiction.
    + split; [discriminate |]. intros (a' & b' & [=] & _).
  - split; [discriminate |]. intros (a' & b' & _ & [=] & _).
Qed.

Lemma check_pairs_inr (totals : list BlockTotal) (n i : nat) :
  check_pairs totals n i = inr tt <->
  forall k, (i <= k < i + n)%nat -> check_pair totals k = inr tt.
Proof.
  revert i. induction n as [| n IH]; intros i; simpl.
  - split; [intros _ k Hk; lia | reflexivity].
  - destruct (check_pair totals i) as [e | []] eqn:Hi; cbn [bind].
    + split; [discriminate |]. intros H.
      rewrite H in Hi by lia. discriminate.
    + rewrite IH. split.
      * intros H k Hk. destruct (Nat.eq_dec k i) as [-> | Hne];
          [assumption | apply H; lia].
      * intros H k Hk. apply H. lia.
Qed.

Lemma sanity_checks_valid (client : Client) (totals : list BlockTotal) :
  sanity_checks client totals = inr tt <->
  valid_series (currentBlockHeight client) totals.
Proof.
  unfold sanity_checks, valid_series, element.
  destruct (totals !! 0%nat) as [first |] eqn:Hfirst; cbn [bind ret throw].
  - destruct (block_height first =? currentBlockHeight client) eqn:Hh;
      cbn [assert bind ret throw].
    + apply Z.eqb_eq in Hh. rewrite check_pairs_inr. split.
      * intros H. split; [now exists first |].
        intros i a b Ha Hb.
        pose proof (lookup_lt_Some _ _ _ Hb) as Hlt.
        specialize (H (S i)). rewrite check_pair_inr in H.
        destruct H as (a' & b' & Ha' & Hb' & Hres); [lia |].
        congruence.
      * intros [_ H] k Hk. destruct k as [| j]; [lia |].
        apply check_pair_inr.
        destruct (lookup_lt_is_Some_2 totals j) as [a Ha]; [lia |].
        destruct (lookup_lt_is_Some_2 totals (S j)) as [b Hb]; [lia |].
        exists a, b. repeat split; try assumption; now apply (H j).
    + apply Z.eqb_neq in Hh. split; [discriminate |].
      intros [(f & [= <-] & Hf) _]. contradiction.
  - split; [discriminate |]. intros [(f & [=] & _) _].
Qed.

Example run_shrinking_ledger :
  exists client totals,
    Ledger.connect shrinking_ledger = Some client
    /\ accumulate client Scenario.now = inr totals
    /\ (total_calculated <$> totals !! 1%nat) = Some 1000
    /\ (total_calculated <$> totals !! 2%nat) = Some 600
    /\ run client Scenario.now
       = inl (AssertionError "total balance should always increase!").
Proof.
  eexists. eexists. split; [reflexivity |].
  split; [vm_compute; reflexivity |]. split; [reflexivity |].
  split; [reflexivity |]. vm_compute. reflexivity.
Qed.

(* ===================================================================== *)
(** ** Pruning *)
(* ===================================================================== *)

Lemma last_total_cons (r x : BlockTotal) (xs : list BlockTotal) :
  last_total r (x :: xs) = last_total x xs.
Proof.
  unfold last_total. rewrite last_cons. now destruct (last xs).
Qed.

Lemma last_total_same (r r' : BlockTotal) (xs : list BlockTotal) :
  total_calculated r = total_calculated r' ->
  last_total r xs = last_total r' xs.
Proof.
  unfold last_total. now destruct (last xs).
Qed.

Lemma forward_scan_from_push (r : BlockTotal) (xs : list BlockTotal)
    (a : BlockTotal) :
  forward_scan_from r (xs ++ [a]) =
  forward_scan_from r xs
  ++ (if total_calculated a =? last_total r xs then [] else [a]).
Proof.
  revert r. induction xs as [| x xs IH]; intros r.
  - simpl. unfold last_total. simpl.
    now destruct (total_calculated a =? total_calculated r).
  - simpl. rewrite last_total_cons.
    destruct (total_calculated x =? total_calculated r) eqn:Hx.
    + rewrite IH. apply Z.eqb_eq in Hx.
      now rewrite (last_total_same x r).
    + rewrite IH. reflexivity.
Qed.

Lemma forward_scan_push (xs : list BlockTotal) (p a : BlockTotal) :
  last xs = Some p ->
  forward_scan (xs ++ [a]) =
  forward_scan xs
  ++ (if total_calculated a =? total_calculated p then [] else [a]).
Proof.
  destruct xs as [| first rest]; [discriminate |]. intros Hp.
  simpl. rewrite forward_scan_from_push. f_equal. f_equal.
  unfold last_total. rewrite last_cons in Hp.
  destruct (last rest); injection Hp as <-; reflexivity.
Qed.

(** The backward loop, started at an index inside the array, has scanned
    the entries up to that index and left the others alone; it never reads
    outside the array. *)
Lemma prune_loop_scan (i : nat) (totals : list BlockTotal) :
  (i < length totals)%nat ->
  prune_loop i totals
  = inr (forward_scan (take (S i) totals) ++ drop (S i) totals).
Proof.
  revert totals. induction i as [| j IH]; intros totals Hlen.
  - destruct totals as [| a rest]; [simpl in Hlen; lia |].
    simpl. now rewrite drop_0.
  - destruct (lookup_lt_is_Some_2 totals (S j)) as [cur Hcur]; [lia |].
    destruct (lookup_lt_is_Some_2 totals j) as [prev Hprev]; [lia |].
    cbn [prune_loop]. unfold element. rewrite Hcur, Hprev. cbn [bind ret].
    assert (Hlast : last (take (S j) totals) = Some prev).
    { rewrite last_lookup, length_take, Nat.min_l by lia.
      replace (Init.Nat.pred (S j)) with j by lia.
      rewrite lookup_take_lt by lia. assumption. }
    rewrite (take_S_r totals (S j) cur Hcur).
    rewrite (forward_scan_push _ prev cur Hlast).
    destruct (total_calculated cur =? total_calculated prev).
    + unfold splice1. rewrite IH.
      * rewrite take_app_length' by (rewrite length_take; lia).
        rewrite drop_app_length' by (rewrite length_take; lia).
        now rewrite app_nil_r.
      * rewrite length_app, length_take, length_drop. lia.
    + rewrite IH by lia.
      rewrite (drop_S totals cur (S j) Hcur).
      now rewrite <- app_assoc.
Qed.

(** The pruning pass never throws, and leaves the forward scan. *)
Lemma prune_scan (totals : list BlockTotal) :
  prune totals = inr (forward_scan totals).
Proof.
  unfold prune. destruct totals as [| a rest] eqn:E; [reflexivity |].
  rewrite <- E. rewrite prune_loop_scan by (subst; simpl; lia).
  replace (S (length totals - 1)) with (length totals) by (subst; simpl; lia).
  now rewrite firstn_all, drop_all, app_nil_r.
Qed.

Lemma forward_scan_from_no_repeat (r : BlockTotal) (xs : list BlockTotal) :
  no_repeat (r :: forward_scan_from r xs).
Proof.
  revert r. induction xs as [| x xs IH]; intros r; [exact I |].
  cbn [forward_scan_from].
  destruct (total_calculated x =? total_calculated r) eqn:Hx.
  - apply IH.
  - apply Z.eqb_neq in Hx. split; [congruence | apply IH].
Qed.

Lemma no_repeat_lookup (totals : list BlockTotal) (i : nat) (a b : BlockTotal) :
  no_repeat totals ->
  totals !! i = Some a -> totals !! (S i) = Some b ->
  total_calculated a <> total_calculated b.
Proof.
  revert i. induction totals as [| x rest IH]; intros i Hno Ha Hb;
    [discriminate |].
  destruct rest as [| y rest']; [discriminate |].
  destruct Hno as [Hxy Hno].
  destruct i as [| i'].
  - injection Ha as <-. injection Hb as <-. assumption.
  - now apply (IH i').
Qed.

Lemma forward_scan_last_total (r : BlockTotal) (xs : list BlockTotal) :
  last_total r (forward_scan_from r xs) = last_total r xs.
Proof.
  revert r. induction xs as [| x xs IH]; intros r; [reflexivity |].
  cbn [forward_scan_from]. rewrite last_total_cons.
  destruct (total_calculated x =? total_calculated r) eqn:Hx.
  - rewrite IH. apply Z.eqb_eq in Hx. now apply last_total_same.
  - rewrite last_total_cons. apply IH.
Qed.

(** C8. On every sequence of entries the backward pass with in-place
    [splice] completes and leaves exactly what the forward scan retains. *)
Theorem prune_is_forward_scan (totals : list BlockTotal) :
  prune totals = inr (forward_scan totals).
Proof.
  destruct totals as [| first rest]; [reflexivity |].
  unfold prune. rewrite prune_loop_scan by (simpl; lia).
  replace (S (length (first :: rest) - 1)) with (length (first :: rest))
    by (simpl; lia).
  now rewrite firstn_all, drop_all, app_nil_r.
Qed.

(** C3, as the code has it.  Pruning always completes; no two neighbours
    of the result have the same total; the first entry stays first; the
    last entry stays exactly when its total differs from the total of the
    entry before it (otherwise the result is that of the sequence without
    it); and the last retained entry carries the last total of the
    sequence. *)
Theorem prune_retains (totals : list BlockTotal) :
  exists pruned,
    prune totals = inr pruned
    /\ (forall i a b, pruned !! i = Some a -> pruned !! (S i) = Some b ->
                      total_calculated a <> total_calculated b)
    /\ head pruned = head totals
    /\ total_calculated <$> last pruned = total_calculated <$> last totals
    /\ (forall front before lastEntry,
           totals = front ++ [before; lastEntry] ->
           prune totals
           = let* kept := prune (front ++ [before]) in
             ret (if total_calculated lastEntry =? total_calculated before
                  then kept
                  else kept ++ [lastEntry])).
Proof.
  exists (forward_scan totals). split; [apply prune_scan |].
  split; [| split; [| split]].
  - intros i a b. apply no_repeat_lookup.
    destruct totals as [| first rest]; [exact I |].
    apply forward_scan_from_no_repeat.
  - now destruct totals.
  - destruct totals as [| first rest]; [reflexivity |].
    cbn [forward_scan]. rewrite !last_cons.
    pose proof (forward_scan_last_total first rest) as H.
    unfold last_total in H.
    destruct (last (forward_scan_from first rest)), (last rest);
      simpl in *; congruence.
  - intros front before lastEntry ->.
    rewrite !prune_scan. cbn [bind ret].
    replace (front ++ [before; lastEntry])
      with ((front ++ [before]) ++ [lastEntry]) by now rewrite <- app_assoc.
    rewrite (forward_scan_push _ before) by apply last_snoc.
    destruct (total_calculated lastEntry =? total_calculated before);
      [now rewrite app_nil_r | reflexivity].
Qed.

(** C3 as stated fails: the series of the scenario ends with the entry of
    block 109, whose total is that of block 108, and the pruning removes
    it. *)
Lemma last_entry_pruned_counterexample :
  prune Scenario.series = inr Scenario.pruned
  /\ last Scenario.series
     = Some (Scenario.entry 109 1352464597500000 500000
               "2020-09-13T13:56:40.000Z")
  /\ ~ In (Scenario.entry 109 1352464597500000 500000
             "2020-09-13T13:56:40.000Z") Scenario.pruned.
Proof.
  split; [vm_compute; reflexivity |]. split; [reflexivity |].
  intros [H | [H | [H | []]]]; discriminate H.
Qed.

(* ===================================================================== *)
(** ** Decimal rendering *)
(* ===================================================================== *)

Section Strings.

Local Open Scope string_scope.
Local Open Scope nat_scope.

Lemma length_append (s1 s2 : string) :
  String.length (s1 ++ s2) = String.length s1 + String.length s2.
Proof. induction s1 as [| c s1 IH]; simpl; [reflexivity | now rewrite IH]. Qed.

Lemma substring_split (n : nat) (s : string) :
  n <= String.length s ->
  substring 0 n s ++ substring n (String.length s - n) s = s.
Proof.
  revert n. induction s as [| c s IH]; intros n Hn.
  - destruct n; [reflexivity | simpl in Hn; lia].
  - destruct n as [| n].
    + simpl. f_equal. specialize (IH 0 ltac:(lia)).
      rewrite Nat.sub_0_r in IH. destruct s; [reflexivity |].
      simpl in IH. exact IH.
    + simpl. f_equal. apply IH. simpl in Hn. lia.
Qed.

Lemma length_substring (n m : nat) (s : string) :
  n + m <= String.length s -> String.length (substring n m s) = m.
Proof.
  revert n m. induction s as [| c s IH]; intros n m H; simpl in H.
  - destruct n, m; try reflexivity; lia.
  - destruct n as [| n].
    + destruct m as [| m]; [reflexivity |]. simpl. f_equal. apply IH. lia.
    + simpl. apply IH. lia.
Qed.

Lemma length_repeat_fill (k : nat) (cur fill : string) :
  fill <> "" -> String.length (JS.repeat_fill k cur fill) = k.
Proof.
  intros Hfill. revert cur. induction k as [| k IH]; intros cur; [reflexivity |].
  simpl. destruct cur as [| c rest].
  - destruct fill as [| c rest]; [contradiction |]. simpl. now rewrite IH.
  - simpl. now rewrite IH.
Qed.

(** Filling with a one-character string gives that character only. *)
Lemma repeat_fill_single (k : nat) (c : ascii) (cur : string) (x : ascii) :
  (forall y, In y (list_ascii_of_string cur) -> y = c) ->
  In x (list_ascii_of_string (JS.repeat_fill k cur (String c ""))) -> x = c.
Proof.
  revert cur. induction k as [| k IH]; intros cur Hcur; [intros [] |].
  simpl. destruct cur as [| d rest]; simpl.
  - intros [<- | H]; [reflexivity |]. apply (IH "" ltac:(intros ? [])). exact H.
  - intros [<- | H]; [apply Hcur; now left |].
    apply (IH rest); [| exact H]. intros y Hy. apply Hcur. now right.
Qed.

Lemma padStart_length (s fill : string) (target : Z) :
  fill <> "" ->
  JS.length (JS.padStart s target fill) = Z.max target (JS.length s).
Proof.
  intros Hfill. unfold JS.padStart, JS.length.
  destruct (target <=? Z.of_nat (String.length s))%Z eqn:Hle.
  - apply Z.leb_le in Hle. lia.
  - apply Z.leb_gt in Hle.
    rewrite length_append, length_repeat_fill by assumption. lia.
Qed.

(** On a string of at least seven characters the two slices cut before
    the last six. *)
Lemma slices_split (padded : string) :
  6 < String.length padded ->
  JS.slice padded 0 (Some (-6)%Z) ++ JS.slice padded (-6) None = padded
  /\ String.length (JS.slice padded (-6) None) = 6.
Proof.
  intros Hlen. unfold JS.slice, JS.relative_index, JS.length.
  cbn [Z.ltb Z.compare].
  rewrite Z.min_l, !Z.max_l by lia.
  destruct (Z.of_nat (String.length padded) + -6 <=? 0)%Z eqn:H1;
    [apply Z.leb_le in H1; lia |].
  destruct (Z.of_nat (String.length padded)
            <=? Z.of_nat (String.length padded) + -6)%Z eqn:H2;
    [apply Z.leb_le in H2; lia |].
  replace (Z.to_nat (Z.of_nat (String.length padded) + -6 - 0))
    with (String.length padded - 6) by lia.
  replace (Z.to_nat (Z.of_nat (String.length padded) + -6))
    with (String.length padded - 6) by lia.
  replace (Z.to_nat (Z.of_nat (String.length padded)
                     - (Z.of_nat (String.length padded) + -6)))
    with (String.length padded - (String.length padded - 6)) by lia.
  split.
  - apply substring_split. lia.
  - rewrite length_substring; lia.
Qed.

End Strings.

(** C4, as the code has it.  [microStxToStx] pads its argument on the left
    with zeros up to seven characters and puts a point before the last six:
    1352464598000000 is rendered "1352464598.000000" and 500 is rendered
    "0.000500". *)
Theorem microStxToStx_rendering :
  (forall microStx : string,
      exists zeros stxInt stxFrac : string,
        JS.padStart microStx 7 "0" = (zeros ++ microStx)%string
        /\ (forall c, In c (list_ascii_of_string zeros) -> c = "0"%char)
        /\ JS.length (JS.padStart microStx 7 "0")
           = Z.max 7 (JS.length microStx)
        /\ Placeholder.microStxToStx microStx
           = (stxInt ++ "." ++ stxFrac)%string
        /\ (stxInt ++ stxFrac)%string = JS.padStart microStx 7 "0"
        /\ String.length stxFrac = 6%nat)
  /\ Placeholder.microStxToStx (JS.toString 1352464598000000)
     = "1352464598.000000"%string
  /\ Placeholder.microStxToStx (JS.toString 500) = "0.000500"%string.
Proof.
  split; [| split; reflexivity].
  intros microStx.
  assert (Hlen : JS.length (JS.padStart microStx 7 "0")
                 = Z.max 7 (JS.length microStx))
    by (apply padStart_length; discriminate).
  destruct (slices_split (JS.padStart microStx 7 "0")) as [Hsplit Hfrac].
  { unfold JS.length in Hlen. lia. }
  exists (if (7 <=? JS.length microStx)%Z then ""%string
          else JS.repeat_fill (Z.to_nat (7 - JS.length microStx)) "0" "0"),
    (JS.slice (JS.padStart microStx 7 "0") 0 (Some (-6))),
    (JS.slice (JS.padStart microStx 7 "0") (-6) None).
  repeat split; try assumption.
  - unfold JS.padStart. now destruct (7 <=? JS.length microStx)%Z.
  - intros c. destruct (7 <=? JS.length microStx)%Z; [intros [] |].
    apply repeat_fill_single. intros y [<- | []]. reflexivity.
Qed.

(** C4 as stated fails on its first example: the point goes six digits
    from the right of the sixteen digits of 1352464598000000. *)
Lemma rendering_example_counterexample :
  Placeholder.microStxToStx (JS.toString 1352464598000000)
  = "1352464598.000000"%string
  /\ "1352464598.000000"%string <> "1352464.598000"%string.
Proof. split; [reflexivity | discriminate]. Qed.

(** The rendering written out in the CSV loop of src/index.ts does not
    pad: a total below one STX loses its leading zeros. *)
Example csv_line_unpadded :
  csv_line (Scenario.entry 100 500 0 "2020-09-13T12:26:40.000Z")
  = ("100,500,.500,2020-09-13T12:26:40.000Z" ++ CRLF)%string
  /\ Placeholder.csv_line (Scenario.entry 100 500 0 "2020-09-13T12:26:40.000Z")
     = ("100,500,0.000500,2020-09-13T12:26:40.000Z" ++ CRLF)%string.
Proof. split; reflexivity. Qed.

(* ===================================================================== *)
(** ** The earlier program overwrites its fresh query *)
(* ===================================================================== *)

(** An iteration of the earlier loop that completes keeps, as queried
    amount, the initial supply at the initial height and the previous
    amount anywhere else, whatever the query at a lock-transfer height
    returned. *)
Lemma legacy_loop_body_pushes (client : Legacy.Client) (initStxSupply : Z)
    (blockHeight : Z) (totals totals' : list BlockTotal) :
  Legacy.loop_body client initStxSupply blockHeight totals = inr totals' ->
  exists e, totals' = totals ++ [e]
            /\ block_height e = blockHeight
            /\ (queried_micro_stx e = initStxSupply
                \/ exists p, previous totals = Some p
                             /\ queried_micro_stx e = queried_micro_stx p).
Proof.
  unfold Legacy.loop_body. intros H.
  destruct (if JS.includes _ _ then _ else _) as [? | q0]; [discriminate |].
  cbn [bind] in H.
  destruct (blockHeight =? Legacy.initBlockHeight client).
  - cbn [bind ret] in H. injection H as <-. eexists.
    split; [reflexivity |]. split; [reflexivity | now left].
  - destruct (previous totals) as [p |]; [| discriminate].
    cbn [bind ret] in H. injection H as <-. eexists.
    split; [reflexivity |]. split; [reflexivity |]. right. now exists p.
Qed.

(** In the earlier program every entry of the series, at a lock-transfer
    height or not, carries the supply of the initial query. *)
Lemma legacy_queried_constant (client : Legacy.Client)
    (totals : list BlockTotal) (i : nat) (e : BlockTotal) :
  Legacy.accumulate client = inr totals ->
  totals !! i = Some e ->
  snd (Legacy.STX_LATEST_TOTAL_TXS_QUERY client) = Some (queried_micro_stx e).
Proof.
  unfold Legacy.accumulate.
  destruct (snd (Legacy.STX_LATEST_TOTAL_TXS_QUERY client)) as [supply |];
    [| discriminate].
  cbn [BigInt bind ret]. intros Hloop. revert i e.
  revert Hloop.
  apply (for_loop_rule (Legacy.lastBlockHeight client)
           (Legacy.loop_body client supply)
           (fun _ t => forall i e, t !! i = Some e ->
                                   Some supply = Some (queried_micro_stx e))
           (fun r => r = inr totals ->
                     forall i e, totals !! i = Some e ->
                                 Some supply = Some (queried_micro_stx e))).
  - intros bh t Ht _ [= <-]. exact Ht.
  - discriminate.
  - intros bh t t' Ht _ Hbody i e He.
    destruct (legacy_loop_body_pushes _ _ _ _ _ Hbody) as (x & -> & _ & Hq).
    destruct (Nat.lt_ge_cases i (length t)) as [Hlt | Hge].
    + rewrite lookup_app_l in He by assumption. now apply (Ht i).
    + assert (i = length t) as ->.
      { apply lookup_lt_Some in He. rewrite length_app in He.
        simpl in He. lia. }
      rewrite lookup_app_r, Nat.sub_diag in He by lia. injection He as <-.
      destruct Hq as [-> | (p & Hp & ->)]; [reflexivity |].
      now apply (Ht (length t - 1)%nat).
  - intros i e He. destruct i; discriminate.
Qed.

(** C6 on the earlier program.  On the scenario ledger block 103 is a
    lock-transfer height, the query at 103 returns 1352464597500000, and
    the entry of block 103 keeps the 500 of block 100: the missing [else]
    lets the reuse branch overwrite the balance just queried.  The loop of
    src/index.ts, on the same ledger, keeps the queried balance. *)
Theorem legacy_fresh_query_overwritten :
  exists totals e,
    Legacy.accumulate Scenario.legacy_client = inr totals
    /\ totals !! 3%nat = Some e
    /\ block_height e = 103
    /\ In 103 (Legacy.lockTransferBlockHeights Scenario.legacy_client)
    /\ Legacy.STX_TOTAL_TXS_AT_BLOCK_QUERY Scenario.legacy_client 103
       = inr (Some 1352464597500000)
    /\ queried_micro_stx e = 500
    /\ (forall totals' e',
           accumulate Scenario.client Scenario.now = inr totals' ->
           totals' !! 3%nat = Some e' ->
           block_height e' = 103
           /\ STX_TOTAL_AT_BLOCK_QUERY Scenario.client 103
              = Some (queried_micro_stx e')
           /\ queried_micro_stx e' = 1352464597500000).
Proof.
  eexists. eexists. split; [vm_compute; reflexivity |].
  split; [reflexivity |]. split; [reflexivity |].
  split; [vm_compute; tauto |]. split; [vm_compute; reflexivity |].
  split; [reflexivity |].
  intros totals' e' Hacc He'.
  rewrite accumulate_series_at_now in Hacc. injection Hacc as <-.
  injection He' as <-. repeat split; vm_compute; reflexivity.
Qed.

(* ===================================================================== *)
(** ** What the CSV depends on *)
(* ===================================================================== *)


Section SameAnswers.

Variables client client' : Client.

Hypothesis same_height :
  STX_LATEST_BLOCK_HEIGHT_QUERY client = STX_LATEST_BLOCK_HEIGHT_QUERY client'.
Hypothesis same_vesting :
  STX_VESTED_BY_BLOCK_QUERY client = STX_VESTED_BY_BLOCK_QUERY client'.
Hypothesis same_lock_heights :
  LOCK_TRANSFER_BLOCK_IDS_QUERY client = LOCK_TRANSFER_BLOCK_IDS_QUERY client'.
Hypothesis same_total :
  forall height,
    STX_TOTAL_AT_BLOCK_QUERY client height
    = STX_TOTAL_AT_BLOCK_QUERY client' height.
Hypothesis same_vested :
  forall height floor,
    STX_TOTAL_VESTED_BY_BLOCK_QUERY client height floor
    = STX_TOTAL_VESTED_BY_BLOCK_QUERY client' height floor.





End SameAnswers.




(* ===================================================================== *)
(** ** The final supply assertion *)
(* ===================================================================== *)

(** After the sanity checks the pruned series has a last entry, so the
    final supply is read off an entry that exists. *)
Lemma finalSupply_of_last (client : Client) (totals pruned : list BlockTotal) :
  sanity_checks client totals = inr tt ->
  prune totals = inr pruned ->
  exists lastEntry,
    last pruned = Some lastEntry
    /\ finalSupply pruned
       = inr (JS.replace_groups
                (JS.slice (JS.toString (total_calculated lastEntry)) 0
                   (Some (-6)))).
Proof.
  intros Hsane Hprune.
  apply sanity_checks_valid in Hsane as [(first & Hfirst & _) _].
  rewrite prune_scan in Hprune. injection Hprune as <-.
  destruct totals as [| t rest]; [discriminate |].
  unfold finalSupply, element. rewrite last_lookup.
  replace (length (forward_scan (t :: rest)) - 1)%nat
    with (Init.Nat.pred (length (forward_scan (t :: rest)))) by lia.
  destruct (forward_scan (t :: rest) !! _) as [lastEntry |] eqn:Hl.
  - exists lastEntry. split; reflexivity.
  - apply lookup_ge_None in Hl. simpl in Hl. lia.
Qed.

(** C9.  [run] of src/index.ts completes only when the last retained
    total, cut to whole STX and grouped by thousands, reads
    "1,352,464,598", and then writes the pruned series; once the loop, the
    sanity checks and the pruning have passed, any other reading ends the
    run with the assertion error, and no file is written.  The same holds
    for the supply part of the placeholder program, whose run may also end
    on its other assertion. *)
Theorem final_supply_gate (client : Client) (now : Z) :
  (forall csv,
      run client now = inr csv ->
      exists totals pruned lastEntry,
        accumulate client now = inr totals
        /\ prune totals = inr pruned
        /\ last pruned = Some lastEntry
        /\ JS.replace_groups
             (JS.slice (JS.toString (total_calculated lastEntry)) 0 (Some (-6)))
           = expected_supply
        /\ csv = write_csv pruned)
  /\ (forall totals pruned lastEntry,
         accumulate client now = inr totals ->
         sanity_checks client totals = inr tt ->
         prune totals = inr pruned ->
         last pruned = Some lastEntry ->
         JS.replace_groups
           (JS.slice (JS.toString (total_calculated lastEntry)) 0 (Some (-6)))
         <> expected_supply ->
         run client now
         = inl (AssertionError "incorrect final unlocked balance"))
  /\ (forall balance csv,
         Placeholder.run_supply client now balance = inr csv ->
         exists totals pruned lastEntry,
           accumulate client now = inr totals
           /\ prune totals = inr pruned
           /\ last pruned = Some lastEntry
           /\ Placeholder.microStxToReadable
                (JS.toString (total_calculated lastEntry))
              = expected_supply)
  /\ (forall balance totals pruned lastEntry,
         accumulate client now = inr totals ->
         sanity_checks client totals = inr tt ->
         prune totals = inr pruned ->
         last pruned = Some lastEntry ->
         Placeholder.microStxToReadable
           (JS.toString (total_calculated lastEntry))
         <> expected_supply ->
         exists message,
           Placeholder.run_supply client now balance
           = inl (AssertionError message)).
Proof.
  split; [| split; [| split]].
  - intros csv. unfold run.
    destruct (accumulate client now) as [? | totals]; [discriminate |].
    cbn [bind].
    destruct (sanity_checks client totals) as [? | []] eqn:Hsane;
      [discriminate |].
    cbn [bind].
    destruct (prune totals) as [? | pruned] eqn:Hprune; [discriminate |].
    cbn [bind].
    destruct (finalSupply_of_last _ _ _ Hsane Hprune) as (lastEntry & Hlast & ->).
    cbn [bind]. unfold assert_strictEqual, assert.
    destruct (String.eqb _ _) eqn:Heq; [| discriminate].
    cbn [bind ret]. intros [= <-]. apply String.eqb_eq in Heq.
    now exists totals, pruned, lastEntry.
  - intros totals pruned lastEntry Hacc Hsane Hprune Hlast Hne.
    unfold run. rewrite Hacc. cbn [bind]. rewrite Hsane. cbn [bind].
    rewrite Hprune. cbn [bind].
    destruct (finalSupply_of_last _ _ _ Hsane Hprune) as (l & Hl & ->).
    assert (l = lastEntry) as -> by congruence.
    cbn [bind]. unfold assert_strictEqual, assert.
    apply String.eqb_neq in Hne. unfold expected_supply in Hne.
    now rewrite Hne.
  - intros balance csv. unfold Placeholder.run_supply.
    destruct (accumulate client now) as [? | totals]; [discriminate |].
    cbn [bind].
    destruct (sanity_checks client totals) as [? | []] eqn:Hsane;
      [discriminate |].
    cbn [bind].
    destruct (prune totals) as [? | pruned] eqn:Hprune; [discriminate |].
    cbn [bind].
    destruct (finalSupply_of_last _ _ _ Hsane Hprune) as (lastEntry & Hlast & _).
    unfold Placeholder.final_checks, element.
    destruct (assert_strictEqual _ "4,392,964" _); [discriminate |].
    cbn [bind].
    rewrite last_lookup in Hlast.
    replace (length pruned - 1)%nat with (Init.Nat.pred (length pruned)) by lia.
    rewrite Hlast. cbn [bind ret]. unfold assert_strictEqual, assert.
    destruct (String.eqb _ _) eqn:Heq; [| discriminate].
    intros _. apply String.eqb_eq in Heq.
    exists totals, pruned, lastEntry. rewrite last_lookup. now repeat split.
  - intros balance totals pruned lastEntry Hacc Hsane Hprune Hlast Hne.
    unfold Placeholder.run_supply. rewrite Hacc. cbn [bind].
    rewrite Hsane. cbn [bind]. rewrite Hprune. cbn [bind].
    unfold Placeholder.final_checks, element, assert_strictEqual, assert.
    destruct (String.eqb _ "4,392,964"); [| now eexists].
    cbn [bind ret].
    rewrite last_lookup in Hlast.
    replace (length pruned - 1)%nat with (Init.Nat.pred (length pruned)) by lia.
    rewrite Hlast. cbn [bind ret].
    apply String.eqb_neq in Hne. unfold expected_supply in Hne.
    rewrite Hne. now eexists.
Qed.

(** The assertion at work: the scenario ledger passes, the ledger that is one
    micro-STX short of 1352464598 STX does not. *)
Example final_supply_short :
  finalSupply Scenario.pruned = inr expected_supply
  /\ (exists csv, run Scenario.client Scenario.now = inr csv)
  /\ run Scenario.short_client Scenario.now
     = inl (AssertionError "incorrect final unlocked balance").
Proof.
  split; [vm_compute; reflexivity |].
  split; [eexists; vm_compute; reflexivity | vm_compute; reflexivity].
Qed.

(* ===================================================================== *)
(** ** What the sanity checks decide *)
(* ===================================================================== *)





(* ===================================================================== *)
(** ** How a run can end *)
(* ===================================================================== *)

(** The exceptions of one iteration of the loop of src/index.ts. *)
Lemma loop_body_throws (client : Client) (now : Z) (blockHeight : Z)
    (totals : list BlockTotal) (e : error) :
  loop_body client now blockHeight totals = inl e ->
  e = RangeError_invalid_time \/ e = TypeError_BigInt_null
  \/ e = TypeError_undefined PreviousEntry.
Proof.
  unfold loop_body.
  destruct (JS.toISOString _) as [err | stamp] eqn:Et.
  { unfold JS.toISOString in Et.
    destruct (_ <? _); [| destruct (JS.civil_from_days _) as [[? ?] ?]];
      unfold throw, ret in Et; cbn [bind]; [| discriminate].
    intros [= <-]. left. congruence. }
  cbn [bind].
  destruct (JS.includes (vestingBlockHeights client) blockHeight).
  - destruct (STX_TOTAL_VESTED_BY_BLOCK_QUERY _ _ _); cbn [BigInt bind throw ret];
      [| intros [= <-]; tauto].
    destruct (_ || _).
    + destruct (STX_TOTAL_AT_BLOCK_QUERY _ _); cbn [BigInt bind throw ret];
        [discriminate | intros [= <-]; tauto].
    + destruct (previous totals); cbn [bind throw ret];
        [discriminate | intros [= <-]; tauto].
  - cbn [bind ret]. destruct (_ || _).
    + destruct (STX_TOTAL_AT_BLOCK_QUERY _ _); cbn [BigInt bind throw ret];
        [discriminate | intros [= <-]; tauto].
    + destruct (previous totals); cbn [bind throw ret];
        [discriminate | intros [= <-]; tauto].
Qed.

(** The loop of src/index.ts ends normally, on an empty aggregate or on a
    time stamp out of range, and in no other way. *)
Lemma accumulate_throws (client : Client) (now : Z) (e : error) :
  accumulate client now = inl e ->
  e = RangeError_invalid_time \/ e = TypeError_BigInt_null.
Proof.
  unfold accumulate.
  apply (for_loop_rule (lastBlockHeight client) (loop_body client now)
           (fun bh totals =>
              bh = currentBlockHeight client \/ previous totals <> None)
           (fun r => r = inl e ->
                     e = RangeError_invalid_time \/ e = TypeError_BigInt_null)).
  - discriminate.
  - intros bh totals e' HI _ Hbody [= ->].
    destruct (loop_body_throws _ _ _ _ _ Hbody) as [-> | [-> | ->]];
      [now left | now right |].
    now apply loop_body_previous_read in Hbody.
  - intros bh totals totals' _ _ Hbody. right.
    destruct (loop_body_pushes _ _ _ _ _ Hbody) as (x & -> & _).
    rewrite previous_push. discriminate.
  - now left.
Qed.

(** The sanity loop from index [i] on a series whose heights are
    consecutive: it passes, or it stops at the first pair whose total goes
    down. *)
Lemma check_pairs_consecutive (totals : list BlockTotal) (n i : nat) :
  (forall j a b, totals !! j = Some a -> totals !! (S j) = Some b ->
                 block_height b = block_height a + 1) ->
  (1 <= i)%nat -> (i + n = length totals)%nat ->
  check_pairs totals n i = inr tt
  \/ (check_pairs totals n i
      = inl (AssertionError "total balance should always increase!")
      /\ exists j a b, totals !! j = Some a /\ totals !! (S j) = Some b
                       /\ total_calculated b < total_calculated a).
Proof.
  intros Hheights. revert i. induction n as [| n IH]; intros i Hi Hlen;
    [now left |].
  cbn [check_pairs]. unfold check_pair, element.
  destruct i as [| j]; [lia |]. replace (S j - 1)%nat with j by lia.
  destruct (lookup_lt_is_Some_2 totals (S j)) as [b Hb]; [lia |].
  destruct (lookup_lt_is_Some_2 totals j) as [a Ha]; [lia |].
  rewrite Hb, Ha. cbn [bind ret].
  rewrite (Hheights _ _ _ Ha Hb), Z.eqb_refl. cbn [assert bind ret].
  destruct (total_calculated a <=? total_calculated b) eqn:Hle;
    cbn [assert bind ret throw].
  - apply IH; lia.
  - right. split; [reflexivity |]. apply Z.leb_gt in Hle. now exists j, a, b.
Qed.

Lemma sanity_checks_outcome (client : Client) (now : Z)
    (totals : list BlockTotal) :
  accumulate client now = inr totals ->
  sanity_checks client totals = inr tt
  \/ (totals = []
      /\ sanity_checks client totals = inl (TypeError_undefined FirstEntry))
  \/ (sanity_checks client totals
      = inl (AssertionError "total balance should always increase!")
      /\ exists j a b, totals !! j = Some a /\ totals !! (S j) = Some b
                       /\ total_calculated b < total_calculated a).
Proof.
  intros Hacc. destruct (accumulate_series _ _ _ Hacc) as [Hok _].
  assert (Hat : forall i e, totals !! i = Some e ->
                  block_height e = currentBlockHeight client + Z.of_nat i)
    by (intros i e He; now apply Hok).
  assert (Hnext : forall i a b, totals !! i = Some a ->
                    totals !! (S i) = Some b ->
                    block_height b = block_height a + 1).
  { intros i a b Ha Hb. apply Hat in Ha. apply Hat in Hb. lia. }
  destruct totals as [| first rest] eqn:E; [right; left; now split |].
  rewrite <- E in *. unfold sanity_checks, element.
  assert (Hfirst : totals !! 0%nat = Some first) by now subst.
  rewrite Hfirst. cbn [bind ret].
  rewrite (Hat _ _ Hfirst), Z.add_0_r, Z.eqb_refl. cbn [assert bind ret].
  destruct (check_pairs_consecutive totals (length totals - 1) 1 Hnext)
    as [Hpass | Hbad]; [lia | subst; simpl; lia | now left | right; now right].
Qed.

(** X1.  On the series the loop of src/index.ts produced, the assertions on
    the block heights never fail: the checks pass, or the series is empty
    and reading its first entry throws, or some total is lower than the one
    before it. *)
Theorem sanity_checks_on_accumulated (client : Client) (now : Z)
    (totals : list BlockTotal) :
  accumulate client now = inr totals ->
  sanity_checks client totals = inr tt
  \/ (totals = []
      /\ sanity_checks client totals = inl (TypeError_undefined FirstEntry))
  \/ (sanity_checks client totals
      = inl (AssertionError "total balance should always increase!")
      /\ exists j a b, totals !! j = Some a /\ totals !! (S j) = Some b
                       /\ total_calculated b < total_calculated a).
Proof. exact (sanity_checks_outcome client now totals). Qed.

Lemma sanity_checks_on_accumulated_witness :
  sanity_checks Scenario.client Scenario.series = inr tt
  \/ (Scenario.series = []
      /\ sanity_checks Scenario.client Scenario.series
         = inl (TypeError_undefined FirstEntry))
  \/ (sanity_checks Scenario.client Scenario.series
      = inl (AssertionError "total balance should always increase!")
      /\ exists j a b, Scenario.series !! j = Some a
                       /\ Scenario.series !! (S j) = Some b
                       /\ total_calculated b < total_calculated a).
Proof.
  apply (sanity_checks_on_accumulated Scenario.client Scenario.now).
  vm_compute. reflexivity.
Defined.

(** X2.  [run] of src/index.ts ends in one of five exceptions and no other:
    an empty aggregate, a time stamp out of range, an empty series, a total
    that goes down, or a final supply other than the expected one. The reads
    of [totals] in the loop, in the sanity loop, in the pruning and for the
    final supply never find [undefined], and the two assertions on block
    heights never fail. *)
Theorem run_throws (client : Client) (now : Z) (e : error) :
  run client now = inl e ->
  e = TypeError_BigInt_null
  \/ e = RangeError_invalid_time
  \/ e = TypeError_undefined FirstEntry
  \/ e = AssertionError "total balance should always increase!"
  \/ e = AssertionError "incorrect final unlocked balance".
Proof.
  unfold run.
  destruct (accumulate client now) as [e' | totals] eqn:Hacc.
  { cbn [bind]. intros [= <-].
    destruct (accumulate_throws _ _ _ Hacc) as [-> | ->]; tauto. }
  cbn [bind].
  destruct (sanity_checks_outcome _ _ _ Hacc)
    as [Hsane | [[_ Hsane] | [Hsane _]]]; rewrite Hsane; cbn [bind];
    try (intros [= <-]; tauto).
  rewrite prune_scan. cbn [bind].
  destruct (finalSupply_of_last _ _ _ Hsane (prune_scan totals))
    as (lastEntry & _ & ->).
  cbn [bind]. unfold assert_strictEqual, assert.
  destruct (String.eqb _ _); cbn [bind ret throw];
    [discriminate | intros [= <-]; tauto].
Qed.

Lemma run_throws_witness :
  AssertionError "incorrect final unlocked balance" = TypeError_BigInt_null
  \/ AssertionError "incorrect final unlocked balance"
     = RangeError_invalid_time
  \/ AssertionError "incorrect final unlocked balance"
     = TypeError_undefined FirstEntry
  \/ AssertionError "incorrect final unlocked balance"
     = AssertionError "total balance should always increase!"
  \/ AssertionError "incorrect final unlocked balance"
     = AssertionError "incorrect final unlocked balance".
Proof.
  apply (run_throws Scenario.short_client Scenario.now).
  vm_compute. reflexivity.
Defined.

(** X3.  With no lock-transfer height, with no vesting height, or with the
    current height at or past max(last lock-transfer height, last vesting
    height) + 5, the loop does not run and [run] of src/index.ts throws on
    reading [totals[0]]. *)
Theorem run_without_iteration (client : Client) (now : Z) :
  lockTransferBlockHeights client = []
  \/ vestingBlockHeights client = []
  \/ (exists lockLast vestLast,
         last (lockTransferBlockHeights client) = Some lockLast
         /\ last (vestingBlockHeights client) = Some vestLast
         /\ Z.max lockLast vestLast + 5 <= currentBlockHeight client) ->
  accumulate client now = inr []
  /\ run client now = inl (TypeError_undefined FirstEntry).
Proof.
  intros Hcase.
  assert (Hacc : accumulate client now = inr []).
  { unfold accumulate. rewrite for_loop_turn.
    replace (JS.lt_number (currentBlockHeight client) (lastBlockHeight client))
      with false; [reflexivity |].
    unfold lastBlockHeight, JS.Math_max_plus, JS.last_element, JS.lt_number.
    destruct Hcase as [-> | [-> | (l & v & -> & -> & Hle)]].
    - reflexivity.
    - now destruct (last (lockTransferBlockHeights client)).
    - symmetry. apply Z.ltb_ge. lia. }
  split; [assumption |]. unfold run. rewrite Hacc. reflexivity.
Qed.

Lemma run_without_iteration_witness :
  accumulate (mkClient 100 [] [100] (fun _ => Some 500) (fun _ _ => None))
    Scenario.now = inr []
  /\ run (mkClient 100 [] [100] (fun _ => Some 500) (fun _ _ => None))
       Scenario.now = inl (TypeError_undefined FirstEntry).
Proof.
  apply run_without_iteration. right. left. reflexivity.
Defined.

(* ===================================================================== *)
(** ** More on pruning *)
(* ===================================================================== *)

Lemma forward_scan_from_fixed (r : BlockTotal) (xs : list BlockTotal) :
  no_repeat (r :: xs) -> forward_scan_from r xs = xs.
Proof.
  revert r. induction xs as [| x xs IH]; intros r Hno; [reflexivity |].
  destruct Hno as [Hrx Hno]. cbn [forward_scan_from].
  destruct (total_calculated x =? total_calculated r) eqn:Hx.
  - apply Z.eqb_eq in Hx. congruence.
  - f_equal. now apply IH.
Qed.

Lemma forward_scan_from_sublist (r : BlockTotal) (xs : list BlockTotal) :
  forward_scan_from r xs `sublist_of` xs.
Proof.
  revert r. induction xs as [| x xs IH]; intros r; [constructor |].
  cbn [forward_scan_from].
  destruct (total_calculated x =? total_calculated r).
  - apply sublist_cons, IH.
  - apply sublist_skip, IH.
Qed.

(** X4.  Pruning takes entries out and changes nothing else, and pruning
    what is already pruned changes nothing at all. *)
Theorem prune_idempotent (totals : list BlockTotal) :
  exists pruned,
    prune totals = inr pruned
    /\ pruned `sublist_of` totals
    /\ prune pruned = inr pruned.
Proof.
  exists (forward_scan totals). split; [apply prune_scan |]. split.
  - destruct totals as [| first rest]; [constructor |].
    apply sublist_skip, forward_scan_from_sublist.
  - rewrite prune_scan. f_equal.
    destruct totals as [| first rest]; [reflexivity |].
    cbn [forward_scan]. f_equal.
    apply forward_scan_from_fixed, forward_scan_from_no_repeat.
Qed.

Lemma rising_of_valid (start : Z) (totals : list BlockTotal) :
  valid_series start totals -> rising totals.
Proof.
  intros [_ Hpairs]. induction totals as [| a rest IH]; [exact I |].
  destruct rest as [| b rest']; [exact I |].
  destruct (Hpairs 0%nat a b eq_refl eq_refl) as [Hh Ht].
  split; [lia |]. split; [assumption |].
  apply IH. intros i x y Hx Hy. now apply (Hpairs (S i)).
Qed.

Lemma rising_skip (r x : BlockTotal) (xs : list BlockTotal) :
  rising (r :: x :: xs) ->
  total_calculated x = total_calculated r ->
  rising (r :: xs).
Proof.
  intros (Hh & Ht & Hrest) Heq. destruct xs as [| y ys]; [exact I |].
  destruct Hrest as (Hh' & Ht' & Hrest'). repeat split; try assumption; lia.
Qed.

Lemma forward_scan_from_strictly_rising (r : BlockTotal) (xs : list BlockTotal) :
  rising (r :: xs) -> strictly_rising (r :: forward_scan_from r xs).
Proof.
  revert r. induction xs as [| x xs IH]; intros r Hr; [exact I |].
  cbn [forward_scan_from].
  destruct (total_calculated x =? total_calculated r) eqn:Hx.
  - apply Z.eqb_eq in Hx. apply IH. now apply (rising_skip r x).
  - apply Z.eqb_neq in Hx. destruct Hr as (Hh & Ht & Hrest).
    split; [assumption |]. split; [lia |]. now apply IH.
Qed.

Lemma strictly_rising_lookup (totals : list BlockTotal) (i : nat)
    (a b : BlockTotal) :
  strictly_rising totals ->
  totals !! i = Some a -> totals !! (S i) = Some b ->
  block_height a < block_height b /\ total_calculated a < total_calculated b.
Proof.
  revert i. induction totals as [| x rest IH]; intros i Hs Ha Hb;
    [discriminate |].
  destruct rest as [| y rest']; [discriminate |].
  destruct Hs as (Hh & Ht & Hs).
  destruct i as [| i'].
  - injection Ha as <-. injection Hb as <-. now split.
  - now apply (IH i').
Qed.

(** X5.  A series that passes the sanity checks comes out of the pruning
    with block heights and totals that both go up from each retained entry
    to the next. *)
Theorem prune_strictly_rising (client : Client) (totals pruned : list BlockTotal)
    (i : nat) (a b : BlockTotal) :
  sanity_checks client totals = inr tt ->
  prune totals = inr pruned ->
  pruned !! i = Some a -> pruned !! (S i) = Some b ->
  block_height a < block_height b /\ total_calculated a < total_calculated b.
Proof.
  intros Hsane Hprune. apply sanity_checks_valid, rising_of_valid in Hsane.
  rewrite prune_scan in Hprune. injection Hprune as <-.
  apply strictly_rising_lookup.
  destruct totals as [| first rest]; [exact I |].
  now apply forward_scan_from_strictly_rising.
Qed.

Lemma prune_strictly_rising_witness :
  block_height (Scenario.entry 103 1352464597500000 0
                  "2020-09-13T12:56:40.000Z")
  < block_height (Scenario.entry 105 1352464597500000 500000
                    "2020-09-13T13:16:40.000Z")
  /\ total_calculated (Scenario.entry 103 1352464597500000 0
                         "2020-09-13T12:56:40.000Z")
     < total_calculated (Scenario.entry 105 1352464597500000 500000
                           "2020-09-13T13:16:40.000Z").
Proof.
  apply (prune_strictly_rising Scenario.client Scenario.series
           Scenario.pruned 1);
    [vm_compute; reflexivity | vm_compute; reflexivity
    | reflexivity | reflexivity].
Defined.

(* ===================================================================== *)
(** ** Decimal strings *)
(* ===================================================================== *)

Lemma ten_cases (r : Z) :
  0 <= r < 10 ->
  r = 0 \/ r = 1 \/ r = 2 \/ r = 3 \/ r = 4 \/ r = 5 \/ r = 6 \/ r = 7
  \/ r = 8 \/ r = 9.
Proof. lia. Qed.

Ltac ten r H :=
  destruct (ten_cases r H) as [-> | [-> | [-> | [-> | [-> | [-> | [-> | [->
    | [-> | ->]]]]]]]]].

Section Decimals.

Local Open Scope string_scope.
Local Open Scope Z_scope.

Lemma append_assoc (a b c : string) : (a ++ b) ++ c = a ++ (b ++ c).
Proof. induction a as [| x a IH]; simpl; [reflexivity | now rewrite IH]. Qed.

Lemma append_empty_r (a : string) : a ++ "" = a.
Proof. induction a as [| x a IH]; simpl; [reflexivity | now rewrite IH]. Qed.

Lemma string_of_revapp (x y : Decimal.uint) :
  NilEmpty.string_of_uint (Decimal.revapp x y)
  = NilEmpty.string_of_uint (Decimal.rev x) ++ NilEmpty.string_of_uint y.
Proof.
  revert y. induction x; intros y; [reflexivity | ..];
    unfold Decimal.rev; cbn [Decimal.revapp]; rewrite IHx; symmetry;
    rewrite IHx; rewrite append_assoc; reflexivity.
Qed.

Lemma string_of_app (a b : Decimal.uint) :
  NilEmpty.string_of_uint (Decimal.app a b)
  = NilEmpty.string_of_uint a ++ NilEmpty.string_of_uint b.
Proof.
  unfold Decimal.app. rewrite string_of_revapp, DecimalFacts.rev_rev.
  reflexivity.
Qed.

Lemma to_uint_step (a r : N) :
  (0 < a)%N -> (r < 10)%N ->
  N.to_uint (10 * a + r) = Decimal.app (N.to_uint a) (digit_uint r).
Proof.
  intros Ha Hr.
  assert (Hof : N.of_uint (Decimal.app (N.to_uint a) (digit_uint r))
                = (10 * a + r)%N).
  { unfold N.of_uint. rewrite DecimalPos.Unsigned.of_uint_alt.
    assert (Hrev : Decimal.rev (Decimal.app (N.to_uint a) (digit_uint r))
                   = Decimal.revapp (digit_uint r) (Decimal.rev (N.to_uint a))).
    { apply DecimalFacts.to_list_inj.
      rewrite DecimalFacts.rev_spec, DecimalFacts.app_spec,
        DecimalFacts.revapp_spec, DecimalFacts.rev_spec, List.rev_app_distr.
      symmetry. apply List.rev_append_rev. }
    rewrite Hrev.
    pose proof (DecimalN.Unsigned.of_to a) as Ha'.
    unfold N.of_uint in Ha'. rewrite DecimalPos.Unsigned.of_uint_alt in Ha'.
    assert (Hz : 0 <= Z.of_N r < 10) by lia.
    assert (Hr' : r = Z.to_N (Z.of_N r)) by lia. rewrite Hr'.
    ten (Z.of_N r) Hz;
      cbn [Z.to_N digit_uint Decimal.revapp DecimalPos.Unsigned.of_lu];
      rewrite Ha'; lia. }
  rewrite <- Hof at 1. rewrite DecimalN.Unsigned.to_of.
  rewrite DecimalFacts.unorm_app_l.
  - f_equal.
    rewrite <- (DecimalN.Unsigned.to_of (N.to_uint a)), DecimalN.Unsigned.of_to.
    reflexivity.
  - rewrite <- DecimalN.Unsigned.to_of, Hof.
    pose proof (DecimalN.Unsigned.of_to (10 * a + r)) as Hn.
    assert (Hten : (10 <= 10 * a + r)%N) by lia.
    generalize dependent (10 * a + r)%N. intros m _ Hn Hten.
    assert (Decimal.nb_digits (digit_uint r) = 1%nat) as ->.
    { destruct r as [| p]; [reflexivity |].
      do 4 (destruct p as [p | p |]; try reflexivity). }
    remember (N.to_uint m) as u eqn:Hu. clear Hu.
    destruct u as [| d | d | d | d | d | d | d | d | d | d];
      try (destruct d; [| simpl; lia ..]);
      vm_compute in Hn; lia.
Qed.

Lemma toString_digit (r : Z) : 0 <= r < 10 -> JS.toString r = digit_char r.
Proof. intros Hr. ten r Hr; reflexivity. Qed.

Lemma toString_N (n : N) :
  (0 < n)%N -> JS.toString (Z.of_N n) = NilEmpty.string_of_uint (N.to_uint n).
Proof.
  destruct n as [| p]; [lia |]. intros _.
  unfold JS.toString. cbn [Z.of_N Z.to_int NilZero.string_of_int N.to_uint].
  unfold NilZero.string_of_uint.
  pose proof (DecimalPos.Unsigned.to_uint_nonnil p) as Hnil.
  now destruct (Pos.to_uint p).
Qed.

(** The decimal string of a number of more than one digit is that of its
    tenth followed by its last digit. *)
Lemma toString_step (q r : Z) :
  0 < q -> 0 <= r < 10 ->
  JS.toString (10 * q + r) = JS.toString q ++ digit_char r.
Proof.
  intros Hq Hr.
  replace (10 * q + r) with (Z.of_N (10 * Z.to_N q + Z.to_N r)) by lia.
  rewrite toString_N by lia. rewrite to_uint_step by lia.
  rewrite string_of_app.
  replace q with (Z.of_N (Z.to_N q)) at 2 by lia.
  rewrite toString_N by lia. f_equal.
  ten r Hr; reflexivity.
Qed.

Lemma toString_negative (n : Z) :
  n < 0 -> JS.toString n = String "-" (JS.toString (- n)).
Proof.
  destruct n as [| p | p]; try lia. intros _.
  reflexivity.
Qed.

Lemma toString_inj (a b : Z) : JS.toString a = JS.toString b -> a = b.
Proof.
  unfold JS.toString. intros H. apply DecimalZ.to_int_inj.
  assert (Hnil : forall z, Z.to_int z <> Decimal.Pos Decimal.Nil
                           /\ Z.to_int z <> Decimal.Neg Decimal.Nil).
  { intros [| p | p]; cbn [Z.to_int]; split; try discriminate;
      intros [= Hp]; now apply DecimalPos.Unsigned.to_uint_nonnil in Hp. }
  destruct (Hnil a) as [Ha1 Ha2]. destruct (Hnil b) as [Hb1 Hb2].
  pose proof (NilZero.isi _ Ha1 Ha2) as Ia.
  pose proof (NilZero.isi _ Hb1 Hb2) as Ib.
  congruence.
Qed.

(** Induction on the digits of a non-negative number. *)
Lemma digits_ind (P : Z -> Prop) :
  (forall r, 0 <= r < 10 -> P r) ->
  (forall q r, 0 < q -> 0 <= r < 10 -> P q -> P (10 * q + r)) ->
  forall n, 0 <= n -> P n.
Proof.
  intros Hbase Hstep n Hn.
  remember (Z.to_nat n) as k eqn:Hk. revert n Hn Hk.
  induction k as [k IH] using lt_wf_ind. intros n Hn Hk.
  destruct (Z_lt_ge_dec n 10) as [Hlt | Hge]; [apply Hbase; lia |].
  rewrite (Z.div_mod n 10) by lia.
  apply Hstep.
  - apply Z.div_str_pos. lia.
  - apply Z.mod_pos_bound. lia.
  - apply (IH (Z.to_nat (n / 10))); [| apply Z.div_pos; lia | reflexivity].
    subst k. assert (n / 10 < n) by (apply Z.div_lt; lia).
    assert (0 <= n / 10) by (apply Z.div_pos; lia). lia.
Qed.


Lemma length_toString_le (n : Z) (k : nat) :
  0 <= n < 10 ^ Z.of_nat k -> (1 <= k)%nat ->
  (String.length (JS.toString n) <= k)%nat.
Proof.
  intros [Hn Hlt]. revert k Hlt.
  apply (digits_ind (fun n => forall k, n < 10 ^ Z.of_nat k -> (1 <= k)%nat ->
                                (String.length (JS.toString n) <= k)%nat));
    [| | assumption].
  - intros r Hr k _ Hk. rewrite toString_digit by assumption. simpl. lia.
  - intros q r Hq Hr IH k Hlt Hk.
    rewrite toString_step, length_append by assumption. simpl.
    destruct k as [| [| k']]; [lia | simpl in Hlt; lia |].
    assert (String.length (JS.toString q) <= S k')%nat; [| lia].
    apply IH; [| lia].
    replace (Z.of_nat (S (S k'))) with (Z.succ (Z.of_nat (S k'))) in Hlt by lia.
    rewrite Z.pow_succ_r in Hlt by lia. lia.
Qed.

Lemma length_toString_gt (n : Z) (k : nat) :
  10 ^ Z.of_nat k <= n -> (k < String.length (JS.toString n))%nat.
Proof.
  intros Hle. assert (Hn : 0 <= n).
  { pose proof (Z.pow_pos_nonneg 10 (Z.of_nat k)). lia. }
  revert k Hle.
  apply (digits_ind (fun n => forall k, 10 ^ Z.of_nat k <= n ->
                                (k < String.length (JS.toString n))%nat));
    [| | assumption].
  - intros r Hr k Hle. rewrite toString_digit by assumption. simpl.
    destruct k as [| k']; [lia |].
    replace (Z.of_nat (S k')) with (Z.succ (Z.of_nat k')) in Hle by lia.
    rewrite Z.pow_succ_r in Hle by lia.
    pose proof (Z.pow_pos_nonneg 10 (Z.of_nat k')). lia.
  - intros q r Hq Hr IH k Hle.
    rewrite toString_step, length_append by assumption. simpl.
    destruct k as [| k']; [lia |].
    assert (k' < String.length (JS.toString q))%nat; [| lia].
    apply IH.
    replace (Z.of_nat (S k')) with (Z.succ (Z.of_nat k')) in Hle by lia.
    rewrite Z.pow_succ_r in Hle by lia. lia.
Qed.

Lemma repeat_fill_zeros (m : nat) (cur : string) :
  cur = "" \/ cur = "0" -> JS.repeat_fill m cur "0" = zeros m.
Proof.
  revert cur. induction m as [| m IH]; intros cur Hcur; [reflexivity |].
  simpl. destruct Hcur as [-> | ->]; f_equal; apply IH; now left.
Qed.

Lemma zeros_snoc (m : nat) : zeros (S m) = zeros m ++ "0".
Proof. induction m as [| m IH]; [reflexivity |]. simpl in *. now rewrite <- IH. Qed.

Lemma length_zeros (m : nat) : String.length (zeros m) = m.
Proof. induction m as [| m IH]; simpl; [reflexivity | now rewrite IH]. Qed.

Lemma padStart_zeros (s : string) (target : Z) :
  JS.padStart s target "0" = zeros (Z.to_nat (target - JS.length s)) ++ s.
Proof.
  unfold JS.padStart. destruct (target <=? JS.length s) eqn:Hle.
  - apply Z.leb_le in Hle. now replace (Z.to_nat (target - JS.length s)) with O by lia.
  - rewrite repeat_fill_zeros by now right. reflexivity.
Qed.

(** Fixed-width digits, one digit at a time. *)
Lemma digits_step (k q r : Z) :
  1 <= k -> 0 <= q -> 0 <= r < 10 ->
  JS.digits (k + 1) (10 * q + r) = JS.digits k q ++ digit_char r.
Proof.
  intros Hk Hq Hr. unfold JS.digits. rewrite !padStart_zeros.
  destruct (Z.eq_dec q 0) as [-> | Hq0].
  - rewrite Z.mul_0_r, Z.add_0_l, toString_digit by assumption.
    change (JS.toString 0) with "0".
    replace (Z.to_nat (k + 1 - JS.length (digit_char r)))
      with (S (Z.to_nat (k - JS.length "0")))
      by (unfold JS.length; simpl; lia).
    rewrite zeros_snoc. reflexivity.
  - rewrite toString_step by lia. rewrite <- append_assoc. do 3 f_equal.
    unfold JS.length, digit_char. rewrite length_append.
    cbn [String.length]. lia.
Qed.

(** The decimal string of [q * 10^k + r] is that of [q] followed by [r] on
    [k] digits. *)
Lemma toString_split (k : nat) (q r : Z) :
  (1 <= k)%nat -> 0 < q -> 0 <= r < 10 ^ Z.of_nat k ->
  JS.toString (q * 10 ^ Z.of_nat k + r)
  = JS.toString q ++ JS.digits (Z.of_nat k) r.
Proof.
  intros Hk Hq. revert r.
  induction k as [| k IH]; [lia |]. intros r Hr.
  replace (Z.of_nat (S k)) with (Z.succ (Z.of_nat k)) in * by lia.
  rewrite Z.pow_succ_r in * by lia.
  assert (Hdiv : r = 10 * (r / 10) + r mod 10) by (apply Z.div_mod; lia).
  assert (Hmod : 0 <= r mod 10 < 10) by (apply Z.mod_pos_bound; lia).
  assert (Hquo : 0 <= r / 10) by (apply Z.div_pos; lia).
  destruct k as [| k'].
  - cbn [Z.of_nat] in *. rewrite Z.pow_0_r in *.
    replace (q * (10 * 1) + r) with (10 * q + r) by lia.
    rewrite toString_step by lia. f_equal.
    unfold JS.digits. rewrite padStart_zeros, toString_digit by lia.
    reflexivity.
  - assert (Hquo' : r / 10 < 10 ^ Z.of_nat (S k')).
    { apply Z.div_lt_upper_bound; lia. }
    replace (q * (10 * 10 ^ Z.of_nat (S k')) + r)
      with (10 * (q * 10 ^ Z.of_nat (S k') + r / 10) + r mod 10) by lia.
    rewrite toString_step; [| | assumption].
    + rewrite IH by lia. rewrite append_assoc. f_equal.
      rewrite <- digits_step by lia. rewrite <- Hdiv. reflexivity.
    + pose proof (Z.pow_pos_nonneg 10 (Z.of_nat (S k'))). nia.
Qed.

Lemma without_commas_append (a b : string) :
  without_commas (a ++ b) = without_commas a ++ without_commas b.
Proof.
  induction a as [| c a IH]; [reflexivity |]. simpl.
  destruct (Ascii.eqb c ","); [assumption | simpl; now rewrite IH].
Qed.

Lemma toString_no_comma (n : Z) :
  0 <= n -> without_commas (JS.toString n) = JS.toString n.
Proof.
  apply (digits_ind (fun n => without_commas (JS.toString n) = JS.toString n)).
  - intros r Hr. ten r Hr; reflexivity.
  - intros q r Hq Hr IH. rewrite toString_step by assumption.
    rewrite without_commas_append, IH. f_equal. ten r Hr; reflexivity.
Qed.

(** The grouping inserts commas and nothing else. *)
Lemma replace_groups_from_commas (prev : option ascii) (s : string) :
  without_commas (JS.replace_groups_from prev s) = without_commas s.
Proof.
  revert prev. induction s as [| c s IH]; intros prev.
  - cbn [JS.replace_groups_from]. now destruct (_ && _).
  - cbn [JS.replace_groups_from].
    rewrite without_commas_append. cbn [without_commas]. rewrite IH.
    now destruct (_ && _).
Qed.

Lemma append_inj_length (a b c d : string) :
  a ++ b = c ++ d -> String.length b = String.length d -> a = c /\ b = d.
Proof.
  revert c. induction a as [| x a IH]; intros c H Hlen.
  - destruct c as [| y c]; [now split |]. exfalso.
    apply (f_equal String.length) in H. simpl in H.
    rewrite length_append in H. lia.
  - destruct c as [| y c].
    + exfalso. apply (f_equal String.length) in H. simpl in H.
      rewrite length_append in H. lia.
    + simpl in H. injection H as <- H. destruct (IH _ H Hlen) as [-> ->].
      now split.
Qed.

Lemma slices_append (a b : string) :
  a <> "" -> String.length b = 6%nat ->
  JS.slice (a ++ b) 0 (Some (-6)) = a /\ JS.slice (a ++ b) (-6) None = b.
Proof.
  intros Ha Hb.
  destruct (slices_split (a ++ b)) as [Hsplit Hlen].
  { rewrite length_append. destruct a; [contradiction | simpl; lia]. }
  apply append_inj_length in Hsplit; [| lia]. exact Hsplit.
Qed.

Lemma slices_short (s : string) :
  (String.length s <= 6)%nat ->
  JS.slice s 0 (Some (-6)) = "" /\ JS.slice s (-6) None = s.
Proof.
  intros Hlen. unfold JS.slice, JS.relative_index, JS.length.
  cbn [Z.ltb Z.compare].
  rewrite Z.min_l, !Z.max_r by lia.
  split; [reflexivity |].
  destruct (Z.of_nat (String.length s) <=? 0) eqn:H0.
  - apply Z.leb_le in H0. destruct s; [reflexivity | simpl in H0; lia].
  - rewrite Z.sub_0_r, Nat2Z.id. cbn [Z.to_nat].
    pose proof (substring_split (String.length s) s (Nat.le_refl _)) as H.
    rewrite Nat.sub_diag in H.
    assert (Hend : substring (String.length s) 0 s = "").
    { clear. induction s; [reflexivity | assumption]. }
    rewrite Hend, append_empty_r in H. exact H.
Qed.

End Decimals.

Section Rendering.

Local Open Scope string_scope.
Local Open Scope Z_scope.

Lemma length_digits (k : nat) (r : Z) :
  (1 <= k)%nat -> 0 <= r < 10 ^ Z.of_nat k ->
  String.length (JS.digits (Z.of_nat k) r) = k.
Proof.
  intros Hk Hr. pose proof (length_toString_le r k Hr Hk) as Hlen.
  pose proof (padStart_length (JS.toString r) "0" (Z.of_nat k)) as Hpad.
  unfold JS.digits, JS.length in *. specialize (Hpad ltac:(discriminate)). lia.
Qed.

Lemma toString_nonempty (n : Z) : JS.toString n <> "".
Proof.
  destruct (Z_lt_ge_dec n 0) as [Hneg | Hpos].
  - rewrite toString_negative by assumption. discriminate.
  - intros H. pose proof (length_toString_gt n 0) as Hlen.
    destruct (Z.eq_dec n 0) as [-> | Hn0]; [discriminate |].
    rewrite H in Hlen. simpl in Hlen. lia.
Qed.

(** The decimal string of a total of at least one STX. *)
Lemma toString_whole (n : Z) :
  1000000 <= n ->
  JS.toString n
  = JS.toString (n / 1000000) ++ JS.digits 6 (n mod 1000000)
  /\ String.length (JS.digits 6 (n mod 1000000)) = 6%nat.
Proof.
  intros Hn.
  assert (Hmod : 0 <= n mod 1000000 < 1000000) by (apply Z.mod_pos_bound; lia).
  assert (Hquo : 0 < n / 1000000) by (apply Z.div_str_pos; lia).
  split.
  - rewrite (Z.div_mod n 1000000) at 1 by lia.
    replace (1000000 * (n / 1000000) + n mod 1000000)
      with (n / 1000000 * 10 ^ Z.of_nat 6 + n mod 1000000) by (simpl; lia).
    now rewrite toString_split by (simpl; lia).
  - now apply (length_digits 6); [lia | simpl].
Qed.

Lemma microStxToStx_whole (n : Z) :
  0 <= n ->
  Placeholder.microStxToStx (JS.toString n)
  = JS.toString (n / 1000000) ++ "." ++ JS.digits 6 (n mod 1000000).
Proof.
  intros Hn. unfold Placeholder.microStxToStx.
  destruct (Z_lt_ge_dec n 1000000) as [Hlt | Hge].
  - rewrite Z.div_small, Z.mod_small by lia.
    assert (Hlen : (String.length (JS.toString n) <= 6)%nat)
      by (apply length_toString_le; simpl; lia).
    assert (Hpad : JS.padStart (JS.toString n) 7 "0"
                   = "0" ++ JS.digits 6 n).
    { unfold JS.digits. rewrite !padStart_zeros. unfold JS.length.
      replace (Z.to_nat (7 - Z.of_nat (String.length (JS.toString n))))
        with (S (Z.to_nat (6 - Z.of_nat (String.length (JS.toString n)))))
        by lia.
      reflexivity. }
    rewrite Hpad.
    destruct (slices_append "0" (JS.digits 6 n)) as [-> ->];
      [discriminate | now apply (length_digits 6); [lia | simpl; lia] |].
    reflexivity.
  - destruct (toString_whole n) as [Hs Hlen]; [lia |].
    assert (Hpad : JS.padStart (JS.toString n) 7 "0" = JS.toString n).
    { rewrite padStart_zeros. unfold JS.length. rewrite Hs, length_append, Hlen.
      pose proof (toString_nonempty (n / 1000000)) as Hne.
      destruct (JS.toString (n / 1000000)); [contradiction |].
      simpl String.length.
      now replace (Z.to_nat _) with O by lia. }
    rewrite Hpad, Hs.
    destruct (slices_append (JS.toString (n / 1000000))
                (JS.digits 6 (n mod 1000000))) as [-> ->];
      [apply toString_nonempty | assumption |].
    reflexivity.
Qed.


Lemma replace_groups_minus (x : string) :
  JS.replace_groups (String "-" x)
  = String "-" (JS.replace_groups_from (Some "-"%char) x).
Proof. reflexivity. Qed.

(** The whole-STX part of a decimal string of more than six characters
    starts with the first character of the string. *)
Lemma slice_first_char (c : ascii) (rest : string) :
  (6 < String.length (String c rest))%nat ->
  exists rest', JS.slice (String c rest) 0 (Some (-6)) = String c rest'.
Proof.
  intros Hlen. destruct (slices_split _ Hlen) as [Hsplit Hfrac].
  destruct (JS.slice (String c rest) 0 (Some (-6))) as [| d rest'] eqn:Hs.
  - exfalso. simpl in Hsplit. rewrite Hsplit in Hfrac. lia.
  - simpl in Hsplit. injection Hsplit as -> _. now exists rest'.
Qed.

Lemma whole_in_range (n q : Z) :
  n / 1000000 = q <-> q * 1000000 <= n <= q * 1000000 + 999999.
Proof.
  pose proof (Z.div_mod n 1000000 ltac:(lia)) as Hdm.
  pose proof (Z.mod_pos_bound n 1000000 ltac:(lia)) as Hmod. lia.
Qed.

Lemma toString_no_minus (n : Z) (x : string) :
  0 <= n -> JS.toString n <> String "-" x.
Proof.
  intros Hn. revert x.
  apply (digits_ind (fun n => forall x, JS.toString n <> String "-" x));
    [| | assumption].
  - intros r Hr x. ten r Hr; discriminate.
  - intros q r Hq Hr IH x. rewrite toString_step by assumption.
    destruct (JS.toString q) as [| c rest] eqn:Hs.
    + now apply toString_nonempty in Hs.
    + simpl. intros [= -> _]. now apply (IH rest).
Qed.

Lemma without_commas_groups (n : Z) :
  0 <= n -> without_commas (JS.replace_groups (JS.toString n)) = JS.toString n.
Proof.
  intros Hn. unfold JS.replace_groups.
  now rewrite replace_groups_from_commas, toString_no_comma.
Qed.

(** The whole-STX reading of src/index.ts shows [q], a positive number of
    STX, exactly for the totals whose quotient by a million is [q]. *)
Lemma sliced_whole (n q : Z) :
  0 < q ->
  JS.replace_groups (JS.slice (JS.toString n) 0 (Some (-6)))
  = JS.replace_groups (JS.toString q)
  <-> n / 1000000 = q.
Proof.
  intros Hq. split.
  - intros H. apply (f_equal without_commas) in H.
    rewrite without_commas_groups in H by lia.
    unfold JS.replace_groups in H. rewrite replace_groups_from_commas in H.
    destruct (Z_lt_ge_dec n 1000000) as [Hlt | Hge].
    + exfalso.
      destruct (Nat.le_gt_cases (String.length (JS.toString n)) 6)
        as [Hshort | Hlong].
      * destruct (slices_short _ Hshort) as [Hs _]. rewrite Hs in H.
        symmetry in H. now apply toString_nonempty in H.
      * destruct (Z_lt_ge_dec n 0) as [Hneg | Hpos].
        -- rewrite toString_negative in H, Hlong by assumption.
           destruct (slice_first_char _ _ Hlong) as [rest' Hs].
           rewrite Hs in H. cbn [without_commas Ascii.eqb Bool.eqb] in H.
           symmetry in H. now apply toString_no_minus in H; [| lia].
        -- pose proof (length_toString_le n 6 ltac:(simpl; lia) ltac:(lia)).
           lia.
    + destruct (toString_whole n ltac:(lia)) as [Hs Hlen].
      rewrite Hs in H.
      destruct (slices_append (JS.toString (n / 1000000))
                  (JS.digits 6 (n mod 1000000))) as [Hint _];
        [apply toString_nonempty | assumption |].
      rewrite Hint, toString_no_comma in H by (apply Z.div_pos; lia).
      apply toString_inj. exact H.
  - intros Hn.
    assert (Hge : 1000000 <= n) by (apply whole_in_range in Hn; lia).
    destruct (toString_whole n Hge) as [Hs Hlen]. rewrite Hs.
    destruct (slices_append (JS.toString (n / 1000000))
                (JS.digits 6 (n mod 1000000))) as [-> _];
      [apply toString_nonempty | assumption |].
    now rewrite Hn.
Qed.

(** The same for [microStxToReadable], which pads first. *)
Lemma readable_whole (n q : Z) :
  0 < q ->
  Placeholder.microStxToReadable (JS.toString n)
  = JS.replace_groups (JS.toString q)
  <-> n / 1000000 = q.
Proof.
  intros Hq. unfold Placeholder.microStxToReadable.
  destruct (Nat.le_gt_cases (String.length (JS.toString n)) 6)
    as [Hshort | Hlong].
  - (* padded to seven characters: the whole part is the single "0" *)
    assert (Hpad : JS.padStart (JS.toString n) 7 "0"
                   = "0" ++ JS.padStart (JS.toString n) 6 "0").
    { rewrite !padStart_zeros. unfold JS.length.
      replace (Z.to_nat (7 - Z.of_nat (String.length (JS.toString n))))
        with (S (Z.to_nat (6 - Z.of_nat (String.length (JS.toString n)))))
        by lia.
      reflexivity. }
    rewrite Hpad.
    destruct (slices_append "0" (JS.padStart (JS.toString n) 6 "0")) as [-> _];
      [discriminate | |].
    { pose proof (padStart_length (JS.toString n) "0" 6 ltac:(discriminate)).
      unfold JS.length in *. lia. }
    split.
    + intros H. exfalso. apply (f_equal without_commas) in H.
      rewrite without_commas_groups in H by lia.
      change (without_commas (JS.replace_groups "0")) with (JS.toString 0) in H.
      apply toString_inj in H. lia.
    + intros Hn. exfalso. apply whole_in_range in Hn.
      pose proof (length_toString_gt n 6 ltac:(simpl; lia)). lia.
  - assert (Hpad : JS.padStart (JS.toString n) 7 "0" = JS.toString n).
    { rewrite padStart_zeros. unfold JS.length.
      now replace (Z.to_nat _) with O by lia. }
    rewrite Hpad. now apply sliced_whole.
Qed.

(** What the final assertion of src/index.ts accepts. *)
Lemma sliced_supply_accepts (n : Z) :
  JS.replace_groups (JS.slice (JS.toString n) 0 (Some (-6))) = expected_supply
  <-> 1352464598000000 <= n <= 1352464598999999.
Proof.
  change expected_supply with (JS.replace_groups (JS.toString 1352464598)).
  rewrite sliced_whole, whole_in_range by lia. lia.
Qed.

(** What the final assertion of the placeholder program accepts. *)
Lemma readable_supply_accepts (n : Z) :
  Placeholder.microStxToReadable (JS.toString n) = expected_supply
  <-> 1352464598000000 <= n <= 1352464598999999.
Proof.
  change expected_supply with (JS.replace_groups (JS.toString 1352464598)).
  rewrite readable_whole, whole_in_range by lia. lia.
Qed.

(** The CSV line of src/index.ts for a total of at least one STX is the
    padded one; below one STX, the amount is written after a bare point. *)
Lemma csv_line_cases (entry : BlockTotal) :
  (1000000 <= total_calculated entry ->
   csv_line entry = Placeholder.csv_line entry)
  /\ (0 <= total_calculated entry < 1000000 ->
      csv_line entry
      = JS.toString (block_height entry) ++ ","
        ++ JS.toString (total_calculated entry) ++ ",."
        ++ JS.toString (total_calculated entry) ++ ","
        ++ date_time entry ++ CRLF).
Proof.
  unfold csv_line, Placeholder.csv_line. split.
  - intros Hge. rewrite microStxToStx_whole by lia.
    destruct (toString_whole _ Hge) as [Hs Hlen]. rewrite Hs at 2 3.
    destruct (slices_append (JS.toString (total_calculated entry / 1000000))
                (JS.digits 6 (total_calculated entry mod 1000000)))
      as [-> ->]; [apply toString_nonempty | assumption |].
    reflexivity.
  - intros Hlt.
    destruct (slices_short (JS.toString (total_calculated entry))) as [-> ->].
    { apply length_toString_le; simpl; lia. }
    reflexivity.
Qed.

End Rendering.

(* ===================================================================== *)
(** ** What the renderings mean *)
(* ===================================================================== *)

(** X6.  [microStxToStx] is exact: for a non-negative amount it writes the
    quotient by a million, a point, and the remainder on six digits. *)
Theorem microStxToStx_exact (n : Z) :
  0 <= n ->
  Placeholder.microStxToStx (JS.toString n)
  = (JS.toString (n / 1000000) ++ "." ++ JS.digits 6 (n mod 1000000))%string
  /\ String.length (JS.digits 6 (n mod 1000000)) = 6%nat.
Proof.
  intros Hn. split; [now apply microStxToStx_whole |].
  apply (length_digits 6); [lia |].
  change (10 ^ Z.of_nat 6) with 1000000. apply Z.mod_pos_bound. lia.
Qed.

Lemma microStxToStx_exact_witness :
  Placeholder.microStxToStx (JS.toString 1352464597500000)
  = (JS.toString (1352464597500000 / 1000000) ++ "."
     ++ JS.digits 6 (1352464597500000 mod 1000000))%string
  /\ String.length (JS.digits 6 (1352464597500000 mod 1000000)) = 6%nat.
Proof. apply microStxToStx_exact. lia. Defined.

(** X7.  The CSV line of src/index.ts is the line of the placeholder program
    for every total of at least one STX; for a smaller non-negative total
    the amount in STX is a bare point followed by the micro-STX digits. *)
Theorem csv_line_rendering (entry : BlockTotal) :
  (1000000 <= total_calculated entry ->
   csv_line entry = Placeholder.csv_line entry)
  /\ (0 <= total_calculated entry < 1000000 ->
      csv_line entry
      = (JS.toString (block_height entry) ++ ","
         ++ JS.toString (total_calculated entry) ++ ",."
         ++ JS.toString (total_calculated entry) ++ ","
         ++ date_time entry ++ CRLF)%string).
Proof. apply csv_line_cases. Qed.

(** X8.  The final assertion, in either program, accepts exactly the totals
    from 1352464598000000 to 1352464598999999 micro-STX. *)
Theorem final_supply_range (n : Z) :
  (JS.replace_groups (JS.slice (JS.toString n) 0 (Some (-6))) = expected_supply
   <-> 1352464598000000 <= n <= 1352464598999999)
  /\ (Placeholder.microStxToReadable (JS.toString n) = expected_supply
      <-> 1352464598000000 <= n <= 1352464598999999).
Proof.
  split; [apply sliced_supply_accepts | apply readable_supply_accepts].
Qed.

(** X9.  The grouping of thousands inserts commas and changes no other
    character. *)
Theorem replace_groups_only_commas (s : string) :
  without_commas (JS.replace_groups s) = without_commas s.
Proof. apply replace_groups_from_commas. Qed.

(** X10.  [run] of src/index.ts completes only if the total of the last
    block visited lies between 1352464598000000 and 1352464598999999
    micro-STX. *)
Theorem run_final_total (client : Client) (now : Z) (csv : string) :
  run client now = inr csv ->
  exists totals lastEntry,
    accumulate client now = inr totals
    /\ last totals = Some lastEntry
    /\ 1352464598000000 <= total_calculated lastEntry <= 1352464598999999.
Proof.
  unfold run.
  destruct (accumulate client now) as [? | totals]; [discriminate |].
  cbn [bind].
  destruct (sanity_checks client totals) as [? | []] eqn:Hsane;
    [discriminate |].
  cbn [bind]. rewrite prune_scan. cbn [bind].
  destruct (finalSupply_of_last _ _ _ Hsane (prune_scan totals))
    as (retained & Hretained & ->).
  cbn [bind]. unfold assert_strictEqual, assert.
  destruct (String.eqb _ _) eqn:Heq; [| discriminate]. intros _.
  apply String.eqb_eq, sliced_supply_accepts in Heq.
  destruct totals as [| first rest]; [discriminate |].
  pose proof (forward_scan_last_total first rest) as Hsame.
  unfold last_total in Hsame. cbn [forward_scan] in Hretained.
  rewrite last_cons in Hretained.
  exists (first :: rest), (default first (last rest)).
  split; [reflexivity |]. split.
  - rewrite last_cons. now destruct (last rest).
  - rewrite <- Hsame.
    destruct (last (forward_scan_from first rest));
      injection Hretained as <-; exact Heq.
Qed.

Lemma run_final_total_witness :
  exists totals lastEntry,
    accumulate Scenario.client Scenario.now = inr totals
    /\ last totals = Some lastEntry
    /\ 1352464598000000 <= total_calculated lastEntry <= 1352464598999999.
Proof.
  eapply (run_final_total Scenario.client Scenario.now).
  vm_compute. reflexivity.
Defined.

(* ===================================================================== *)
(** ** The loop on a ledger *)
(* ===================================================================== *)

Lemma filter_bool_ext {A} (f g : A -> bool) (l : list A) :
  (forall a, In a l -> f a = g a) ->
  filter (fun a => Is_true (f a)) l = filter (fun a => Is_true (g a)) l.
Proof.
  induction l as [| x l IH]; intros H; [reflexivity |].
  rewrite !filter_cons. rewrite (H x) by now left.
  rewrite IH by (intros a Ha; apply H; now right). reflexivity.
Qed.

Lemma In_insert_distinct (z x : Z) (l : list Z) :
  In z (Ledger.insert_distinct x l) <-> z = x \/ In z l.
Proof.
  induction l as [| y l IH]; simpl; [intuition |].
  destruct (x <? y) eqn:Hlt; [simpl; intuition |].
  destruct (x =? y) eqn:Heq.
  - apply Z.eqb_eq in Heq. subst. simpl. intuition.
  - simpl. rewrite IH. intuition.
Qed.

Lemma In_distinct_ascending (z : Z) (l : list Z) :
  In z (Ledger.distinct_ascending l) <-> In z l.
Proof.
  unfold Ledger.distinct_ascending.
  induction l as [| x l IH]; simpl; [reflexivity |].
  rewrite In_insert_distinct, IH. intuition.
Qed.

Lemma sorted_insert_distinct (x : Z) (l : list Z) :
  StronglySorted Z.lt l -> StronglySorted Z.lt (Ledger.insert_distinct x l).
Proof.
  induction 1 as [| y l Hs IH Hall]; simpl.
  - repeat constructor.
  - destruct (x <? y) eqn:Hlt.
    + apply Z.ltb_lt in Hlt. constructor; [now constructor |].
      constructor; [assumption |].
      rewrite Forall_forall in *. intros z Hz. specialize (Hall z Hz). lia.
    + destruct (x =? y) eqn:Heq; [now constructor |].
      apply Z.ltb_ge in Hlt. apply Z.eqb_neq in Heq.
      constructor; [assumption |].
      rewrite Forall_forall in *. intros z Hz.
      apply list_elem_of_In, In_insert_distinct in Hz as [-> | Hz]; [lia |].
      apply Hall. now apply list_elem_of_In.
Qed.

Lemma sorted_distinct_ascending (l : list Z) :
  StronglySorted Z.lt (Ledger.distinct_ascending l).
Proof.
  unfold Ledger.distinct_ascending.
  induction l as [| x l IH]; simpl; [constructor |].
  now apply sorted_insert_distinct.
Qed.

(** The last element of an ascending list is its greatest. *)
Lemma sorted_last (l : list Z) (m : Z) :
  StronglySorted Z.lt l -> last l = Some m ->
  In m l /\ forall x, In x l -> x <= m.
Proof.
  induction 1 as [| y l Hs IH Hall]; [discriminate |].
  rewrite last_cons. destruct (last l) as [m' |] eqn:Hl.
  - intros [= <-]. destruct (IH eq_refl) as [Hin Hmax].
    split; [now right |]. intros x [<- | Hx]; [| now apply Hmax].
    rewrite Forall_forall in Hall.
    specialize (Hall m' ltac:(now apply list_elem_of_In)). lia.
  - intros [= <-]. destruct l; [| now rewrite last_cons in Hl; destruct (last l)].
    split; [now left |]. intros x [<- | []]. lia.
Qed.

Lemma MAX_greatest (l : list Z) (m : Z) :
  Ledger.MAX l = Some m -> In m l /\ forall x, In x l -> x <= m.
Proof.
  destruct l as [| v rest]; [discriminate |]. intros [= <-].
  induction rest as [| y rest IH]; simpl.
  - split; [now left |]. intros x [<- | []]. lia.
  - destruct IH as [Hin Hmax].
    destruct (Z.max_spec y (fold_right Z.max v rest)) as [[Hlt ->] | [Hle ->]].
    + split.
      * destruct Hin as [Hv | Hr]; [now left | right; now right].
      * intros x [<- | [<- | Hx]].
        -- apply Hmax. now left.
        -- lia.
        -- apply Hmax. now right.
    + split; [right; now left |].
      intros x [<- | [<- | Hx]].
      * specialize (Hmax v ltac:(now left)). lia.
      * lia.
      * specialize (Hmax x ltac:(now right)). lia.
Qed.

Lemma filter_none {A} (f : A -> bool) (l : list A) :
  (forall a, In a l -> f a = false) ->
  filter (fun a => Is_true (f a)) l = [].
Proof.
  induction l as [| x l IH]; intros H; [reflexivity |].
  rewrite filter_cons, (H x) by now left.
  apply IH. intros a Ha. apply H. now right.
Qed.

(** What a client connected to a ledger answers. *)
Lemma connect_answers (db : Ledger.Database) (client : Client) :
  Ledger.connect db = Some client ->
  Ledger.MAX (map Ledger.block_id (Ledger.accounts db))
  = Some (currentBlockHeight client)
  /\ vestingBlockHeights client
     = Ledger.distinct_ascending
         (map Ledger.vesting_block_id
            (filter (fun v => Is_true (Ledger.is_STACKS (Ledger.vesting_type v)))
               (Ledger.account_vesting db)))
  /\ lockTransferBlockHeights client
     = Ledger.distinct_ascending
         (map Ledger.lock_transfer_block_id (Ledger.accounts db))
  /\ STX_TOTAL_AT_BLOCK_QUERY client = Ledger.STX_TOTAL_AT_BLOCK_QUERY db
  /\ STX_TOTAL_VESTED_BY_BLOCK_QUERY client
     = Ledger.STX_TOTAL_VESTED_BY_BLOCK_QUERY db.
Proof.
  unfold Ledger.connect, Ledger.STX_LATEST_BLOCK_HEIGHT_QUERY.
  destruct (Ledger.MAX _) as [height |] eqn:Hmax; [| discriminate].
  intros [= <-]. split; [reflexivity |].
  split; [| repeat split].
  unfold vestingBlockHeights, vestingResults, Ledger.STX_VESTED_BY_BLOCK_QUERY.
  cbn [STX_VESTED_BY_BLOCK_QUERY]. rewrite map_map. cbn [vesting_block_height].
  apply map_id.
Qed.

(** Between two lock-transfer heights, past the latest block, the balance
    query answers the same. *)
Lemma balance_unchanged (db : Ledger.Database) (height : Z) :
  (forall r, In r (Ledger.accounts db) -> Ledger.block_id r <= height - 1) ->
  ~ In height (Ledger.distinct_ascending
                 (map Ledger.lock_transfer_block_id (Ledger.accounts db))) ->
  Ledger.STX_TOTAL_AT_BLOCK_QUERY db height
  = Ledger.STX_TOTAL_AT_BLOCK_QUERY db (height - 1).
Proof.
  intros Hblocks Hlock. unfold Ledger.STX_TOTAL_AT_BLOCK_QUERY.
  do 3 f_equal. apply filter_bool_ext. intros r Hr.
  assert (Ledger.lock_transfer_block_id r <> height).
  { intros Heq. apply Hlock, In_distinct_ascending.
    rewrite <- Heq. now apply in_map. }
  specialize (Hblocks r Hr).
  destruct (Ledger.is_STACKS _); [| reflexivity]. cbn [andb].
  f_equal; apply eq_true_iff_eq; rewrite !Z.leb_le; lia.
Qed.

(** At a height where nothing vests, the vested total is that of the
    height before. *)
Lemma vested_unchanged (db : Ledger.Database) (height floor : Z) :
  ~ In height
      (Ledger.distinct_ascending
         (map Ledger.vesting_block_id
            (filter (fun v => Is_true (Ledger.is_STACKS (Ledger.vesting_type v)))
               (Ledger.account_vesting db)))) ->
  Ledger.STX_TOTAL_VESTED_BY_BLOCK_QUERY db height floor
  = Ledger.STX_TOTAL_VESTED_BY_BLOCK_QUERY db (height - 1) floor.
Proof.
  intros Hvest. unfold Ledger.STX_TOTAL_VESTED_BY_BLOCK_QUERY.
  do 2 f_equal. apply filter_bool_ext. intros v Hv.
  destruct (Ledger.is_STACKS (Ledger.vesting_type v)) eqn:Hs; [| reflexivity].
  assert (Ledger.vesting_block_id v <> height).
  { intros Heq. apply Hvest, In_distinct_ascending.
    rewrite <- Heq. apply in_map. apply list_elem_of_In, list_elem_of_filter.
    split; [now rewrite Hs | now apply list_elem_of_In]. }
  cbn [andb]. f_equal. apply eq_true_iff_eq. rewrite !Z.leb_le. lia.
Qed.

(** Nothing vests after a block and not after it. *)
Lemma vested_empty (db : Ledger.Database) (height : Z) :
  Ledger.STX_TOTAL_VESTED_BY_BLOCK_QUERY db height height = None.
Proof.
  unfold Ledger.STX_TOTAL_VESTED_BY_BLOCK_QUERY.
  rewrite filter_none; [reflexivity |]. intros v _.
  destruct (Ledger.is_STACKS _); [| reflexivity]. cbn [andb].
  destruct (Ledger.vesting_block_id v <=? height) eqn:Hle; [| reflexivity].
  apply Z.leb_le in Hle. apply Z.ltb_ge. lia.
Qed.

Lemma series_on_ledger (db : Ledger.Database) (client : Client) (now : Z)
    (totals : list BlockTotal) (i : nat) (e : BlockTotal) :
  Ledger.connect db = Some client ->
  accumulate client now = inr totals ->
  totals !! i = Some e ->
  Ledger.STX_TOTAL_AT_BLOCK_QUERY db (block_height e)
  = Some (queried_micro_stx e)
  /\ vested_micro_stx e
     = default 0 (Ledger.STX_TOTAL_VESTED_BY_BLOCK_QUERY db (block_height e)
                    (currentBlockHeight client)).
Proof.
  intros Hdb Hacc.
  destruct (connect_answers _ _ Hdb) as (Hmax & Hvest & Hlock & Hq & Hv).
  destruct (accumulate_series _ _ _ Hacc) as [Hok _].
  destruct (MAX_greatest _ _ Hmax) as [_ Hlatest].
  revert e. induction i as [| j IH]; intros e He.
  - destruct (Hok _ _ He) as [Hh Hfol]. rewrite Z.add_0_r in Hh.
    cbn [preceding] in Hfol. split.
    + rewrite <- Hq. apply (follows_queried_query _ _ _ Hfol).
      rewrite Hh, Z.eqb_refl. apply orb_true_r.
    + rewrite Hh, vested_empty. cbn [default].
      destruct (JS.includes (vestingBlockHeights client) (block_height e))
        eqn:Hin.
      * pose proof (follows_vested_query _ _ _ Hfol Hin) as Hquery.
        rewrite Hv, Hh, vested_empty in Hquery. discriminate.
      * apply (follows_vested_reuse _ _ _ Hfol Hin).
  - destruct (Hok _ _ He) as [Hh Hfol]. cbn [preceding] in Hfol.
    destruct (lookup_lt_is_Some_2 totals j) as [p Hp].
    { apply lookup_lt_Some in He. lia. }
    destruct (IH _ Hp) as [IHq IHv].
    destruct (Hok _ _ Hp) as [Hhp _]. rewrite Hp in Hfol.
    assert (Hpred : block_height e - 1 = block_height p) by lia.
    split.
    + destruct (JS.includes (lockTransferBlockHeights client) (block_height e)
                || (block_height e =? currentBlockHeight client)) eqn:Hc.
      * rewrite <- Hq. apply (follows_queried_query _ _ _ Hfol Hc).
      * destruct (follows_queried_reuse _ _ _ Hfol Hc) as (x & [= <-] & ->).
        apply orb_false_iff in Hc as [Hnot _].
        apply includes_not_In in Hnot. rewrite Hlock in Hnot.
        rewrite balance_unchanged, Hpred; [assumption | | assumption].
        intros r Hr. specialize (Hlatest (Ledger.block_id r)
                                   ltac:(now apply in_map)). lia.
    + destruct (JS.includes (vestingBlockHeights client) (block_height e))
        eqn:Hin.
      * pose proof (follows_vested_query _ _ _ Hfol Hin) as Hquery.
        rewrite Hv in Hquery. now rewrite Hquery.
      * rewrite (follows_vested_reuse _ _ _ Hfol Hin), IHv.
        apply includes_not_In in Hin. rewrite Hvest in Hin.
        now rewrite (vested_unchanged _ _ _ Hin), Hpred.
Qed.

(** X11.  The reuse policy loses nothing: on a client connected to a ledger,
    every entry of the series carries the balance the query returns at its
    own height and the amount vested between the current height and its own,
    as if both had been queried at every block. *)
Theorem requery_agrees (db : Ledger.Database) (client : Client) (now : Z)
    (totals : list BlockTotal) (i : nat) (e : BlockTotal) :
  Ledger.connect db = Some client ->
  accumulate client now = inr totals ->
  totals !! i = Some e ->
  Ledger.STX_TOTAL_AT_BLOCK_QUERY db (block_height e)
  = Some (queried_micro_stx e)
  /\ vested_micro_stx e
     = default 0 (Ledger.STX_TOTAL_VESTED_BY_BLOCK_QUERY db (block_height e)
                    (currentBlockHeight client)).
Proof. exact (series_on_ledger db client now totals i e). Qed.

Lemma distinct_ascending_nonempty (l : list Z) :
  l <> [] -> Ledger.distinct_ascending l <> [].
Proof.
  destruct l as [| x l]; [contradiction |]. intros _ Hnil.
  assert (Hin : In x (Ledger.distinct_ascending (x :: l)))
    by (apply In_distinct_ascending; now left).
  rewrite Hnil in Hin. contradiction.
Qed.

Lemma last_nonempty {A} (l : list A) : l <> [] -> exists m, last l = Some m.
Proof.
  intros Hl. destruct (last l) as [m |] eqn:Hlast; [now exists m |].
  apply last_None in Hlast. contradiction.
Qed.

(** For a client connected to a ledger with some vesting height, the bound
    of the loop is five past the greatest lock-transfer or vesting
    height. *)
Lemma ledger_lastBlockHeight (db : Ledger.Database) (client : Client) :
  Ledger.connect db = Some client ->
  vestingBlockHeights client <> [] ->
  exists greatest,
    lastBlockHeight client = Some (greatest + 5)
    /\ (In greatest (lockTransferBlockHeights client)
        \/ In greatest (vestingBlockHeights client))
    /\ forall h, In h (lockTransferBlockHeights client)
                 \/ In h (vestingBlockHeights client) -> h <= greatest.
Proof.
  intros Hdb Hvest.
  destruct (connect_answers _ _ Hdb) as (Hmax & Hv & Hl & _).
  assert (Hlock : lockTransferBlockHeights client <> []).
  { rewrite Hl. apply distinct_ascending_nonempty.
    destruct (Ledger.accounts db); [discriminate | discriminate]. }
  destruct (last_nonempty _ Hlock) as [lockLast HlockLast].
  destruct (last_nonempty _ Hvest) as [vestLast HvestLast].
  destruct (sorted_last (lockTransferBlockHeights client) lockLast)
    as [Hlin Hlmax]; [rewrite Hl; apply sorted_distinct_ascending | assumption |].
  destruct (sorted_last (vestingBlockHeights client) vestLast)
    as [Hvin Hvmax]; [rewrite Hv; apply sorted_distinct_ascending | assumption |].
  exists (Z.max lockLast vestLast). split; [| split].
  - unfold lastBlockHeight, JS.last_element.
    now rewrite HlockLast, HvestLast.
  - destruct (Z.max_spec lockLast vestLast) as [[_ ->] | [_ ->]];
      [now right | now left].
  - intros h [Hh | Hh]; [apply Hlmax in Hh | apply Hvmax in Hh]; lia.
Qed.

(** X12.  On a ledger with some vesting height, every lock-transfer height
    and every vesting height from the current height on is visited, and at
    least four more blocks are visited after it. *)
Theorem unlock_heights_visited (db : Ledger.Database) (client : Client)
    (now : Z) (totals : list BlockTotal) (h : Z) :
  Ledger.connect db = Some client ->
  vestingBlockHeights client <> [] ->
  accumulate client now = inr totals ->
  currentBlockHeight client <= h ->
  In h (lockTransferBlockHeights client)
  \/ In h (vestingBlockHeights client) ->
  exists i e, totals !! i = Some e /\ block_height e = h
              /\ (i + 5 <= length totals)%nat.
Proof.
  intros Hdb Hvest Hacc Hcur Hh.
  destruct (ledger_lastBlockHeight _ _ Hdb Hvest) as (g & Hlast & _ & Hmax).
  specialize (Hmax h Hh).
  pose proof (accumulate_length _ _ _ Hacc) as Hlen.
  unfold iterations_left in Hlen. rewrite Hlast in Hlen.
  destruct (accumulate_series _ _ _ Hacc) as [Hok _].
  destruct (lookup_lt_is_Some_2 totals (Z.to_nat (h - currentBlockHeight client)))
    as [e He]; [lia |].
  exists (Z.to_nat (h - currentBlockHeight client)), e.
  split; [assumption |]. split; [| lia].
  destruct (Hok _ _ He) as [Hheight _]. lia.
Qed.

Lemma toISOString_inr (ms : Z) :
  Z.abs ms <= 8640000000000000 -> exists stamp, JS.toISOString ms = inr stamp.
Proof.
  intros Hms. unfold JS.toISOString.
  destruct (8640000000000000 <? Z.abs ms) eqn:Hlt; [apply Z.ltb_lt in Hlt; lia |].
  destruct (JS.civil_from_days _) as [[y m] d]. eexists. reflexivity.
Qed.

(** X13.  When something vests at the latest block itself, the first
    iteration asks for what vested after that block and up to it, gets the
    empty aggregate, and [run] of src/index.ts ends on [BigInt(null)]. *)
Theorem vesting_at_current_height (db : Ledger.Database) (client : Client)
    (now : Z) :
  Ledger.connect db = Some client ->
  In (currentBlockHeight client) (vestingBlockHeights client) ->
  Z.abs (currentDate now * 1000) <= 8640000000000000 ->
  accumulate client now = inl TypeError_BigInt_null
  /\ run client now = inl TypeError_BigInt_null.
Proof.
  intros Hdb Hin Hclock.
  assert (Hvest : vestingBlockHeights client <> []).
  { intros Hnil. rewrite Hnil in Hin. contradiction. }
  destruct (ledger_lastBlockHeight _ _ Hdb Hvest) as (g & Hlast & _ & Hmax).
  specialize (Hmax _ (or_intror Hin)).
  destruct (connect_answers _ _ Hdb) as (_ & _ & _ & _ & Hv).
  assert (Hacc : accumulate client now = inl TypeError_BigInt_null).
  { unfold accumulate. rewrite for_loop_turn, Hlast. unfold JS.lt_number.
    replace (currentBlockHeight client <? g + 5) with true
      by (symmetry; apply Z.ltb_lt; lia).
    unfold loop_body.
    replace ((currentDate now
              + (currentBlockHeight client - currentBlockHeight client) * 10 * 60)
             * 1000) with (currentDate now * 1000) by lia.
    destruct (toISOString_inr _ Hclock) as [stamp ->]. cbn [bind].
    apply includes_In in Hin. rewrite Hin, Hv, vested_empty. reflexivity. }
  split; [assumption |]. unfold run. rewrite Hacc. reflexivity.
Qed.

Lemma requery_agrees_witness :
  Ledger.STX_TOTAL_AT_BLOCK_QUERY Scenario.ledger
    (block_height (Scenario.entry 105 1352464597500000 500000
                     "2020-09-13T13:16:40.000Z"))
  = Some (queried_micro_stx (Scenario.entry 105 1352464597500000 500000
                               "2020-09-13T13:16:40.000Z"))
  /\ vested_micro_stx (Scenario.entry 105 1352464597500000 500000
                         "2020-09-13T13:16:40.000Z")
     = default 0
         (Ledger.STX_TOTAL_VESTED_BY_BLOCK_QUERY Scenario.ledger
            (block_height (Scenario.entry 105 1352464597500000 500000
                             "2020-09-13T13:16:40.000Z"))
            (currentBlockHeight Scenario.client)).
Proof.
  apply (requery_agrees Scenario.ledger Scenario.client Scenario.now
           Scenario.series 5);
    [reflexivity | vm_compute; reflexivity | reflexivity].
Defined.

Lemma unlock_heights_visited_witness :
  exists i e, Scenario.series !! i = Some e /\ block_height e = 103
              /\ (i + 5 <= length Scenario.series)%nat.
Proof.
  apply (unlock_heights_visited Scenario.ledger Scenario.client Scenario.now).
  - reflexivity.
  - vm_compute. discriminate.
  - vm_compute. reflexivity.
  - vm_compute. discriminate.
  - left. vm_compute. tauto.
Defined.

Lemma vesting_at_current_height_witness :
  accumulate vesting_now_client Scenario.now = inl TypeError_BigInt_null
  /\ run vesting_now_client Scenario.now = inl TypeError_BigInt_null.
Proof.
  apply (vesting_at_current_height vesting_now_ledger).
  - reflexivity.
  - vm_compute. tauto.
  - vm_compute. discriminate.
Defined.

(* ===================================================================== *)
(** ** The placeholder balances *)
(* ===================================================================== *)

Lemma fold_left_add (values : list Z) (start : Z) :
  fold_left Z.add values start = start + fold_right Z.add 0 values.
Proof.
  revert start. induction values as [| v values IH]; intros start; simpl;
    [lia | rewrite IH; lia].
Qed.

Lemma Map_get_set (m : Placeholders.Map) (key key' : string) (value : Z) :
  Placeholders.Map_get (Placeholders.Map_set m key value) key'
  = if String.eqb key key' then Some value else Placeholders.Map_get m key'.
Proof.
  induction m as [| [k v] m IH]; simpl.
  - reflexivity.
  - destruct (String.eqb k key) eqn:Hk; simpl.
    + apply String.eqb_eq in Hk. subst k.
      now destruct (String.eqb key key').
    + destruct (String.eqb k key') eqn:Hk'; [| exact IH].
      apply String.eqb_eq in Hk'. subst k.
      now rewrite String.eqb_sym, Hk.
Qed.

Lemma Map_total_set (m : Placeholders.Map) (key : string) (value : Z) :
  Map_total (Placeholders.Map_set m key value)
  = Map_total m - default 0 (Placeholders.Map_get m key) + value.
Proof.
  unfold Map_total. induction m as [| [k v] m IH]; simpl; [lia |].
  destruct (String.eqb k key); simpl; lia.
Qed.

Lemma Map_keys_in (m : Placeholders.Map) (key : string) (value : Z)
    (k : string) :
  In k (map fst (Placeholders.Map_set m key value)) ->
  k = key \/ In k (map fst m).
Proof.
  induction m as [| [k' v'] m IH]; simpl.
  - intros [<- | []]. now left.
  - destruct (String.eqb k' key); simpl.
    + intros [<- | H]; [right; now left | right; now right].
    + intros [<- | H]; [right; now left |].
      destruct (IH H); [now left | right; now right].
Qed.

Lemma Map_keys_set (m : Placeholders.Map) (key : string) (value : Z) :
  NoDup (map fst m) -> NoDup (map fst (Placeholders.Map_set m key value)).
Proof.
  induction m as [| [k v] m IH]; simpl; intros Hnd.
  - apply NoDup_cons. split; [intros Hin; inversion Hin | constructor].
  - inversion Hnd as [| ? ? Hk Hnd']; subst.
    destruct (String.eqb k key) eqn:Hkey; simpl.
    + now constructor.
    + constructor; [| now apply IH].
      intros Hin. apply list_elem_of_In, Map_keys_in in Hin as [-> | Hin].
      * now rewrite String.eqb_refl in Hkey.
      * now apply Hk, list_elem_of_In.
Qed.

Lemma amount_of_absent (key : string) (rows : list Placeholders.Row) :
  has_address key rows = false -> amount_of key rows = 0.
Proof.
  unfold has_address, amount_of.
  induction rows as [| r rows IH]; [reflexivity |]. cbn [existsb List.filter].
  destruct (String.eqb (Placeholders.address r) key); [discriminate |].
  exact IH.
Qed.

(** Folding rows into a map adds each amount to the value of its
    address. *)
Lemma fold_rows (rows : list Placeholders.Row) (m : Placeholders.Map) :
  let m' := fold_left
              (fun m r =>
                 Placeholders.Map_set m (Placeholders.address r)
                   (default 0 (Placeholders.Map_get m (Placeholders.address r))
                    + Placeholders.amount r)) rows m in
  (NoDup (map fst m) -> NoDup (map fst m'))
  /\ Map_total m'
     = Map_total m + fold_right Z.add 0 (map Placeholders.amount rows)
  /\ forall key,
       Placeholders.Map_get m' key
       = if has_address key rows
         then Some (default 0 (Placeholders.Map_get m key) + amount_of key rows)
         else Placeholders.Map_get m key.
Proof.
  revert m. induction rows as [| r rows IH]; intros m; cbn zeta.
  - simpl. split; [tauto |]. split; [lia |]. reflexivity.
  - cbn [fold_left].
    destruct (IH (Placeholders.Map_set m (Placeholders.address r)
                    (default 0 (Placeholders.Map_get m (Placeholders.address r))
                     + Placeholders.amount r))) as (Hnd & Htotal & Hget).
    cbn zeta in *. split; [| split].
    + intros H. now apply Hnd, Map_keys_set.
    + rewrite Htotal, Map_total_set. simpl. lia.
    + intros key. rewrite Hget, Map_get_set.
      pose proof (amount_of_absent key rows) as Habsent.
      unfold has_address, amount_of in *. cbn [existsb List.filter].
      destruct (String.eqb (Placeholders.address r) key) eqn:Hkey.
      * cbn [orb map fold_right default].
        apply String.eqb_eq in Hkey. rewrite Hkey.
        destruct (existsb _ rows); [f_equal; unfold id; lia |].
        rewrite Habsent by reflexivity. f_equal. unfold id. lia.
      * cbn [orb]. reflexivity.
Qed.

(** X14.  The aggregated report agrees with the raw one: the map has one
    entry per address, each address carries the sum of the amounts of its
    rows, and the values add up to the total placeholder balance; with no
    row at all that total is the TypeError of [reduce] on an empty array. *)
Theorem placeholderMap_sums (placeholderAccounts placeholderVesting
    : list Placeholders.Row) :
  NoDup (map fst (Placeholders.placeholderMap placeholderAccounts
                    placeholderVesting))
  /\ (forall key,
         Placeholders.Map_get
           (Placeholders.placeholderMap placeholderAccounts placeholderVesting)
           key
         = if has_address key (placeholderAccounts ++ placeholderVesting)
           then Some (amount_of key (placeholderAccounts ++ placeholderVesting))
           else None)
  /\ (Placeholders.totalPlaceholderBalance placeholderAccounts
        placeholderVesting = None
      <-> placeholderAccounts ++ placeholderVesting = [])
  /\ (forall total,
         Placeholders.totalPlaceholderBalance placeholderAccounts
           placeholderVesting = Some total ->
         Map_total (Placeholders.placeholderMap placeholderAccounts
                      placeholderVesting) = total).
Proof.
  unfold Placeholders.placeholderMap, Placeholders.totalPlaceholderBalance.
  destruct (fold_rows (placeholderAccounts ++ placeholderVesting) [])
    as (Hnd & Htotal & Hget).
  cbn zeta in *. split; [| split; [| split]].
  - apply Hnd. constructor.
  - intros key. rewrite Hget. cbn [Placeholders.Map_get default].
    now destruct (has_address _ _).
  - destruct (placeholderAccounts ++ placeholderVesting); simpl;
      split; congruence.
  - intros total. rewrite Htotal.
    destruct (placeholderAccounts ++ placeholderVesting) as [| r rows];
      [discriminate |].
    cbn [map Placeholders.reduce_add]. rewrite fold_left_add.
    intros [= <-]. unfold Map_total. simpl. lia.
Qed.

(** X15.  The two assertions of the placeholder program pass exactly when
    the placeholder balance lies between 4392964000000 and 4392964999999
    micro-STX and the last total between 1352464598000000 and
    1352464598999999; on an empty series the second one is not reached
    without the TypeError. *)
Theorem final_checks_accepts (totalPlaceholderBalance : Z)
    (totals : list BlockTotal) :
  Placeholder.final_checks totalPlaceholderBalance totals = inr tt
  <-> 4392964000000 <= totalPlaceholderBalance <= 4392964999999
      /\ exists lastEntry,
           last totals = Some lastEntry
           /\ 1352464598000000 <= total_calculated lastEntry
              <= 1352464598999999.
Proof.
  unfold Placeholder.final_checks, assert_strictEqual, element.
  rewrite last_lookup.
  replace (length totals - 1)%nat with (Init.Nat.pred (length totals)) by lia.
  pose proof (readable_whole totalPlaceholderBalance 4392964 ltac:(lia))
    as Hbalance.
  change (JS.replace_groups (JS.toString 4392964)) with "4,392,964"%string
    in Hbalance.
  rewrite whole_in_range in Hbalance.
  destruct (String.eqb _ "4,392,964") eqn:Hb; cbn [assert bind ret throw].
  - apply String.eqb_eq in Hb. apply Hbalance in Hb.
    destruct (totals !! _) as [lastEntry |]; cbn [bind ret throw].
    + pose proof (readable_supply_accepts (total_calculated lastEntry))
        as Hsupply.
      unfold expected_supply in Hsupply.
      destruct (String.eqb _ _) eqn:Hs; cbn [assert].
      * apply String.eqb_eq in Hs. apply Hsupply in Hs. split; [| reflexivity].
        intros _. split; [lia |]. now exists lastEntry.
      * apply String.eqb_neq in Hs. split; [discriminate |].
        intros [_ (x & [= <-] & Hx)]. now apply Hsupply in Hx.
    + split; [discriminate |]. intros [_ (x & [=] & _)].
  - apply String.eqb_neq in Hb. split; [discriminate |].
    intros [Hrange _]. exfalso. apply Hb, Hbalance. lia.
Qed.

(* ===================================================================== *)
(** ** The series of the earlier program *)
(* ===================================================================== *)

Lemma legacy_loop_body_entry (client : Legacy.Client) (initStxSupply : Z)
    (blockHeight : Z) (totals totals' : list BlockTotal) :
  Legacy.loop_body client initStxSupply blockHeight totals = inr totals' ->
  exists e,
    totals' = totals ++ [e]
    /\ block_height e = blockHeight
    /\ total_calculated e = queried_micro_stx e + vested_micro_stx e
    /\ vested_micro_stx e
       = match previous totals with
         | Some p => vested_micro_stx p
         | None => 0
         end + released (Legacy.vestingResults client) blockHeight
    /\ (blockHeight = Legacy.initBlockHeight client
        \/ exists p, previous totals = Some p).
Proof.
  unfold Legacy.loop_body, released. intros H.
  destruct (if JS.includes _ _ then _ else _) as [? | q0]; [discriminate |].
  cbn [bind] in H.
  destruct (blockHeight =? Legacy.initBlockHeight client) eqn:Hinit.
  - cbn [bind ret] in H. injection H as <-. eexists.
    split; [reflexivity |]. read_fields. repeat split.
    + now destruct (find _ _); destruct (previous totals); simpl; lia.
    + left. now apply Z.eqb_eq.
  - destruct (previous totals) as [p |]; [| discriminate].
    cbn [bind ret] in H. injection H as <-. eexists.
    split; [reflexivity |]. read_fields. repeat split.
    + now destruct (find _ _); simpl; lia.
    + right. now exists p.
Qed.

Lemma legacy_entries (client : Legacy.Client) (totals : list BlockTotal) :
  Legacy.accumulate client = inr totals ->
  length totals = iterations_left (Legacy.lastBlockHeight client)
                    (Legacy.initBlockHeight client)
  /\ forall i e, totals !! i = Some e ->
       block_height e = Legacy.initBlockHeight client + Z.of_nat i
       /\ vested_micro_stx e
          = released_through (Legacy.vestingResults client)
              (Legacy.initBlockHeight client) i
       /\ total_calculated e = queried_micro_stx e + vested_micro_stx e.
Proof.
  unfold Legacy.accumulate.
  destruct (snd (Legacy.STX_LATEST_TOTAL_TXS_QUERY client)) as [supply |];
    [| discriminate].
  cbn [BigInt bind ret].
  set (shape := fun (t : list BlockTotal) =>
         forall i e, t !! i = Some e ->
           block_height e = Legacy.initBlockHeight client + Z.of_nat i
           /\ vested_micro_stx e
              = released_through (Legacy.vestingResults client)
                  (Legacy.initBlockHeight client) i
           /\ total_calculated e = queried_micro_stx e + vested_micro_stx e).
  apply (for_loop_rule (Legacy.lastBlockHeight client)
           (Legacy.loop_body client supply)
           (fun bh t =>
              bh = Legacy.initBlockHeight client + Z.of_nat (length t)
              /\ (length t = O
                  \/ exists bound, Legacy.lastBlockHeight client = Some bound
                                   /\ bh <= bound)
              /\ shape t)
           (fun r => r = inr totals ->
              length totals = iterations_left (Legacy.lastBlockHeight client)
                                (Legacy.initBlockHeight client)
              /\ shape totals)).
  - intros bh t (Hbh & Hcase & Ht) Hlt [= <-]. split; [| exact Ht].
    unfold iterations_left, JS.lt_number in *.
    destruct (Legacy.lastBlockHeight client) as [bound |].
    + apply Z.ltb_ge in Hlt.
      destruct Hcase as [H0 | (b & [= <-] & Hle)]; lia.
    + destruct Hcase as [H0 | (b & Hb & _)]; [assumption | discriminate].
  - discriminate.
  - intros bh t t' (Hbh & _ & Ht) Hlt Hbody.
    destruct (legacy_loop_body_entry _ _ _ _ _ Hbody)
      as (x & -> & Hx & Htot & Hv & Hfirst).
    split; [rewrite length_app; simpl; lia |]. split.
    { right. unfold JS.lt_number in Hlt.
      destruct (Legacy.lastBlockHeight client) as [bound |]; [| discriminate].
      exists bound. apply Z.ltb_lt in Hlt. split; [reflexivity | lia]. }
    intros i e He.
    destruct (Nat.lt_ge_cases i (length t)) as [Hi | Hi].
    + rewrite lookup_app_l in He by assumption. now apply Ht.
    + assert (i = length t) as ->.
      { apply lookup_lt_Some in He. rewrite length_app in He.
        simpl in He. lia. }
      rewrite lookup_app_r, Nat.sub_diag in He by lia.
      injection He as <-.
      split; [lia |]. split; [| assumption].
      rewrite Hv, previous_preceding, Hbh.
      destruct (length t) as [| n] eqn:Hn.
      * cbn [preceding released_through]. now rewrite Z.add_0_r.
      * cbn [preceding released_through].
        destruct (lookup_lt_is_Some_2 t n) as [p Hp]; [lia |].
        rewrite Hp. destruct (Ht _ _ Hp) as (_ & -> & _). reflexivity.
  - split; [simpl; lia |]. split; [now left |].
    intros i e He. destruct i; discriminate.
Qed.

(** X16.  The series of the earlier program in closed form: the entry at
    index [i] is at the initial height plus [i], its queried amount is the
    initial supply whatever unlocks, its vested amount is what was released
    from the initial height up to its own, both included, and its total is
    their sum. *)
Theorem legacy_series (client : Legacy.Client) (totals : list BlockTotal)
    (i : nat) (e : BlockTotal) :
  Legacy.accumulate client = inr totals ->
  totals !! i = Some e ->
  block_height e = Legacy.initBlockHeight client + Z.of_nat i
  /\ snd (Legacy.STX_LATEST_TOTAL_TXS_QUERY client)
     = Some (queried_micro_stx e)
  /\ vested_micro_stx e
     = released_through (Legacy.vestingResults client)
         (Legacy.initBlockHeight client) i
  /\ total_calculated e = queried_micro_stx e + vested_micro_stx e.
Proof.
  intros Hacc He.
  pose proof (legacy_queried_constant _ _ _ _ Hacc He) as Hq.
  destruct (legacy_entries _ _ Hacc) as [_ Hshape].
  destruct (Hshape i e He) as (Hh & Hv & Ht).
  repeat split; assumption.
Qed.

Lemma legacy_series_witness :
  block_height (Scenario.entry 105 500 500000 "")
  = Legacy.initBlockHeight Scenario.legacy_client + Z.of_nat 5
  /\ snd (Legacy.STX_LATEST_TOTAL_TXS_QUERY Scenario.legacy_client)
     = Some (queried_micro_stx (Scenario.entry 105 500 500000 ""))
  /\ vested_micro_stx (Scenario.entry 105 500 500000 "")
     = released_through (Legacy.vestingResults Scenario.legacy_client)
         (Legacy.initBlockHeight Scenario.legacy_client) 5
  /\ total_calculated (Scenario.entry 105 500 500000 "")
     = queried_micro_stx (Scenario.entry 105 500 500000 "")
       + vested_micro_stx (Scenario.entry 105 500 500000 "").
Proof.
  apply (legacy_series Scenario.legacy_client
           (default [] (match Legacy.accumulate Scenario.legacy_client with
                        | inr t => Some t
                        | inl _ => None
                        end)));
    [vm_compute; reflexivity | reflexivity].
Defined.

Lemma legacy_loop_body_throws (client : Legacy.Client) (initStxSupply : Z)
    (blockHeight : Z) (totals : list BlockTotal) (e : error) :
  Legacy.loop_body client initStxSupply blockHeight totals = inl e ->
  (In blockHeight (Legacy.lockTransferBlockHeights client)
   /\ (Legacy.STX_TOTAL_TXS_AT_BLOCK_QUERY client blockHeight = inl e
       \/ (e = TypeError_BigInt_null
           /\ Legacy.STX_TOTAL_TXS_AT_BLOCK_QUERY client blockHeight
              = inr None)))
  \/ (e = TypeError_undefined PreviousEntry
      /\ blockHeight <> Legacy.initBlockHeight client
      /\ previous totals = None).
Proof.
  unfold Legacy.loop_body.
  destruct (JS.includes _ _) eqn:Hin.
  - apply includes_In in Hin.
    destruct (Legacy.STX_TOTAL_TXS_AT_BLOCK_QUERY client blockHeight)
      as [e' | [val |]] eqn:Hq; cbn [BigInt bind ret throw].
    + intros [= <-]. left. tauto.
    + destruct (blockHeight =? _) eqn:Hinit; cbn [bind ret]; [discriminate |].
      destruct (previous totals); cbn [bind ret throw]; [discriminate |].
      intros [= <-]. right. apply Z.eqb_neq in Hinit. tauto.
    + intros [= <-]. left. tauto.
  - cbn [bind ret].
    destruct (blockHeight =? _) eqn:Hinit; cbn [bind ret]; [discriminate |].
    destruct (previous totals); cbn [bind ret throw]; [discriminate |].
    intros [= <-]. right. apply Z.eqb_neq in Hinit. tauto.
Qed.

(** The loop of the earlier program is left by an exception only at a
    lock-transfer height, on a rejected query or on an empty aggregate. *)
Lemma legacy_loop_throws (client : Legacy.Client) (supply : Z) (e : error) :
  for_loop (Legacy.lastBlockHeight client) (Legacy.loop_body client supply)
    (Legacy.initBlockHeight client) [] = inl e ->
  exists h, In h (Legacy.lockTransferBlockHeights client)
            /\ Legacy.initBlockHeight client <= h
            /\ (Legacy.STX_TOTAL_TXS_AT_BLOCK_QUERY client h = inl e
                \/ (e = TypeError_BigInt_null
                    /\ Legacy.STX_TOTAL_TXS_AT_BLOCK_QUERY client h
                       = inr None)).
Proof.
  apply (for_loop_rule (Legacy.lastBlockHeight client)
           (Legacy.loop_body client supply)
           (fun bh totals =>
              Legacy.initBlockHeight client <= bh
              /\ (bh = Legacy.initBlockHeight client
                  \/ previous totals <> None))
           (fun r => r = inl e ->
              exists h, In h (Legacy.lockTransferBlockHeights client)
                /\ Legacy.initBlockHeight client <= h
                /\ (Legacy.STX_TOTAL_TXS_AT_BLOCK_QUERY client h = inl e
                    \/ (e = TypeError_BigInt_null
                        /\ Legacy.STX_TOTAL_TXS_AT_BLOCK_QUERY client h
                           = inr None)))).
  - discriminate.
  - intros bh totals e' [Hle HI] _ Hbody [= ->].
    destruct (legacy_loop_body_throws _ _ _ _ _ Hbody)
      as [[Hin Hq] | (_ & Hne & Hp)].
    + now exists bh.
    + destruct HI; congruence.
  - intros bh totals totals' [Hle _] _ Hbody.
    destruct (legacy_loop_body_entry _ _ _ _ _ Hbody) as (x & -> & _).
    split; [lia |]. right. rewrite previous_push. discriminate.
  - split; [lia | now left].
Qed.

Lemma legacy_sanity_checks_outcome (client : Legacy.Client)
    (totals : list BlockTotal) :
  Legacy.accumulate client = inr totals ->
  Legacy.sanity_checks client totals = inr tt
  \/ (totals = []
      /\ Legacy.sanity_checks client totals
         = inl (TypeError_undefined FirstEntry))
  \/ (Legacy.sanity_checks client totals
      = inl (AssertionError "total balance should always increase!")
      /\ exists h, Legacy.initBlockHeight client < h
                   /\ released (Legacy.vestingResults client) h < 0).
Proof.
  intros Hacc. destruct (legacy_entries _ _ Hacc) as [_ Hshape].
  assert (Hnext : forall i a b, totals !! i = Some a ->
                    totals !! (S i) = Some b ->
                    block_height b = block_height a + 1).
  { intros i a b Ha Hb. apply Hshape in Ha as [Ha _].
    apply Hshape in Hb as [Hb _]. lia. }
  destruct totals as [| first rest] eqn:E; [right; left; now split |].
  rewrite <- E in *. unfold Legacy.sanity_checks, element.
  assert (Hfirst : totals !! 0%nat = Some first) by now subst.
  rewrite Hfirst. cbn [bind ret].
  destruct (Hshape _ _ Hfirst) as [-> _].
  rewrite Z.add_0_r, Z.eqb_refl. cbn [assert bind ret].
  destruct (check_pairs_consecutive totals (length totals - 1) 1 Hnext)
    as [Hpass | [Hbad (j & a & b & Ha & Hb & Hlt)]];
    [lia | subst; simpl; lia | now left |].
  right. right. split; [assumption |].
  exists (Legacy.initBlockHeight client + Z.of_nat (S j)). split; [lia |].
  pose proof (legacy_queried_constant _ _ _ _ Hacc Ha) as Hqa.
  pose proof (legacy_queried_constant _ _ _ _ Hacc Hb) as Hqb.
  destruct (Hshape _ _ Ha) as (_ & Hva & Hta).
  destruct (Hshape _ _ Hb) as (_ & Hvb & Htb).
  cbn [released_through] in Hvb.
  assert (queried_micro_stx a = queried_micro_stx b) by congruence.
  lia.
Qed.

Lemma traverse_map {A B} (f : A -> result B) (g : A -> B) (l : list A)
    (l' : list B) :
  (forall x y, In x l -> f x = inr y -> y = g x) ->
  traverse f l = inr l' -> l' = map g l.
Proof.
  revert l'. induction l as [| x l IH]; intros l' Hf; cbn [traverse map].
  - now intros [= <-].
  - destruct (f x) as [? | y] eqn:Hx; cbn [bind]; [discriminate |].
    destruct (traverse f l) as [? | ys]; cbn [bind ret]; [discriminate |].
    intros [= <-]. f_equal.
    + apply Hf; [now left | assumption].
    + apply IH; [| reflexivity]. intros a c Ha. apply Hf. now right.
Qed.

Lemma CAST_AS_bigint_inr (v y : Z) : Legacy.CAST_AS_bigint v = inr y -> y = v.
Proof.
  unfold Legacy.CAST_AS_bigint. destruct (Legacy.in_bigint v); [| discriminate].
  now intros [= <-].
Qed.

(** When the grouped vesting query of the earlier program returns, it
    returns what the one of src/index.ts does. *)
Lemma legacy_vested_answer (db : Ledger.Database)
    (vestingResults : list VestingResult) :
  Legacy.ledger_STX_VESTED_BY_BLOCK_QUERY db = inr vestingResults ->
  vestingResults = Ledger.STX_VESTED_BY_BLOCK_QUERY db.
Proof.
  unfold Legacy.ledger_STX_VESTED_BY_BLOCK_QUERY, Ledger.STX_VESTED_BY_BLOCK_QUERY.
  apply traverse_map. intros b y _.
  destruct (traverse _ _) as [? | values] eqn:Hvalues; cbn [bind ret];
    [discriminate |].
  intros [= <-]. f_equal. f_equal.
  apply (traverse_map _ Ledger.vesting_value _ _
           (fun v c _ => CAST_AS_bigint_inr _ c) Hvalues).
Qed.

Lemma traverse_inl {A B} (f : A -> result B) (l : list A) (e : error) :
  traverse f l = inl e -> exists x, In x l /\ f x = inl e.
Proof.
  induction l as [| x l IH]; cbn [traverse]; [discriminate |].
  destruct (f x) as [e' | y] eqn:Hx; cbn [bind].
  - intros [= <-]. exists x. split; [now left | assumption].
  - destruct (traverse f l) as [e' | ys]; cbn [bind ret]; [| discriminate].
    intros [= <-]. destruct (IH eq_refl) as (a & Ha & Hf).
    exists a. split; [now right | assumption].
Qed.

Lemma traverse_nil {A B} (f : A -> result B) (l : list A) :
  traverse f l = inr [] -> l = [].
Proof.
  destruct l as [| x l]; [reflexivity |]. cbn [traverse].
  destruct (f x); cbn [bind]; [discriminate |].
  destruct (traverse f l); cbn [bind ret]; discriminate.
Qed.

Lemma CAST_AS_bigint_inl (v : Z) (e : error) :
  Legacy.CAST_AS_bigint v = inl e ->
  e = DatabaseError_bigint_out_of_range /\ Legacy.in_bigint v = false.
Proof.
  unfold Legacy.CAST_AS_bigint. destruct (Legacy.in_bigint v); [discriminate |].
  intros [= <-]. now split.
Qed.

Lemma net_value_inl (r : Ledger.Account) (e : error) :
  Legacy.net_value r = inl e ->
  e = DatabaseError_bigint_out_of_range
  /\ (Legacy.in_bigint (Ledger.credit_value r)
      && Legacy.in_bigint (Ledger.debit_value r)
      && Legacy.in_bigint (Ledger.credit_value r - Ledger.debit_value r))
     = false.
Proof.
  unfold Legacy.net_value, Legacy.CAST_AS_bigint.
  destruct (Legacy.in_bigint (Ledger.credit_value r)); cbn [bind ret throw];
    [| intros [= <-]; now split].
  destruct (Legacy.in_bigint (Ledger.debit_value r)); cbn [bind ret throw];
    [| intros [= <-]; now split].
  destruct (Legacy.in_bigint _); [discriminate |].
  intros [= <-]. now split.
Qed.

Lemma In_distinct_on_address (x : Ledger.Account)
    (rows kept : list Ledger.Account) :
  In x (Ledger.distinct_on_address rows kept) -> In x rows \/ In x kept.
Proof.
  revert kept. induction rows as [| r rows IH]; intros kept;
    cbn [Ledger.distinct_on_address]; [now right |].
  intros Hx. apply IH in Hx as [Hx | Hx]; [left; now right |].
  destruct (existsb _ kept).
  - apply in_map_iff in Hx as (k & Hk & Hin).
    destruct (_ && _); [left; left; congruence | right; congruence].
  - apply in_app_iff in Hx as [Hx | [<- | []]]; [now right | left; now left].
Qed.

Lemma distinct_on_address_nonempty (rows kept : list Ledger.Account) :
  Ledger.distinct_on_address rows kept = [] -> rows = [] /\ kept = [].
Proof.
  revert kept. induction rows as [| r rows IH]; intros kept;
    cbn [Ledger.distinct_on_address]; [now split |].
  intros H. apply IH in H as [_ H]. exfalso.
  destruct (existsb _ kept) eqn:Hex.
  - apply map_eq_nil in H. subst. discriminate.
  - now destruct kept.
Qed.

(** A rejected balance query has met a row it cannot cast. *)
Lemma legacy_total_rejected (db : Ledger.Database) (height : Z) (e : error) :
  Legacy.ledger_STX_TOTAL_TXS_AT_BLOCK_QUERY db height = inl e ->
  e = DatabaseError_bigint_out_of_range
  /\ exists r, In r (Ledger.accounts db) /\ rejected_account r = true.
Proof.
  unfold Legacy.ledger_STX_TOTAL_TXS_AT_BLOCK_QUERY.
  destruct (traverse _ _) as [e' | values] eqn:Hvalues; cbn [bind ret];
    [| discriminate].
  intros [= <-].
  apply traverse_inl in Hvalues as (r & Hr & He).
  apply net_value_inl in He as [-> Hrange]. split; [reflexivity |].
  apply In_distinct_on_address in Hr as [Hr | []].
  apply list_elem_of_In, list_elem_of_filter in Hr as [Hkeep Hr].
  exists r. split; [now apply list_elem_of_In |].
  unfold rejected_account. rewrite Hrange.
  apply Is_true_eq_true in Hkeep.
  apply andb_true_iff in Hkeep as [Hkeep _]. now rewrite Hkeep.
Qed.

(** Once the balance query has returned a sum, it returns no NULL at a
    later height. *)
Lemma legacy_total_not_null (db : Ledger.Database) (height height' : Z)
    (supply : Z) :
  Legacy.ledger_STX_TOTAL_TXS_AT_BLOCK_QUERY db height = inr (Some supply) ->
  height <= height' ->
  Legacy.ledger_STX_TOTAL_TXS_AT_BLOCK_QUERY db height' <> inr None.
Proof.
  unfold Legacy.ledger_STX_TOTAL_TXS_AT_BLOCK_QUERY.
  destruct (traverse _ _) as [? | values] eqn:Hvalues; cbn [bind ret];
    [discriminate |].
  intros Hsum Hle.
  match goal with
  | |- context [traverse ?f ?l] =>
      destruct (traverse f l) as [? | values'] eqn:Hvalues'
  end; cbn [bind ret]; [intros [=] |].
  intros [= Hnull]. destruct values' as [| ? ?]; [| discriminate].
  apply traverse_nil, distinct_on_address_nonempty in Hvalues' as [Hnone _].
  destruct values as [| v values]; [discriminate |].
  destruct (Ledger.distinct_on_address _ []) as [| r rows] eqn:Hrows;
    [discriminate |].
  assert (Hr : In r (r :: rows)) by now left.
  rewrite <- Hrows in Hr.
  apply In_distinct_on_address in Hr as [Hr | []].
  apply list_elem_of_In, list_elem_of_filter in Hr as [Hkeep Hr].
  assert (Hin : r ∈ filter
                  (fun r => Is_true
                     (Ledger.is_STACKS (Ledger.type r)
                      && Legacy.plain_address (Ledger.address r)
                      && (Ledger.lock_transfer_block_id r <=? height')))
                  (Ledger.accounts db)).
  { apply list_elem_of_filter. split; [| assumption].
    apply Is_true_eq_true in Hkeep. apply Is_true_eq_left.
    apply andb_true_iff in Hkeep as [Hkeep Hlock].
    rewrite Hkeep. cbn [andb]. apply Z.leb_le in Hlock. apply Z.leb_le. lia. }
  rewrite Hnone in Hin. inversion Hin.
Qed.

Lemma legacy_vested_rejected (db : Ledger.Database) (e : error) :
  Legacy.ledger_STX_VESTED_BY_BLOCK_QUERY db = inl e ->
  e = DatabaseError_bigint_out_of_range
  /\ exists v, In v (Ledger.account_vesting db) /\ rejected_vesting v = true.
Proof.
  unfold Legacy.ledger_STX_VESTED_BY_BLOCK_QUERY. intros H.
  apply traverse_inl in H as (b & _ & H).
  destruct (traverse _ _) as [e' | values] eqn:Hvalues; cbn [bind ret] in H;
    [| discriminate].
  injection H as <-.
  apply traverse_inl in Hvalues as (v & Hv & He).
  apply CAST_AS_bigint_inl in He as [-> Hrange]. split; [reflexivity |].
  apply list_elem_of_In, list_elem_of_filter in Hv as [_ Hv].
  apply list_elem_of_filter in Hv as [Hkeep Hv].
  exists v. split; [now apply list_elem_of_In |].
  unfold rejected_vesting. rewrite Hrange.
  apply Is_true_eq_true in Hkeep. now rewrite Hkeep.
Qed.

Lemma legacy_latest_answer (db : Ledger.Database) (height val : option Z) :
  Legacy.ledger_STX_LATEST_TOTAL_TXS_QUERY db = inr (height, val) ->
  (height = None /\ val = None)
  \/ exists initBlockHeight,
       height = Some initBlockHeight
       /\ Legacy.ledger_STX_TOTAL_TXS_AT_BLOCK_QUERY db initBlockHeight
          = inr val.
Proof.
  unfold Legacy.ledger_STX_LATEST_TOTAL_TXS_QUERY.
  destruct (Ledger.STX_LATEST_BLOCK_HEIGHT_QUERY db) as [h |].
  - destruct (Legacy.ledger_STX_TOTAL_TXS_AT_BLOCK_QUERY db h) as [? | v]
      eqn:Hq; cbn [bind ret]; [discriminate |].
    intros [= <- <-]. right. now exists h.
  - intros [= <- <-]. now left.
Qed.

(** What is sent after the first queries have returned is the program
    over their answers. *)
Lemma main_connected (db : Ledger.Database) (client : Legacy.Client) :
  Legacy.connect db = Some client -> Legacy.main db = Legacy.run client.
Proof.
  unfold Legacy.connect, Legacy.main.
  destruct (Legacy.ledger_STX_LATEST_TOTAL_TXS_QUERY db)
    as [? | [[height |] val]]; [discriminate | | discriminate].
  destruct (Legacy.ledger_STX_VESTED_BY_BLOCK_QUERY db)
    as [? | vestingResults]; [discriminate |].
  intros [= <-]. cbn [bind fst snd].
  destruct val as [supply |]; reflexivity.
Qed.

(** X17.  How the earlier program can end on a ledger.  It throws the
    database error of a cast to [bigint], which needs an amount, or a
    difference of amounts, that 64 bits do not hold; [BigInt(null)], at the
    first query only, when the supply it returns is NULL; the TypeError of
    [totals[0]] when the loop has not run; or the assertion on the totals,
    which needs a negative vesting sum, since the queried amount never
    changes.  The assertions on block heights never fail, the previous
    entry is never missing, and the balance queried at a lock-transfer
    height, once the first query has returned a sum, is never NULL. *)
Theorem legacy_run_throws (db : Ledger.Database) (e : error) :
  Legacy.main db = inl e ->
  (e = DatabaseError_bigint_out_of_range
   /\ ((exists r, In r (Ledger.accounts db) /\ rejected_account r = true)
       \/ (exists v, In v (Ledger.account_vesting db)
                     /\ rejected_vesting v = true)))
  \/ (e = TypeError_BigInt_null
      /\ exists height,
           Legacy.ledger_STX_LATEST_TOTAL_TXS_QUERY db = inr (height, None))
  \/ (e = TypeError_undefined FirstEntry
      /\ exists client, Legacy.connect db = Some client
                        /\ Legacy.accumulate client = inr [])
  \/ (e = AssertionError "total balance should always increase!"
      /\ exists h, released (Ledger.STX_VESTED_BY_BLOCK_QUERY db) h < 0).
Proof.
  unfold Legacy.main.
  destruct (Legacy.ledger_STX_LATEST_TOTAL_TXS_QUERY db)
    as [e1 | [height val]] eqn:Hlatest; cbn [bind].
  { intros [= <-]. left.
    unfold Legacy.ledger_STX_LATEST_TOTAL_TXS_QUERY in Hlatest.
    destruct (Ledger.STX_LATEST_BLOCK_HEIGHT_QUERY db) as [h |];
      [| discriminate].
    destruct (Legacy.ledger_STX_TOTAL_TXS_AT_BLOCK_QUERY db h) as [e' | ?]
      eqn:Hq; cbn [bind ret] in Hlatest; [| discriminate].
    injection Hlatest as <-.
    destruct (legacy_total_rejected _ _ _ Hq) as [-> Hrow]. tauto. }
  cbn [fst snd].
  destruct val as [supply |]; cbn [BigInt bind ret throw];
    [| intros [= <-]; right; left; split; [reflexivity | now exists height]].
  destruct (Legacy.ledger_STX_VESTED_BY_BLOCK_QUERY db)
    as [e2 | vestingResults] eqn:Hvested; cbn [bind].
  { intros [= <-]. left.
    destruct (legacy_vested_rejected _ _ Hvested) as [-> Hrow]. tauto. }
  destruct (legacy_latest_answer _ _ _ Hlatest)
    as [[_ [=]] | (initBlockHeight & -> & Hinit)].
  set (client := Legacy.mkClient (initBlockHeight, Some supply) vestingResults
                   (Ledger.LOCK_TRANSFER_BLOCK_IDS_QUERY db)
                   (Legacy.ledger_STX_TOTAL_TXS_AT_BLOCK_QUERY db)).
  assert (Hconnect : Legacy.connect db = Some client).
  { unfold Legacy.connect. now rewrite Hlatest, Hvested. }
  unfold Legacy.run.
  destruct (Legacy.accumulate client) as [e3 | totals] eqn:Hacc; cbn [bind].
  { intros [= <-]. unfold Legacy.accumulate in Hacc.
    cbn [BigInt bind ret] in Hacc.
    destruct (legacy_loop_throws _ _ _ Hacc) as (h & _ & Hle & Hq).
    change (Legacy.initBlockHeight client) with initBlockHeight in Hle.
    change (Legacy.STX_TOTAL_TXS_AT_BLOCK_QUERY client h)
      with (Legacy.ledger_STX_TOTAL_TXS_AT_BLOCK_QUERY db h) in Hq.
    destruct Hq as [Hq | [_ Hq]].
    - left. destruct (legacy_total_rejected _ _ _ Hq) as [-> Hrow]. tauto.
    - now apply (legacy_total_not_null _ _ _ _ Hinit Hle) in Hq. }
  destruct (legacy_sanity_checks_outcome _ _ Hacc)
    as [Hsane | [[-> Hsane] | [Hsane (h & _ & Hneg)]]];
    rewrite Hsane; cbn [bind ret].
  - discriminate.
  - intros [= <-]. right. right. left. split; [reflexivity |]. now exists client.
  - intros [= <-]. right. right. right. split; [reflexivity |].
    exists h. now rewrite <- (legacy_vested_answer _ _ Hvested).
Qed.

Lemma legacy_run_throws_witness :
  (DatabaseError_bigint_out_of_range = DatabaseError_bigint_out_of_range
   /\ ((exists r, In r (Ledger.accounts overflow_ledger)
                  /\ rejected_account r = true)
       \/ (exists v, In v (Ledger.account_vesting overflow_ledger)
                     /\ rejected_vesting v = true)))
  \/ (DatabaseError_bigint_out_of_range = TypeError_BigInt_null
      /\ exists height,
           Legacy.ledger_STX_LATEST_TOTAL_TXS_QUERY overflow_ledger
           = inr (height, None))
  \/ (DatabaseError_bigint_out_of_range = TypeError_undefined FirstEntry
      /\ exists client, Legacy.connect overflow_ledger = Some client
                        /\ Legacy.accumulate client = inr [])
  \/ (DatabaseError_bigint_out_of_range
      = AssertionError "total balance should always increase!"
      /\ exists h,
           released (Ledger.STX_VESTED_BY_BLOCK_QUERY overflow_ledger) h < 0).
Proof.
  apply (legacy_run_throws overflow_ledger). vm_compute. reflexivity.
Defined.

(** Each of these endings on a ledger: the scenario ledger completes;
    the account of 2^63 micro-STX is rejected at block 103; a ledger whose
    only account unlocks after the latest block has a NULL supply; a ledger
    without vesting rows has no loop bound; a negative vesting sum at block 102
    makes the total go down. *)
Example legacy_endings :
  Legacy.main Scenario.ledger = Legacy.run Scenario.legacy_client
  /\ (exists csv, Legacy.main Scenario.ledger = inr csv)
  /\ Legacy.main overflow_ledger = inl DatabaseError_bigint_out_of_range
  /\ Legacy.main
       (Ledger.mkDatabase
          [ Ledger.mkAccount "1A1zP1eP5QGefi2DMPTfTL5SLmv7DivfNa" "STACKS"
              500 0 103 90 0 ]
          [ Ledger.mkVesting "1A1zP1eP5QGefi2DMPTfTL5SLmv7DivfNa" "STACKS"
              500000 105 ])
     = inl TypeError_BigInt_null
  /\ Legacy.main
       (Ledger.mkDatabase
          [ Ledger.mkAccount "1FzTxL9Mxnm2fdmnQEArfhzJHevwbvcH6d" "STACKS"
              500 0 100 100 0 ]
          [])
     = inl (TypeError_undefined FirstEntry)
  /\ Legacy.main
       (Ledger.mkDatabase
          [ Ledger.mkAccount "1FzTxL9Mxnm2fdmnQEArfhzJHevwbvcH6d" "STACKS"
              500 0 100 100 0 ]
          [ Ledger.mkVesting "1A1zP1eP5QGefi2DMPTfTL5SLmv7DivfNa" "STACKS"
              (-5) 102 ])
     = inl (AssertionError "total balance should always increase!").
Proof.
  split; [apply main_connected, legacy_client_connected |].
  split; [eexists; vm_compute; reflexivity |].
  repeat split; vm_compute; reflexivity.
Qed.

(* ===================================================================== *)
(** ** The estimated times *)
(* ===================================================================== *)

Lemma loop_body_stamp (client : Client) (now : Z) (blockHeight : Z)
    (totals totals' : list BlockTotal) :
  loop_body client now blockHeight totals = inr totals' ->
  exists e,
    totals' = totals ++ [e]
    /\ JS.toISOString
         ((currentDate now
           + (blockHeight - currentBlockHeight client) * 10 * 60) * 1000)
       = inr (date_time e).
Proof.
  unfold loop_body.
  destruct (JS.toISOString _) as [? | stamp]; [discriminate |]. cbn [bind].
  destruct (if JS.includes (vestingBlockHeights client) blockHeight
            then _ else _) as [? | v]; [discriminate |].
  cbn [bind].
  destruct (if _ || _ then _ else _) as [? | q]; [discriminate |].
  cbn [bind ret]. intros [= <-]. eexists. split; reflexivity.
Qed.

(** X18.  The estimated time of the entry at index [i] is the ISO form of
    the start second, which is the clock rounded to the second, plus ten
    minutes per block. *)
Theorem estimated_times (client : Client) (now : Z)
    (totals : list BlockTotal) (i : nat) (e : BlockTotal) :
  accumulate client now = inr totals ->
  totals !! i = Some e ->
  JS.toISOString ((JS.Math_round_div now 1000 + 600 * Z.of_nat i) * 1000)
  = inr (date_time e).
Proof.
  unfold accumulate. intros Hacc. revert i e.
  revert Hacc.
  apply (for_loop_rule (lastBlockHeight client) (loop_body client now)
           (fun bh t =>
              bh = currentBlockHeight client + Z.of_nat (length t)
              /\ forall i e, t !! i = Some e ->
                   JS.toISOString
                     ((JS.Math_round_div now 1000 + 600 * Z.of_nat i) * 1000)
                   = inr (date_time e))
           (fun r => r = inr totals ->
              forall i e, totals !! i = Some e ->
                JS.toISOString
                  ((JS.Math_round_div now 1000 + 600 * Z.of_nat i) * 1000)
                = inr (date_time e))).
  - intros bh t [_ Ht] _ [= <-]. exact Ht.
  - discriminate.
  - intros bh t t' [Hbh Ht] _ Hbody.
    destruct (loop_body_stamp _ _ _ _ _ Hbody) as (x & -> & Hx).
    split; [rewrite length_app; simpl; lia |].
    intros i e He.
    destruct (Nat.lt_ge_cases i (length t)) as [Hlt | Hge].
    + rewrite lookup_app_l in He by assumption. now apply Ht.
    + assert (i = length t) as ->.
      { apply lookup_lt_Some in He. rewrite length_app in He.
        simpl in He. lia. }
      rewrite lookup_app_r, Nat.sub_diag in He by lia. injection He as <-.
      rewrite <- Hx. unfold currentDate. f_equal. lia.
  - split; [simpl; lia |]. intros i e He. destruct i; discriminate.
Qed.

Lemma estimated_times_witness :
  JS.toISOString ((JS.Math_round_div Scenario.now 1000 + 600 * Z.of_nat 3)
                  * 1000)
  = inr (date_time (Scenario.entry 103 1352464597500000 0
                      "2020-09-13T12:56:40.000Z")).
Proof.
  apply (estimated_times Scenario.client Scenario.now Scenario.series);
    [vm_compute; reflexivity | reflexivity].
Defined.

(* ===================================================================== *)
(** ** The two programs on one ledger *)
(* ===================================================================== *)

Lemma released_grouped (f : Z -> Z) (heights : list Z) (h : Z) :
  released (map (fun b => {| vesting_block_height := b; micro_stx := f b |})
              heights) h
  = if JS.includes heights h then f h else 0.
Proof.
  unfold released, JS.includes.
  induction heights as [| b heights IH]; [reflexivity |].
  cbn [map find vesting_block_height existsb].
  rewrite (Z.eqb_sym h b).
  destruct (b =? h) eqn:Hb.
  - apply Z.eqb_eq in Hb. subst. reflexivity.
  - cbn [orb]. exact IH.
Qed.

Lemma sum_filter_split (p q r : Ledger.Vesting -> bool)
    (rows : list Ledger.Vesting) :
  (forall v, In v rows -> p v = q v || r v) ->
  (forall v, In v rows -> q v && r v = false) ->
  fold_right Z.add 0
    (map Ledger.vesting_value (filter (fun v => Is_true (p v)) rows))
  = fold_right Z.add 0
      (map Ledger.vesting_value (filter (fun v => Is_true (q v)) rows))
    + fold_right Z.add 0
        (map Ledger.vesting_value (filter (fun v => Is_true (r v)) rows)).
Proof.
  induction rows as [| v rows IH]; intros Hp Hqr; [reflexivity |].
  rewrite !filter_cons.
  specialize (IH (fun a Ha => Hp a (or_intror Ha))
                 (fun a Ha => Hqr a (or_intror Ha))).
  specialize (Hp v (or_introl eq_refl)).
  specialize (Hqr v (or_introl eq_refl)).
  destruct (q v), (r v), (p v); try discriminate;
    cbn [decide_rel map fold_right] in *; simpl; lia.
Qed.

Lemma filter_filter_bool {A} (f g : A -> bool) (l : list A) :
  filter (fun a => Is_true (f a && g a)) l
  = filter (fun a => Is_true (g a)) (filter (fun a => Is_true (f a)) l).
Proof.
  induction l as [| x l IH]; [reflexivity |].
  rewrite !filter_cons.
  destruct (f x) eqn:Hf; cbn [andb].
  - simpl. rewrite filter_cons. destruct (g x); simpl; now rewrite IH.
  - simpl. exact IH.
Qed.

Lemma default_SUM (values : list Z) :
  default 0 (Ledger.SUM values) = fold_right Z.add 0 values.
Proof. now destruct values. Qed.

(** What the grouped query releases at a height is the sum of the STACKS
    vesting rows of that height. *)
Lemma released_at (db : Ledger.Database) (h : Z) :
  released (Ledger.STX_VESTED_BY_BLOCK_QUERY db) h
  = fold_right Z.add 0
      (map Ledger.vesting_value
         (filter (fun v => Is_true (Ledger.vesting_block_id v =? h))
            (filter (fun v => Is_true (Ledger.is_STACKS (Ledger.vesting_type v)))
               (Ledger.account_vesting db)))).
Proof.
  unfold Ledger.STX_VESTED_BY_BLOCK_QUERY.
  rewrite (released_grouped
             (fun b => fold_right Z.add 0
                (map Ledger.vesting_value
                   (filter (fun v => Is_true (Ledger.vesting_block_id v =? b))
                      (filter (fun v => Is_true
                                 (Ledger.is_STACKS (Ledger.vesting_type v)))
                         (Ledger.account_vesting db)))))).
  destruct (JS.includes _ h) eqn:Hin; [reflexivity |].
  apply includes_not_In in Hin.
  rewrite filter_none; [reflexivity |].
  intros v Hv. apply Z.eqb_neq. intros Heq. apply Hin.
  apply In_distinct_ascending. rewrite <- Heq. now apply in_map.
Qed.

Lemma released_through_range (db : Ledger.Database) (start : Z) (n : nat) :
  released_through (Ledger.STX_VESTED_BY_BLOCK_QUERY db) start n
  = fold_right Z.add 0
      (map Ledger.vesting_value
         (filter (fun v => Is_true ((start <=? Ledger.vesting_block_id v)
                                    && (Ledger.vesting_block_id v
                                        <=? start + Z.of_nat n)))
            (filter (fun v => Is_true (Ledger.is_STACKS (Ledger.vesting_type v)))
               (Ledger.account_vesting db)))).
Proof.
  induction n as [| n IH].
  - cbn [released_through]. rewrite released_at. do 2 f_equal.
    apply filter_bool_ext. intros v _.
    apply eq_true_iff_eq.
    rewrite andb_true_iff, Z.eqb_eq, !Z.leb_le. lia.
  - cbn [released_through]. rewrite IH, released_at.
    symmetry. apply sum_filter_split.
    + intros v _. apply eq_true_iff_eq.
      rewrite orb_true_iff, !andb_true_iff, Z.eqb_eq, !Z.leb_le. lia.
    + intros v _. apply not_true_is_false.
      rewrite !andb_true_iff, Z.eqb_eq, !Z.leb_le. lia.
Qed.

Lemma legacy_connect_answers (db : Ledger.Database) (legacy : Legacy.Client) :
  Legacy.connect db = Some legacy ->
  Ledger.MAX (map Ledger.block_id (Ledger.accounts db))
  = Some (Legacy.initBlockHeight legacy)
  /\ Legacy.vestingResults legacy = Ledger.STX_VESTED_BY_BLOCK_QUERY db
  /\ Legacy.lockTransferBlockHeights legacy
     = Ledger.LOCK_TRANSFER_BLOCK_IDS_QUERY db.
Proof.
  unfold Legacy.connect, Legacy.ledger_STX_LATEST_TOTAL_TXS_QUERY,
    Ledger.STX_LATEST_BLOCK_HEIGHT_QUERY.
  destruct (Ledger.MAX _) as [height |]; [| discriminate].
  destruct (Legacy.ledger_STX_TOTAL_TXS_AT_BLOCK_QUERY db height)
    as [? | val]; cbn [bind ret]; [discriminate |].
  destruct (Legacy.ledger_STX_VESTED_BY_BLOCK_QUERY db)
    as [? | vestingResults] eqn:Hvested; [discriminate |].
  intros [= <-]. split; [reflexivity |]. split; [| reflexivity].
  now apply legacy_vested_answer.
Qed.

(** X19.  The two programs agree on the vested amounts. Connected to one
    ledger, when both loops complete, they produce series of the same
    length, and the entries at one index have the same block height and the
    same vested amount: what the earlier program adds up from the grouped
    vesting rows is what src/index.ts reads from the total query. *)
Theorem programs_agree_on_vested (db : Ledger.Database) (client : Client)
    (legacy : Legacy.Client) (now : Z) (totals totals' : list BlockTotal) :
  Ledger.connect db = Some client ->
  Legacy.connect db = Some legacy ->
  accumulate client now = inr totals ->
  Legacy.accumulate legacy = inr totals' ->
  length totals' = length totals
  /\ forall i e e', totals !! i = Some e -> totals' !! i = Some e' ->
       block_height e' = block_height e
       /\ vested_micro_stx e' = vested_micro_stx e.
Proof.
  intros Hdb Hdb' Hacc Hacc'.
  destruct (connect_answers _ _ Hdb) as (Hmax & Hvest & Hlock & _ & _).
  destruct (legacy_connect_answers _ _ Hdb') as (Hmax' & Hres & Hlock').
  assert (Hcur : Legacy.initBlockHeight legacy = currentBlockHeight client)
    by congruence.
  destruct (legacy_entries _ _ Hacc') as [Hlen' Hshape].
  split.
  { rewrite Hlen', (accumulate_length _ _ _ Hacc), Hcur. f_equal.
    unfold Legacy.lastBlockHeight, lastBlockHeight, Legacy.vestingBlockHeights,
      vestingBlockHeights.
    fold (Legacy.vestingResults legacy). fold (vestingResults client).
    rewrite Hres, Hlock', Hlock.
    unfold Ledger.connect in Hdb.
    destruct (Ledger.STX_LATEST_BLOCK_HEIGHT_QUERY db); [| discriminate].
    injection Hdb as <-. reflexivity. }
  intros i e e' He He'.
  destruct (Hshape _ _ He') as (Hh' & Hv' & _).
  destruct (accumulate_series _ _ _ Hacc) as [Hok _].
  destruct (Hok _ _ He) as [Hh _].
  split; [lia |].
  destruct (series_on_ledger _ _ _ _ _ _ Hdb Hacc He) as [_ Hv].
  rewrite Hv, Hv', Hres, Hcur, released_through_range.
  unfold Ledger.STX_TOTAL_VESTED_BY_BLOCK_QUERY.
  rewrite default_SUM, Hh.
  rewrite (filter_bool_ext
             (fun v => Ledger.is_STACKS (Ledger.vesting_type v)
                       && (Ledger.vesting_block_id v
                           <=? currentBlockHeight client + Z.of_nat i)
                       && (currentBlockHeight client
                           <? Ledger.vesting_block_id v))
             (fun v => Ledger.is_STACKS (Ledger.vesting_type v)
                       && ((Ledger.vesting_block_id v
                            <=? currentBlockHeight client + Z.of_nat i)
                           && (currentBlockHeight client
                               <? Ledger.vesting_block_id v))))
    by (intros; symmetry; apply andb_assoc).
  rewrite (filter_filter_bool
             (fun v => Ledger.is_STACKS (Ledger.vesting_type v))
             (fun v => (Ledger.vesting_block_id v
                        <=? currentBlockHeight client + Z.of_nat i)
                       && (currentBlockHeight client
                           <? Ledger.vesting_block_id v))).
  do 2 f_equal.
  assert (Hnone : ~ In (currentBlockHeight client) (vestingBlockHeights client)).
  { intros Hin.
    destruct (lookup_lt_is_Some_2 totals 0) as [first Hfirst].
    { apply lookup_lt_Some in He. lia. }
    destruct (Hok _ _ Hfirst) as [Hh0 Hfol]. rewrite Z.add_0_r in Hh0.
    cbn [preceding] in Hfol.
    apply includes_In in Hin. rewrite <- Hh0 in Hin.
    pose proof (follows_vested_query _ _ _ Hfol Hin) as Hquery.
    destruct (connect_answers _ _ Hdb) as (_ & _ & _ & _ & Hq).
    rewrite Hq, Hh0, vested_empty in Hquery. discriminate. }
  apply filter_bool_ext. intros v Hrow.
  assert (Ledger.vesting_block_id v <> currentBlockHeight client).
  { intros Heq. apply Hnone. rewrite Hvest, <- Heq.
    apply In_distinct_ascending.
    exact (in_map Ledger.vesting_block_id _ _ Hrow). }
  apply eq_true_iff_eq.
  rewrite !andb_true_iff, Z.ltb_lt, !Z.leb_le. lia.
Qed.

Lemma programs_agree_on_vested_witness :
  length (default [] (match Legacy.accumulate Scenario.legacy_client with
                      | inr t => Some t
                      | inl _ => None
                      end))
  = length Scenario.series
  /\ forall i e e',
       Scenario.series !! i = Some e ->
       default [] (match Legacy.accumulate Scenario.legacy_client with
                   | inr t => Some t
                   | inl _ => None
                   end) !! i = Some e' ->
       block_height e' = block_height e
       /\ vested_micro_stx e' = vested_micro_stx e.
Proof.
  apply (programs_agree_on_vested Scenario.ledger Scenario.client
           Scenario.legacy_client Scenario.now);
    [exact client_connected | exact legacy_client_connected
    | vm_compute; reflexivity | vm_compute; reflexivity].
Defined.

(* ===================================================================== *)
(** ** The second program and src/index.ts *)
(* ===================================================================== *)

Lemma final_checks_as_index (totalPlaceholderBalance : Z)
    (totals : list BlockTotal) :
  4392964000000 <= totalPlaceholderBalance <= 4392964999999 ->
  Placeholder.final_checks totalPlaceholderBalance totals
  = (let* supply := finalSupply totals in
     assert_strictEqual supply "1,352,464,598"
       "incorrect final unlocked balance").
Proof.
  intros Hrange.
  unfold Placeholder.final_checks, finalSupply, assert_strictEqual, element.
  pose proof (readable_whole totalPlaceholderBalance 4392964 ltac:(lia))
    as Hbalance.
  change (JS.replace_groups (JS.toString 4392964)) with "4,392,964"%string
    in Hbalance.
  rewrite whole_in_range in Hbalance.
  replace (String.eqb _ "4,392,964") with true
    by (symmetry; apply String.eqb_eq, Hbalance; lia).
  cbn [assert bind ret].
  destruct (totals !! _) as [lastEntry |]; cbn [bind ret throw];
    [| reflexivity].
  f_equal. apply eq_true_iff_eq. rewrite !String.eqb_eq.
  pose proof (readable_supply_accepts (total_calculated lastEntry)) as Hr.
  pose proof (sliced_supply_accepts (total_calculated lastEntry)) as Hs.
  unfold expected_supply in *. tauto.
Qed.

Lemma write_csv_same (totals : list BlockTotal) :
  (forall e, In e totals -> csv_line e = Placeholder.csv_line e) ->
  Placeholder.write_csv totals = write_csv totals.
Proof.
  unfold Placeholder.write_csv, write_csv.
  generalize ("block_height,unlocked_micro_stx,unlocked_stx,estimated_time"
              ++ CRLF)%string.
  induction totals as [| x totals IH]; intros file Hsame; [reflexivity |].
  cbn [fold_left]. rewrite (Hsame x) by now left.
  apply IH. intros e He. apply Hsame. now right.
Qed.

Lemma valid_series_from_first (start : Z) (totals : list BlockTotal)
    (first : BlockTotal) :
  valid_series start totals -> totals !! 0%nat = Some first ->
  forall e, In e totals -> total_calculated first <= total_calculated e.
Proof.
  intros [_ Hpairs] Hfirst e He.
  apply list_elem_of_In, list_elem_of_lookup in He as [i He].
  revert e He. induction i as [| i IH]; intros e He.
  - assert (e = first) by congruence. subst. lia.
  - destruct (lookup_lt_is_Some_2 totals i) as [p Hp].
    { apply lookup_lt_Some in He. lia. }
    specialize (IH _ Hp). destruct (Hpairs _ _ _ Hp He). lia.
Qed.

Lemma forward_scan_In (totals : list BlockTotal) (e : BlockTotal) :
  In e (forward_scan totals) -> In e totals.
Proof.
  destruct totals as [| first rest]; [trivial |].
  cbn [forward_scan]. intros [<- | He]; [now left |]. right.
  apply list_elem_of_In.
  eapply elem_of_sublist; [| apply forward_scan_from_sublist].
  apply list_elem_of_In. exact He.
Qed.

(** X20.  The second program of src/unnamed/part_000 and src/index.ts on
    supply.csv. With a placeholder balance that passes its assertion, the
    two programs throw the same exceptions on the same inputs, so that one
    completes exactly when the other does; and when the first total of the
    series is at least one STX, they write the same file. *)
Theorem second_program_supply (client : Client) (now : Z)
    (totalPlaceholderBalance : Z) :
  4392964000000 <= totalPlaceholderBalance <= 4392964999999 ->
  (forall e, Placeholder.run_supply client now totalPlaceholderBalance = inl e
             <-> run client now = inl e)
  /\ (forall totals first,
         accumulate client now = inr totals ->
         totals !! 0%nat = Some first ->
         1000000 <= total_calculated first ->
         Placeholder.run_supply client now totalPlaceholderBalance
         = run client now).
Proof.
  intros Hrange. unfold Placeholder.run_supply, run. split.
  - intros e.
    destruct (accumulate client now) as [? | totals]; cbn [bind]; [tauto |].
    destruct (sanity_checks client totals) as [? | []]; cbn [bind]; [tauto |].
    rewrite prune_scan. cbn [bind].
    rewrite (final_checks_as_index _ _ Hrange).
    destruct (finalSupply _) as [? | supply]; cbn [bind]; [tauto |].
    destruct (assert_strictEqual _ _ _) as [? | []]; cbn [bind ret]; [tauto |].
    split; discriminate.
  - intros totals first -> Hfirst Hlarge. cbn [bind].
    destruct (sanity_checks client totals) as [? | []] eqn:Hsane; cbn [bind];
      [reflexivity |].
    rewrite prune_scan. cbn [bind].
    rewrite (final_checks_as_index _ _ Hrange).
    destruct (finalSupply _) as [? | supply]; cbn [bind]; [reflexivity |].
    destruct (assert_strictEqual _ _ _) as [? | []]; cbn [bind ret];
      [reflexivity |].
    f_equal. apply write_csv_same. intros e He.
    apply csv_line_cases. apply forward_scan_In in He.
    apply sanity_checks_valid in Hsane.
    pose proof (valid_series_from_first _ _ _ Hsane Hfirst e He). lia.
Qed.

Lemma second_program_supply_witness :
  (forall e, Placeholder.run_supply funded_client Scenario.now 4392964000000
             = inl e
             <-> run funded_client Scenario.now = inl e)
  /\ Placeholder.run_supply funded_client Scenario.now 4392964000000
     = run funded_client Scenario.now
  /\ exists csv, run funded_client Scenario.now = inr csv.
Proof.
  destruct (second_program_supply funded_client Scenario.now 4392964000000
              ltac:(lia)) as [Hthrow Hsame].
  split; [exact Hthrow |]. split.
  - eapply Hsame; [vm_compute; reflexivity | reflexivity |].
    vm_compute. discriminate.
  - eexists. vm_compute. reflexivity.
Defined.
